(** * kgroups: capability model, threshold-signing front end and NIP-29 relay

    A shallow embedding of the TypeScript/JavaScript sources of the
    [@nkg/cap], [@nkg/signer] and [@nkg/relay] packages, followed by the
    properties of the specification that concern them.

    Conventions of the embedding.
    - A JavaScript [Map] or [Set] that the code only reads by key is a
      [gmap] or [gset]; one that the code iterates is a duplicate-free
      list in insertion order, with [set_add] and [set_delete] for
      [Set.prototype.add] and [Set.prototype.delete].
    - An optional field [f?: T] is an [option T]; where the code tests
      such a field by truthiness the test is written out ([truthy_num],
      [truthy_str]).
    - [Date.now()] is an explicit argument [now] (seconds).
    - Functions of the external libraries (nostr-tools, @cmdcode/frost,
      JSON) are methods of a type class, so every result holds for any
      behaviour of the library. *)

From Stdlib Require Import ZArith String Ascii List Lia Bool.
From stdpp Require Import base decidable option list gmap strings pretty sorting.

Local Open Scope string_scope.
Local Open Scope Z_scope.

(** ** JavaScript values *)

Module JS.

(** A JavaScript number that results from [parseInt]: an integer or NaN. *)
Inductive number : Type :=
| Num (z : Z)
| NaN.

Global Instance number_eq_dec : EqDecision number.
Proof. solve_decision. Defined.

Definition isNaN (n : number) : bool :=
  match n with NaN => true | Num _ => false end.

(** Truthiness of an optional number: [undefined], [0] and [NaN] are falsy. *)
Definition truthy_num (o : option number) : bool :=
  match o with
  | Some (Num z) => negb (z =? 0)
  | Some NaN => false
  | None => false
  end.

(** Truthiness of an optional string: [undefined] and [""] are falsy. *)
Definition truthy_str (o : option string) : bool :=
  match o with
  | Some s => negb (String.eqb s "")
  | None => false
  end.

(** [a >= b] on numbers; every comparison with NaN is false. *)
Definition geb_num (a : Z) (b : number) : bool :=
  match b with Num z => z <=? a | NaN => false end.

(** [a > b] on numbers. *)
Definition gtb_num (a b : number) : bool :=
  match a, b with Num x, Num y => y <? x | _, _ => false end.

Definition is_ws (c : ascii) : bool :=
  match nat_of_ascii c with
  | 9%nat | 10%nat | 11%nat | 12%nat | 13%nat | 32%nat => true
  | _ => false
  end.

Definition digit_of (c : ascii) : option Z :=
  let n := Z.of_nat (nat_of_ascii c) in
  if (48 <=? n) && (n <=? 57) then Some (n - 48) else None.

Fixpoint skip_ws (s : string) : string :=
  match s with
  | String c s' => if is_ws c then skip_ws s' else s
  | EmptyString => s
  end.

(** The value of the longest prefix of decimal digits, [None] when the
    prefix is empty. *)
Fixpoint digits_value (s : string) (acc : option Z) : option Z :=
  match s with
  | String c s' =>
      match digit_of c with
      | Some d => digits_value s' (Some (10 * default 0 acc + d))
      | None => acc
      end
  | EmptyString => acc
  end.

(** [parseInt(s, 10)] on ASCII input: leading white space, an optional
    sign, then decimal digits up to the first other character. *)
Definition parseInt (s : string) : number :=
  match skip_ws s with
  | String "-"%char r =>
      match digits_value r None with Some v => Num (- v) | None => NaN end
  | String "+"%char r =>
      match digits_value r None with Some v => Num v | None => NaN end
  | r =>
      match digits_value r None with Some v => Num v | None => NaN end
  end.

(** [Set.prototype.add] on a set kept in insertion order. *)
Definition set_add `{EqDecision A} (x : A) (s : list A) : list A :=
  if bool_decide (x ∈ s) then s else s ++ [x].

(** [Set.prototype.delete]. *)
Definition set_delete `{EqDecision A} (x : A) (s : list A) : list A :=
  filter (λ y, y ≠ x) s.

(** [new Set(array)]: the first occurrence of each element, in order. *)
Definition set_of_list `{EqDecision A} (l : list A) : list A :=
  foldl (λ s x, set_add x s) [] l.

(** [Array.prototype.slice(0, end)] for an integer [end]. *)
Definition slice0 {A} (l : list A) (e : Z) : list A :=
  if e <? 0 then take (Z.to_nat (Z.max (Z.of_nat (length l) + e) 0)) l
  else take (Z.to_nat e) l.

(** [Array.prototype.slice(-k)] for a positive integer [k]: the last [k]
    elements. *)
Definition slice_last {A} (k : nat) (l : list A) : list A :=
  drop (length l - k)%nat l.

End JS.

(** ** nostr-tools *)

Module Nostr.

Record Event : Type := {
  id : string;
  pubkey : string;
  created_at : Z;
  kind : Z;
  tags : list (list string);
  content : string;
  sig : string
}.

Global Instance Event_eq_dec : EqDecision Event.
Proof. solve_decision. Defined.

(** The library functions the packages call. [JSON_parse] is
    [JSON.parse] on the text of a [required-tags] or [excluded-tags]
    tag, restricted to values of the declared type
    [[string, string][]]; [None] stands for a thrown [SyntaxError].
    [JSON_stringify_length ev] is [JSON.stringify(ev).length]. *)
Class Tools : Type := {
  verifyEvent : Event -> bool;
  JSON_parse : string -> option (list (string * string));
  JSON_stringify_length : Event -> Z
}.

(** [tags.find((t) => t[0] === tagName)]. *)
Definition findTag (tags : list (list string)) (tagName : string)
  : option (list string) :=
  List.find (λ t, bool_decide (t !! 0%nat = Some tagName)) tags.

End Nostr.

(** ** @nkg/cap: types.ts, capability.js, validation.js *)

Module Cap.
Import JS Nostr.

Definition GRANT : Z := 29000.
Definition REVOKE : Z := 29001.
Definition DELEGATE : Z := 29002.

Definition HOLDER : string := "p".
Definition TYPE : string := "capability".
Definition KINDS : string := "kinds".
Definition REQUIRED_TAGS : string := "required-tags".
Definition EXCLUDED_TAGS : string := "excluded-tags".
Definition RATE_LIMIT : string := "rate-limit".
Definition EXPIRATION : string := "expiration".
Definition REFERENCE : string := "e".
Definition GROUP : string := "h".

Record CapabilityQualifier : Type := {
  kinds : option (list Z);
  requiredTags : option (list (string * string));
  excludedTags : option (list (string * string));
  rateLimit : option (Z * Z)
}.

Record DelegationLink : Type := {
  delegator : string;
  delegatee : string;
  eventId : string
}.

(** [type] is a string at run time: [parseDelegationEvent] copies the tag
    value without checking it against the five capability types. *)
Record Capability : Type := {
  type : string;
  holder : string;
  issuer : string;
  qualifiers : option CapabilityQualifier;
  issuedAt : Z;
  expiresAt : option number;
  delegationChain : option (list DelegationLink)
}.

Record CapabilityEvent : Type := {
  event : Event;
  capability : Capability
}.

Record RevocationEvent : Type := {
  rev_event : Event;
  revokedEventId : string;
  groupPubkey : string;
  revokedAt : Z
}.

Record ValidationResult : Type := {
  valid : bool;
  error : option string;
  vcapability : option Capability
}.

Record ValidationContext : Type := {
  currentTime : Z;
  revokedEventIds : gset string;
  verifySignature : option (Event -> bool)
}.

Global Instance CapabilityQualifier_eq_dec : EqDecision CapabilityQualifier.
Proof. solve_decision. Defined.
Global Instance DelegationLink_eq_dec : EqDecision DelegationLink.
Proof. solve_decision. Defined.
Global Instance Capability_eq_dec : EqDecision Capability.
Proof. solve_decision. Defined.

(** *** capability.js: helpers *)

Definition getTagValue (tags : list (list string)) (tagName : string)
  : option string :=
  match findTag tags tagName with
  | Some tag => tag !! 1%nat
  | None => None
  end.

Definition getTagValues (tags : list (list string)) (tagName : string)
  : list string :=
  match findTag tags tagName with
  | Some tag => drop 1 tag
  | None => []
  end.

(** The object [parseQualifiers] builds, field by field. *)
Definition parseQualifiers `{Tools} (tags : list (list string))
  : CapabilityQualifier :=
  let kindsValues := getTagValues tags KINDS in
  let requiredTagsStr := getTagValue tags REQUIRED_TAGS in
  let excludedTagsStr := getTagValue tags EXCLUDED_TAGS in
  let rateLimitTag := findTag tags RATE_LIMIT in
  {| kinds :=
       if (0 <? length kindsValues)%nat
       then Some (omap (λ v, match parseInt v with Num n => Some n | NaN => None end)
                       kindsValues)
       else None;
     requiredTags :=
       match requiredTagsStr with
       | Some s => if truthy_str (Some s) then JSON_parse s else None
       | None => None
       end;
     excludedTags :=
       match excludedTagsStr with
       | Some s => if truthy_str (Some s) then JSON_parse s else None
       | None => None
       end;
     rateLimit :=
       match rateLimitTag with
       | Some t =>
           if (3 <=? length t)%nat then
             match parseInt (default "" (t !! 1%nat)),
                   parseInt (default "" (t !! 2%nat)) with
             | Num count, Num periodSeconds => Some (count, periodSeconds)
             | _, _ => None
             end
           else None
       | None => None
       end |}.

(** [Object.keys(qualifiers).length > 0]. *)
Definition has_keys (q : CapabilityQualifier) : bool :=
  bool_decide (is_Some (kinds q)) || bool_decide (is_Some (requiredTags q))
  || bool_decide (is_Some (excludedTags q)) || bool_decide (is_Some (rateLimit q)).

Definition validTypes : list string :=
  ["read"; "write"; "publish"; "delete"; "delegate"].

Definition parseExpiration (tags : list (list string)) : option number :=
  match getTagValue tags EXPIRATION with
  | Some s => if truthy_str (Some s) then Some (parseInt s) else None
  | None => None
  end.

Definition parseCapabilityGrantEvent `{Tools} (ev : Event)
  : option CapabilityEvent :=
  if negb (kind ev =? GRANT) then None else
  let holder := getTagValue (tags ev) HOLDER in
  let type := getTagValue (tags ev) TYPE in
  if negb (truthy_str holder) || negb (truthy_str type) then None else
  let holder := default "" holder in
  let type := default "" type in
  if negb (bool_decide (type ∈ validTypes)) then None else
  let qualifiers := parseQualifiers (tags ev) in
  let expiresAt := parseExpiration (tags ev) in
  Some {| event := ev;
          capability :=
            {| type := type;
               holder := holder;
               issuer := pubkey ev;
               qualifiers := if has_keys qualifiers then Some qualifiers else None;
               issuedAt := created_at ev;
               expiresAt := expiresAt;
               delegationChain := None |} |}.

Definition parseRevocationEvent (ev : Event) : option RevocationEvent :=
  if negb (kind ev =? REVOKE) then None else
  let revokedEventId := getTagValue (tags ev) REFERENCE in
  if negb (truthy_str revokedEventId) then None else
  Some {| rev_event := ev;
          revokedEventId := default "" revokedEventId;
          groupPubkey := pubkey ev;
          revokedAt := created_at ev |}.

Definition parseDelegationEvent `{Tools} (ev : Event)
    (originalCapability : Capability) : option CapabilityEvent :=
  if negb (kind ev =? DELEGATE) then None else
  let holder := getTagValue (tags ev) HOLDER in
  let type := getTagValue (tags ev) TYPE in
  let originalEventId := getTagValue (tags ev) REFERENCE in
  if negb (truthy_str holder) || negb (truthy_str type)
     || negb (truthy_str originalEventId) then None else
  let holder := default "" holder in
  let type := default "" type in
  let qualifiers := parseQualifiers (tags ev) in
  let expiresAt := parseExpiration (tags ev) in
  let delegationChain :=
    (default [] (delegationChain originalCapability)
     ++ [ {| delegator := pubkey ev; delegatee := holder; eventId := id ev |} ])%list in
  Some {| event := ev;
          capability :=
            {| type := type;
               holder := holder;
               issuer := issuer originalCapability;
               qualifiers := if has_keys qualifiers then Some qualifiers else None;
               issuedAt := created_at ev;
               expiresAt := expiresAt;
               delegationChain := Some delegationChain |} |}.

(** *** capability.js: queries *)

(** [capability.qualifiers?.kinds]. *)
Definition qkinds (c : Capability) : option (list Z) :=
  q ← qualifiers c; kinds q.
Definition qrequiredTags (c : Capability) : option (list (string * string)) :=
  q ← qualifiers c; requiredTags q.
Definition qexcludedTags (c : Capability) : option (list (string * string)) :=
  q ← qualifiers c; excludedTags q.

Definition capabilityAllowsAction (capability : Capability) (action : string)
    (eventKind : option Z) : bool :=
  if negb (String.eqb (type capability) action) then false else
  match eventKind, qkinds capability with
  | Some k, Some ks => if negb (bool_decide (k ∈ ks)) then false else true
  | _, _ => true
  end.

Definition isCapabilityExpired (capability : Capability) (currentTime : Z)
  : bool :=
  if negb (truthy_num (expiresAt capability)) then false else
  match expiresAt capability with
  | Some e => geb_num currentTime e
  | None => false
  end.

(** [eventTags.some((t) => t[0] === tagName && t[1] === tagValue)]. *)
Definition hasTagPair (eventTags : list (list string)) (p : string * string)
  : bool :=
  existsb (λ t, bool_decide (t !! 0%nat = Some p.1)
                && bool_decide (t !! 1%nat = Some p.2)) eventTags.

Fixpoint eventMatchesRequiredTags (eventTags : list (list string))
    (requiredTags : list (string * string)) : bool :=
  match requiredTags with
  | [] => true
  | p :: rest =>
      if negb (hasTagPair eventTags p) then false
      else eventMatchesRequiredTags eventTags rest
  end.

Fixpoint eventHasExcludedTags (eventTags : list (list string))
    (excludedTags : list (string * string)) : bool :=
  match excludedTags with
  | [] => false
  | p :: rest =>
      if hasTagPair eventTags p then true
      else eventHasExcludedTags eventTags rest
  end.

(** *** validation.js *)

Definition invalid (msg : string) : ValidationResult :=
  {| valid := false; error := Some msg; vcapability := None |}.

(** [context.verifySignature] when the caller supplies one, [verifyEvent]
    otherwise. *)
Definition signatureOk `{Tools} (context : ValidationContext) (ev : Event)
  : bool :=
  match verifySignature context with
  | Some f => f ev
  | None => verifyEvent ev
  end.

Definition validateCapabilityEvent `{Tools} (ev : Event)
    (expectedGroupPubkey : string) (context : ValidationContext)
  : ValidationResult :=
  if negb (signatureOk context ev) then invalid "Invalid event signature" else
  if negb (kind ev =? GRANT) then invalid "Invalid event kind" else
  if negb (String.eqb (pubkey ev) expectedGroupPubkey)
  then invalid "Capability not issued by expected group" else
  match parseCapabilityGrantEvent ev with
  | None => invalid "Failed to parse capability event"
  | Some capEvent =>
      if bool_decide (id ev ∈ revokedEventIds context)
      then invalid "Capability has been revoked" else
      if isCapabilityExpired (capability capEvent) (currentTime context)
      then invalid "Capability has expired" else
      {| valid := true; error := None;
         vcapability := Some (capability capEvent) |}
  end.

Fixpoint firstKindOutside (orig del : list Z) : option Z :=
  match del with
  | [] => None
  | k :: rest =>
      if negb (bool_decide (k ∈ orig)) then Some k
      else firstKindOutside orig rest
  end.

Definition validateQualifiersSubset (original delegated : Capability)
  : ValidationResult :=
  let kindsResult :=
    match qkinds original, qkinds delegated with
    | Some ok, Some dk =>
        match firstKindOutside ok dk with
        | Some k =>
            Some (invalid ("Delegated kind " +:+ pretty k
                           +:+ " not in original capability"))
        | None => None
        end
    | Some _, None =>
        Some (invalid "Delegated capability must specify kinds subset")
    | None, _ => None
    end in
  match kindsResult with
  | Some r => r
  | None =>
      if truthy_num (expiresAt original) && truthy_num (expiresAt delegated)
      then
        if gtb_num (default NaN (expiresAt delegated))
                   (default NaN (expiresAt original))
        then invalid "Delegated capability expires after original"
        else {| valid := true; error := None; vcapability := None |}
      else if truthy_num (expiresAt original)
              && negb (truthy_num (expiresAt delegated))
      then invalid "Delegated capability must have expiration"
      else {| valid := true; error := None; vcapability := None |}
  end.

Definition validateDelegatedCapability `{Tools} (delegationEvent : Event)
    (originalCapabilityEvent : Event) (expectedGroupPubkey : string)
    (context : ValidationContext) : ValidationResult :=
  let originalResult :=
    validateCapabilityEvent originalCapabilityEvent expectedGroupPubkey context in
  match valid originalResult, vcapability originalResult with
  | true, Some original =>
      if negb (String.eqb (type original) "delegate")
      then invalid "Original capability does not allow delegation" else
      if negb (signatureOk context delegationEvent)
      then invalid "Invalid delegation event signature" else
      if negb (String.eqb (pubkey delegationEvent) (holder original))
      then invalid "Delegation not signed by capability holder" else
      if bool_decide (id delegationEvent ∈ revokedEventIds context)
      then invalid "Delegation has been revoked" else
      match parseDelegationEvent delegationEvent original with
      | None => invalid "Failed to parse delegation event"
      | Some delegatedCap =>
          if isCapabilityExpired (capability delegatedCap) (currentTime context)
          then invalid "Delegated capability has expired" else
          let subsetResult :=
            validateQualifiersSubset original (capability delegatedCap) in
          if negb (valid subsetResult) then subsetResult else
          {| valid := true; error := None;
             vcapability := Some (capability delegatedCap) |}
      end
  | _, _ =>
      invalid ("Original capability invalid: "
               +:+ default "undefined" (error originalResult))
  end.

Record AuthContext : Type := {
  eventKind : option Z;
  eventTags : option (list (list string));
  ctxTime : option Z
}.

Record AuthResult : Type := {
  authorized : bool;
  witness : option Capability;
  authError : option string
}.

Definition denied : AuthResult :=
  {| authorized := false; witness := None;
     authError := Some "No valid capability found" |}.

(** The body of the loop of [checkAuthorization]: [true] when the
    iteration reaches the [return], [false] when it hits a [continue]. *)
Definition loopBody (cap : Capability) (pubkey action : string)
    (context : AuthContext) (currentTime : Z) : bool :=
  if negb (String.eqb (holder cap) pubkey) then false else
  if isCapabilityExpired cap currentTime then false else
  if negb (capabilityAllowsAction cap action (eventKind context)) then false else
  if match qrequiredTags cap, eventTags context with
     | Some req, Some evTags => negb (eventMatchesRequiredTags evTags req)
     | _, _ => false
     end then false else
  if match qexcludedTags cap, eventTags context with
     | Some exc, Some evTags => eventHasExcludedTags evTags exc
     | _, _ => false
     end then false else
  true.

Fixpoint authLoop (capabilities : list Capability) (pubkey action : string)
    (context : AuthContext) (currentTime : Z) : AuthResult :=
  match capabilities with
  | [] => denied
  | cap :: rest =>
      if loopBody cap pubkey action context currentTime
      then {| authorized := true; witness := Some cap; authError := None |}
      else authLoop rest pubkey action context currentTime
  end.

(** [now] is the value [Math.floor(Date.now() / 1000)] would have. *)
Definition checkAuthorization (capabilities : list Capability)
    (pubkey action : string) (context : AuthContext) (now : Z) : AuthResult :=
  let currentTime := default now (ctxTime context) in
  authLoop capabilities pubkey action context currentTime.

(** *** CapabilityStore *)

Record CapabilityStore : Type := {
  capabilities : gmap string CapabilityEvent;
  revokedIds : gset string;
  byHolder : gmap string (list string);
  byIssuer : gmap string (list string)
}.

Definition emptyStore : CapabilityStore :=
  {| capabilities := ∅; revokedIds := ∅; byHolder := ∅; byIssuer := ∅ |}.

(** [if (!index.has(k)) index.set(k, new Set()); index.get(k).add(v)]. *)
Definition indexAdd `{Countable K} (k : K) (v : string)
    (index : gmap K (list string)) : gmap K (list string) :=
  <[k := set_add v (default [] (index !! k))]> index.

(** [index.get(k)?.delete(v)]. *)
Definition indexDelete `{Countable K} (k : K) (v : string)
    (index : gmap K (list string)) : gmap K (list string) :=
  alter (set_delete v) k index.

Definition addCapability `{Tools} (st : CapabilityStore) (ev : Event)
    (groupPubkey : string) (now : Z) : ValidationResult * CapabilityStore :=
  let context :=
    {| currentTime := now; revokedEventIds := revokedIds st;
       verifySignature := None |} in
  let result := validateCapabilityEvent ev groupPubkey context in
  match valid result, vcapability result with
  | true, Some cap =>
      let capEvent := {| event := ev; capability := cap |} in
      (result,
       {| capabilities := <[id ev := capEvent]> (capabilities st);
          revokedIds := revokedIds st;
          byHolder := indexAdd (holder cap) (id ev) (byHolder st);
          byIssuer := indexAdd (issuer cap) (id ev) (byIssuer st) |})
  | _, _ => (result, st)
  end.

Definition addRevocation `{Tools} (st : CapabilityStore) (ev : Event)
    (groupPubkey : string) : bool * CapabilityStore :=
  if negb (String.eqb (pubkey ev) groupPubkey) then (false, st) else
  if negb (verifyEvent ev) then (false, st) else
  match parseRevocationEvent ev with
  | None => (false, st)
  | Some revocation =>
      let rid := revokedEventId revocation in
      let revoked := {[ rid ]} ∪ revokedIds st in
      match capabilities st !! rid with
      | Some capEvent =>
          (true,
           {| capabilities := delete rid (capabilities st);
              revokedIds := revoked;
              byHolder :=
                indexDelete (holder (capability capEvent)) rid (byHolder st);
              byIssuer :=
                indexDelete (issuer (capability capEvent)) rid (byIssuer st) |})
      | None =>
          (true,
           {| capabilities := capabilities st;
              revokedIds := revoked;
              byHolder := byHolder st;
              byIssuer := byIssuer st |})
      end
  end.

(** The loop of [getCapabilitiesForHolder], keeping the event id next to
    each capability it pushes. *)
Definition holderEntries (st : CapabilityStore) (h : string) (now : Z)
  : list (string * Capability) :=
  match byHolder st !! h with
  | None => []
  | Some eventIds =>
      omap (λ eventId,
              match capabilities st !! eventId with
              | Some capEvent =>
                  if negb (isCapabilityExpired (capability capEvent) now)
                  then Some (eventId, capability capEvent) else None
              | None => None
              end) eventIds
  end.

Definition getCapabilitiesForHolder (st : CapabilityStore) (h : string)
    (now : Z) : list Capability :=
  match byHolder st !! h with
  | None => []
  | Some eventIds =>
      omap (λ eventId,
              match capabilities st !! eventId with
              | Some capEvent =>
                  if negb (isCapabilityExpired (capability capEvent) now)
                  then Some (capability capEvent) else None
              | None => None
              end) eventIds
  end.

Definition storeCheckAuthorization (st : CapabilityStore)
    (pubkey action : string) (context : AuthContext) (now : Z) : AuthResult :=
  let capabilities := getCapabilitiesForHolder st pubkey now in
  checkAuthorization capabilities pubkey action context now.

Definition isRevoked (st : CapabilityStore) (eventId : string) : bool :=
  bool_decide (eventId ∈ revokedIds st).

(** The operations of the store that change or read it, as the relay and
    the tests drive them. *)
Inductive StoreOp : Type :=
| OpAddCapability (ev : Event) (groupPubkey : string) (now : Z)
| OpAddRevocation (ev : Event) (groupPubkey : string)
| OpQuery (pubkey action : string) (context : AuthContext) (now : Z).

Definition stepStore `{Tools} (st : CapabilityStore) (op : StoreOp)
  : CapabilityStore :=
  match op with
  | OpAddCapability ev g now => (addCapability st ev g now).2
  | OpAddRevocation ev g => (addRevocation st ev g).2
  | OpQuery _ _ _ _ => st
  end.

Definition runStore `{Tools} (st : CapabilityStore) (ops : list StoreOp)
  : CapabilityStore :=
  foldl stepStore st ops.

End Cap.

(** ** @nkg/signer: dkg.ts and signing.ts *)

Module Signer.
Import JS.

(** A function that can [throw]: its value or the message of the [Error]. *)
Inductive result (A : Type) : Type :=
| Ok (a : A)
| Throw (msg : string).
Arguments Ok {A} a.
Arguments Throw {A} msg.

Global Instance result_ret : MRet result := λ A a, Ok a.
Global Instance result_bind : MBind result := λ A B f r,
  match r with Ok a => f a | Throw msg => Throw msg end.

Fixpoint mapR {A B} (f : A -> result B) (l : list A) : result (list B) :=
  match l with
  | [] => Ok []
  | x :: rest => y ← f x; ys ← mapR f rest; Ok (y :: ys)
  end.

(** *** types.ts *)

Record SecretShare : Type := { share_idx : Z; seckey : string }.

Record KeyPackage : Type := {
  kp_share : SecretShare;
  kp_groupPubkey : string;
  kp_vssCommitments : list string;
  kp_threshold : Z;
  kp_maxSigners : Z
}.

Inductive DKGState : Type :=
| initialized | round1_complete | round2_complete | finalized | failed.

Global Instance DKGState_eq_dec : EqDecision DKGState.
Proof. solve_decision. Defined.

Definition stateName (s : DKGState) : string :=
  match s with
  | initialized => "initialized"
  | round1_complete => "round1_complete"
  | round2_complete => "round2_complete"
  | finalized => "finalized"
  | failed => "failed"
  end.

(** [idx] is declared [number]; the model takes the indexes of the
    participants to be integers, as [createDKGSession] numbers them from
    1 to [maxSigners]. *)
Record DKGRound1Package : Type := {
  idx : Z;
  vssCommitments : list string;
  proofOfKnowledge : option string
}.

Global Instance DKGRound1Package_eq_dec : EqDecision DKGRound1Package.
Proof. solve_decision. Defined.

Record DKGRound2Package : Type := {
  fromIdx : Z;
  toIdx : Z;
  encryptedShare : string
}.

Record DKGConfig : Type := {
  sessionId : string;
  threshold : Z;
  maxSigners : Z;
  participants : list string;
  myIndex : Z;
  mySecretKey : string
}.

Record DKGSession : Type := {
  config : DKGConfig;
  state : DKGState;
  round1Packages : gmap Z DKGRound1Package;
  round2Packages : gmap Z DKGRound2Package;
  myRound1Secret : option (list Z);
  keyPackage : option KeyPackage
}.

Record PublicNonce : Type := {
  pn_idx : Z;
  hidden_pn : string;
  binder_pn : string
}.

Record CommitmentPackage : Type := {
  cp_idx : Z;
  hidden_sn : string;
  binder_sn : string;
  cp_hidden_pn : string;
  cp_binder_pn : string
}.

Record PartialSignature : Type := {
  ps_idx : Z;
  psig : string;
  ps_pubkey : string
}.

(** The functions of @cmdcode/frost the package calls. Their sources are
    not part of the repository; each may throw. *)
Class Frost : Type := {
  Seed : Type;
  GroupSigningCtx : Type;
  GroupKeyCtx : Type;
  get_share_commits : list Z -> result (list string);
  create_commit_pkg : Seed -> SecretShare -> result CommitmentPackage;
  get_group_signing_ctx :
    string -> list PublicNonce -> string -> result GroupSigningCtx;
  get_commit_pkg :
    list CommitmentPackage -> SecretShare -> result CommitmentPackage;
  sign_msg :
    GroupSigningCtx -> SecretShare -> CommitmentPackage -> result PartialSignature;
  combine_partial_sigs :
    GroupSigningCtx -> list PartialSignature -> result string;
  get_group_key_context : string -> result GroupKeyCtx;
  verify_final_sig : GroupKeyCtx -> string -> string -> result bool
}.

(** *** Byte strings, hex and BigInt *)

Definition hexDigit (d : N) : ascii :=
  match d with
  | 0%N => "0" | 1%N => "1" | 2%N => "2" | 3%N => "3"
  | 4%N => "4" | 5%N => "5" | 6%N => "6" | 7%N => "7"
  | 8%N => "8" | 9%N => "9" | 10%N => "a" | 11%N => "b"
  | 12%N => "c" | 13%N => "d" | 14%N => "e" | _ => "f"
  end%char.

(** [Buff.hex]: two lower-case digits for each byte. *)
Fixpoint hex (bytes : list Byte.byte) : string :=
  match bytes with
  | [] => ""
  | b :: rest =>
      let n := Byte.to_N b in
      String (hexDigit (n / 16)) (String (hexDigit (n mod 16)) (hex rest))
  end.

Definition hexValue (c : ascii) : option Z :=
  let n := Z.of_nat (nat_of_ascii c) in
  if (48 <=? n) && (n <=? 57) then Some (n - 48)
  else if (97 <=? n) && (n <=? 102) then Some (n - 87)
  else if (65 <=? n) && (n <=? 70) then Some (n - 55)
  else None.

Fixpoint hexDigits (s : string) (acc : Z) : option Z :=
  match s with
  | EmptyString => Some acc
  | String c s' =>
      match hexValue c with
      | Some d => hexDigits s' (16 * acc + d)
      | None => None
      end
  end.

(** [BigInt("0x" + h)]; [None] is the [SyntaxError] for an empty or
    ill-formed digit string. *)
Definition BigInt0x (h : string) : option Z :=
  match h with
  | EmptyString => None
  | _ => hexDigits h 0
  end.

(** *** dkg.ts *)

Definition createDKGSession (config : DKGConfig) : result DKGSession :=
  if threshold config <? 2 then Throw "Threshold must be at least 2" else
  if maxSigners config <? threshold config
  then Throw "Threshold cannot exceed max signers" else
  if negb (Z.of_nat (length (participants config)) =? maxSigners config)
  then Throw "Number of participants must equal max signers" else
  if (myIndex config <? 1) || (maxSigners config <? myIndex config)
  then Throw "My index must be between 1 and max signers" else
  Ok {| config := config; state := initialized;
        round1Packages := ∅; round2Packages := ∅;
        myRound1Secret := None; keyPackage := None |}.

(** The loop [for (let i = 0; i < threshold; i++)] of
    [generateRound1Package]; [random_bytes i] is what the [i]-th call of
    [Util.random_bytes(32)] returns. *)
Fixpoint sampleCoefficients (random_bytes : nat -> list Byte.byte)
    (i count : nat) : result (list Z) :=
  match count with
  | O => Ok []
  | S count' =>
      match BigInt0x (hex (random_bytes i)) with
      | Some c =>
          rest ← sampleCoefficients random_bytes (S i) count'; Ok (c :: rest)
      | None => Throw "SyntaxError: Cannot convert 0x to a BigInt"
      end
  end.

Definition generateRound1Package `{Frost}
    (random_bytes : nat -> list Byte.byte) (session : DKGSession)
  : result (DKGRound1Package * DKGSession) :=
  if negb (bool_decide (state session = initialized))
  then Throw ("Invalid state for Round 1: " +:+ stateName (state session)) else
  let threshold := threshold (config session) in
  let myIndex := myIndex (config session) in
  coefficients ← sampleCoefficients random_bytes 0 (Z.to_nat threshold);
  vssCommitments ← get_share_commits coefficients;
  let round1Package :=
    {| idx := myIndex; vssCommitments := vssCommitments;
       proofOfKnowledge := None |} in
  let updatedSession :=
    {| config := config session;
       state := state session;
       round1Packages := <[myIndex := round1Package]> (round1Packages session);
       round2Packages := round2Packages session;
       myRound1Secret := Some coefficients;
       keyPackage := keyPackage session |} in
  Ok (round1Package, updatedSession).

Definition processRound1Package (session : DKGSession)
    (pkg : DKGRound1Package) : result DKGSession :=
  if negb (bool_decide (state session = initialized))
     && negb (bool_decide (state session = round1_complete))
  then Throw ("Invalid state for processing Round 1: "
              +:+ stateName (state session)) else
  if idx pkg =? myIndex (config session)
  then Throw "Cannot process own Round 1 package" else
  if (idx pkg <? 1) || (maxSigners (config session) <? idx pkg)
  then Throw ("Invalid participant index: " +:+ pretty (idx pkg)) else
  if negb (Z.of_nat (length (vssCommitments pkg)) =? threshold (config session))
  then Throw ("Invalid VSS commitments length: expected "
              +:+ pretty (threshold (config session)) +:+ ", got "
              +:+ pretty (length (vssCommitments pkg))) else
  let updatedPackages := <[idx pkg := pkg]> (round1Packages session) in
  let allReceived :=
    Z.of_nat (size updatedPackages) =? maxSigners (config session) in
  Ok {| config := config session;
        state := if allReceived then round1_complete else state session;
        round1Packages := updatedPackages;
        round2Packages := round2Packages session;
        myRound1Secret := myRound1Secret session;
        keyPackage := keyPackage session |}.

(** *** signing.ts *)

Record ShareWithPubkey : Type := {
  share : SecretShare;
  groupPubkey : string
}.

Definition publicNonceOf (c : CommitmentPackage) : PublicNonce :=
  {| pn_idx := cp_idx c; hidden_pn := cp_hidden_pn c;
     binder_pn := cp_binder_pn c |}.

(** [selectedShares.map((s) => Lib.create_commit_pkg(s.share))]; the
    [i]-th call draws its nonces from [seeds i]. *)
Fixpoint createCommits `{Frost} (seeds : nat -> Seed) (i : nat)
    (selected : list ShareWithPubkey) : result (list CommitmentPackage) :=
  match selected with
  | [] => Ok []
  | s :: rest =>
      c ← create_commit_pkg (seeds i) (share s);
      cs ← createCommits seeds (S i) rest;
      Ok (c :: cs)
  end.

Definition signWithShares `{Frost} (seeds : nat -> Seed)
    (shares : list ShareWithPubkey) (message : string) (threshold : Z)
  : result string :=
  if Z.of_nat (length shares) <? threshold
  then Throw ("Not enough shares: need " +:+ pretty threshold
              +:+ ", got " +:+ pretty (length shares)) else
  let selectedShares := slice0 shares threshold in
  match selectedShares !! 0%nat with
  | None =>
      Throw "TypeError: Cannot read properties of undefined (reading 'groupPubkey')"
  | Some first =>
      let groupPubkey := groupPubkey first in
      commits ← createCommits seeds 0 selectedShares;
      let pnonces := map publicNonceOf commits in
      ctx ← get_group_signing_ctx groupPubkey pnonces message;
      psigs ← mapR (λ s, commit ← get_commit_pkg commits (share s);
                         sign_msg ctx (share s) commit) selectedShares;
      signature ← combine_partial_sigs ctx psigs;
      keyCtx ← get_group_key_context groupPubkey;
      isValid ← verify_final_sig keyCtx message signature;
      if negb isValid then Throw "Signature verification failed"
      else Ok signature
  end.

End Signer.

(** ** @nkg/relay: types.js, nip29.js, relay.js *)

Module Relay.
Import JS Nostr.

Definition CHAT_MESSAGE : Z := 9.
Definition CHAT_REPLY : Z := 10.
Definition TEXT_NOTE : Z := 11.
Definition TEXT_REPLY : Z := 12.
Definition MOD_ADD_USER : Z := 9000.
Definition MOD_REMOVE_USER : Z := 9001.
Definition MOD_EDIT_METADATA : Z := 9002.
Definition MOD_DELETE_EVENT : Z := 9005.
Definition MOD_CREATE_GROUP : Z := 9007.
Definition MOD_DELETE_GROUP : Z := 9008.
Definition JOIN_REQUEST : Z := 9021.
Definition LEAVE_REQUEST : Z := 9022.

(** *** nip29.js *)

Definition isNip29Event (kind : Z) : bool :=
  (kind =? CHAT_MESSAGE) || (kind =? CHAT_REPLY) || (kind =? TEXT_NOTE)
  || (kind =? TEXT_REPLY) || ((9000 <=? kind) && (kind <=? 9022))
  || ((39000 <=? kind) && (kind <=? 39003)).

Definition isModerationEvent (kind : Z) : bool :=
  (9000 <=? kind) && (kind <=? 9020).

Definition isRelayMetadataEvent (kind : Z) : bool :=
  (39000 <=? kind) && (kind <=? 39003).

(** [hTag?.[1] ?? null]; [None] is [null]. *)
Definition getGroupId (ev : Event) : option string :=
  match findTag (tags ev) "h" with
  | Some hTag => hTag !! 1%nat
  | None => None
  end.

Definition getPreviousRefs (ev : Event) : list string :=
  filter (λ ref, String.length ref = 8%nat)
    (concat (map (drop 1)
       (filter (λ t, t !! 0%nat = Some "previous") (tags ev)))).

Record ValidationOptions : Type := {
  requirePreviousRefs : option bool;
  minPreviousRefs : option Z;
  latePublicationWindow : option Z;
  optCurrentTime : option Z
}.

Record Validation : Type := {
  valid : bool;
  error : option string
}.

Definition validateNip29Event `{Tools} (ev : Event)
    (options : ValidationOptions) (now : Z) : Validation :=
  if negb (verifyEvent ev)
  then {| valid := false; error := Some "Invalid signature" |} else
  if negb (truthy_str (getGroupId ev))
  then {| valid := false; error := Some "Missing h tag (group ID)" |} else
  let previousRefs := getPreviousRefs ev in
  let minRefs := default 3 (minPreviousRefs options) in
  if negb (isRelayMetadataEvent (kind ev))
     && default false (requirePreviousRefs options)
     && (Z.of_nat (length previousRefs) <? minRefs)
  then {| valid := false;
          error := Some ("Insufficient previous references: need "
                         +:+ pretty minRefs +:+ ", got "
                         +:+ pretty (length previousRefs)) |} else
  match latePublicationWindow options with
  | Some maxAge =>
      let currentTime := default now (optCurrentTime options) in
      if maxAge <? currentTime - created_at ev
      then {| valid := false; error := Some "Late publication rejected" |}
      else {| valid := true; error := None |}
  | None => {| valid := true; error := None |}
  end.

Record GroupAdmin : Type := {
  admin_pubkey : string;
  label : string;
  permissions : list string
}.

Definition permissionMap (actionKind : Z) : option string :=
  if actionKind =? MOD_ADD_USER then Some "add-user"
  else if actionKind =? MOD_REMOVE_USER then Some "remove-user"
  else if actionKind =? MOD_EDIT_METADATA then Some "edit-metadata"
  else if actionKind =? MOD_DELETE_EVENT then Some "delete-event"
  else if actionKind =? MOD_DELETE_GROUP then Some "delete-group"
  else None.

Definition canPerformModerationAction (admins : list GroupAdmin)
    (pubkey : string) (actionKind : Z) : bool :=
  match List.find (λ a, String.eqb (admin_pubkey a) pubkey) admins with
  | None => false
  | Some admin =>
      match permissionMap actionKind with
      | None => false
      | Some requiredPermission =>
          bool_decide (requiredPermission ∈ permissions admin)
      end
  end.

(** *** relay.js: EventStore *)

(** A [Map] in insertion order: [Map.prototype.set] keeps the position
    of a key that is already present. *)
Fixpoint map_set {V} (k : string) (v : V) (m : list (string * V))
  : list (string * V) :=
  match m with
  | [] => [(k, v)]
  | (k', v') :: rest =>
      if String.eqb k' k then (k, v) :: rest else (k', v') :: map_set k v rest
  end.

Fixpoint map_get {V} (k : string) (m : list (string * V)) : option V :=
  match m with
  | [] => None
  | (k', v') :: rest => if String.eqb k' k then Some v' else map_get k rest
  end.

Definition map_has {V} (k : string) (m : list (string * V)) : bool :=
  bool_decide (is_Some (map_get k m)).

Definition map_delete {V} (k : string) (m : list (string * V))
  : list (string * V) :=
  filter (λ p, p.1 ≠ k) m.

Definition map_keys {V} (m : list (string * V)) : list string := m.*1.

Record EventStore : Type := {
  events : list (string * Event);
  byGroup : gmap string (list string);
  byAuthor : gmap string (list string);
  byKind : gmap Z (list string);
  recentEventPrefixes : list string
}.

Definition emptyEventStore : EventStore :=
  {| events := []; byGroup := ∅; byAuthor := ∅; byKind := ∅;
     recentEventPrefixes := [] |}.

(** [event.id.slice(0, 8)]. *)
Definition idPrefix (eventId : string) : string := substring 0 8 eventId.

(** The prefix window after [add]: the new prefix, then the cut to the
    last 500 entries once more than 1000 are held. *)
Definition addPrefix (prefix : string) (recent : list string) : list string :=
  let recent' := set_add prefix recent in
  if (1000 <? length recent')%nat then slice_last 500 recent' else recent'.

Definition add (st : EventStore) (ev : Event) : EventStore :=
  let groupId := getGroupId ev in
  {| events := map_set (id ev) ev (events st);
     byGroup :=
       if truthy_str groupId
       then Cap.indexAdd (default "" groupId) (id ev) (byGroup st)
       else byGroup st;
     byAuthor := Cap.indexAdd (pubkey ev) (id ev) (byAuthor st);
     byKind := Cap.indexAdd (kind ev) (id ev) (byKind st);
     recentEventPrefixes := addPrefix (idPrefix (id ev)) (recentEventPrefixes st) |}.

Definition get (st : EventStore) (eventId : string) : option Event :=
  map_get eventId (events st).

Definition delete (st : EventStore) (eventId : string) : bool * EventStore :=
  match map_get eventId (events st) with
  | None => (false, st)
  | Some ev =>
      let groupId := getGroupId ev in
      (true,
       {| events := map_delete eventId (events st);
          byGroup :=
            if truthy_str groupId
            then Cap.indexDelete (default "" groupId) eventId (byGroup st)
            else byGroup st;
          byAuthor := Cap.indexDelete (pubkey ev) eventId (byAuthor st);
          byKind := Cap.indexDelete (kind ev) eventId (byKind st);
          recentEventPrefixes := recentEventPrefixes st |})
  end.

Record NostrFilter : Type := {
  ids : option (list string);
  authors : option (list string);
  kinds : option (list Z);
  tag_e : option (list string);
  tag_p : option (list string);
  tag_h : option (list string);
  since : option Z;
  until : option Z;
  limit : option Z
}.

(** [clause && clause.length > 0]: the list of a clause that is present
    and not empty. *)
Definition clause {A} (c : option (list A)) : option (list A) :=
  match c with
  | Some (x :: l) => Some (x :: l)
  | _ => None
  end.

Definition intersection (a b : list string) : list string :=
  filter (λ item, item ∈ b) a.

(** The set a clause collects from an index: for each key of the clause
    in order, every id the index holds under it. *)
Definition collect `{Countable K} (index : gmap K (list string))
    (keys : list K) : list string :=
  foldl (λ acc k,
           match index !! k with
           | Some ids => foldl (λ acc' i, set_add i acc') acc ids
           | None => acc
           end) [] keys.

Definition narrow (candidateIds : option (list string)) (found : list string)
  : option (list string) :=
  match candidateIds with
  | Some c => Some (intersection c found)
  | None => Some found
  end.

(** [event.tags.filter((t) => t[0] === name).map((t) => t[1])]. *)
Definition tagValues (ev : Event) (name : string) : list (option string) :=
  map (λ t, t !! 1%nat) (filter (λ t, t !! 0%nat = Some name) (tags ev)).

Definition matchesFilter (ev : Event) (f : NostrFilter) : bool :=
  if match since f with Some s => created_at ev <? s | None => false end
  then false else
  if match until f with Some u => u <? created_at ev | None => false end
  then false else
  if match clause (tag_e f) with
     | Some es =>
         negb (existsb (λ e, bool_decide (Some e ∈ tagValues ev "e")) es)
     | None => false
     end
  then false else
  if match clause (tag_p f) with
     | Some ps =>
         negb (existsb (λ p, bool_decide (Some p ∈ tagValues ev "p")) ps)
     | None => false
     end
  then false else
  true.

(** A stable sort with the comparator [(a, b) => b.created_at - a.created_at]:
    [x] goes before the first element that is not strictly newer. *)
Fixpoint insertDesc (x : Event) (l : list Event) : list Event :=
  match l with
  | [] => [x]
  | y :: rest =>
      if created_at x <? created_at y then y :: insertDesc x rest
      else x :: y :: rest
  end.

Definition sortDesc (l : list Event) : list Event := foldr insertDesc [] l.

Definition candidates (st : EventStore) (f : NostrFilter) : list string :=
  let c0 : option (list string) := None in
  let c1 :=
    match clause (ids f) with
    | Some l => Some (set_of_list (filter (λ i, map_has i (events st) = true) l))
    | None => c0
    end in
  let c2 :=
    match clause (tag_h f) with
    | Some l => narrow c1 (collect (byGroup st) l)
    | None => c1
    end in
  let c3 :=
    match clause (authors f) with
    | Some l => narrow c2 (collect (byAuthor st) l)
    | None => c2
    end in
  let c4 :=
    match clause (kinds f) with
    | Some l => narrow c3 (collect (byKind st) l)
    | None => c3
    end in
  match c4 with
  | Some c => c
  | None => set_of_list (map_keys (events st))
  end.

(** The events of the candidates that pass [matchesFilter], before the
    sort. *)
Definition matching (st : EventStore) (f : NostrFilter) : list Event :=
  omap (λ i, match map_get i (events st) with
             | Some ev => if matchesFilter ev f then Some ev else None
             | None => None
             end) (candidates st f).

Definition query (st : EventStore) (f : NostrFilter) : list Event :=
  let results := sortDesc (matching st f) in
  match limit f with
  | Some n => if 0 <? n then slice0 results n else results
  | None => results
  end.

Definition hasRecentEventPrefix (st : EventStore) (prefix : string) : bool :=
  bool_decide (prefix ∈ recentEventPrefixes st).

(** *** relay.js: Relay *)

Record GroupMetadata : Type := {
  group_id : string;
  group_name : string;
  visibility : string;
  access : string;
  group_pubkey : string
}.

Record RelayConfig : Type := {
  maxEventSize : Z;
  maxSubscriptions : Z;
  cfgLatePublicationWindow : option Z;
  requireAuth : bool
}.

(** A connected client: [wsOpen] is [ws.readyState === WebSocket.OPEN],
    [subscriptions] the [Map] from subscription id to filters. *)
Record Client : Type := {
  clientId : nat;
  wsOpen : bool;
  subscriptions : list (string * list NostrFilter);
  authedPubkey : option string;
  authChallenge : option string
}.

Inductive RelayMessage : Type :=
| EVENT (subId : string) (ev : Event)
| OK (eventId : string) (accepted : bool) (message : string)
| EOSE (subId : string)
| CLOSED (subId : string) (reason : string)
| NOTICE (text : string)
| AUTH (challenge : string).

(** What the relay writes: the receiving client and the frame. *)
Definition Out : Type := (nat * RelayMessage)%type.

Record RelayState : Type := {
  config : RelayConfig;
  clients : list Client;
  eventStore : EventStore;
  capabilityStore : Cap.CapabilityStore;
  groups : gmap string GroupMetadata;
  admins : gmap string (list GroupAdmin);
  members : gmap string (list (option string))
}.

Definition withEventStore (st : RelayState) (es : EventStore) : RelayState :=
  {| config := config st; clients := clients st; eventStore := es;
     capabilityStore := capabilityStore st; groups := groups st;
     admins := admins st; members := members st |}.

Definition withMembers (st : RelayState)
    (m : gmap string (list (option string))) : RelayState :=
  {| config := config st; clients := clients st; eventStore := eventStore st;
     capabilityStore := capabilityStore st; groups := groups st;
     admins := admins st; members := m |}.

Definition withCapabilityStore (st : RelayState) (cs : Cap.CapabilityStore)
  : RelayState :=
  {| config := config st; clients := clients st; eventStore := eventStore st;
     capabilityStore := cs; groups := groups st;
     admins := admins st; members := members st |}.

Definition send (client : Client) (message : RelayMessage) : list Out :=
  if wsOpen client then [(clientId client, message)] else [].

(** The loop over the filters of one subscription, with its [break]. *)
Fixpoint broadcastToSubscription (es : EventStore) (client : Client)
    (subId : string) (filters : list NostrFilter) (ev : Event) : list Out :=
  match filters with
  | [] => []
  | f :: rest =>
      if existsb (λ e, String.eqb (id e) (id ev)) (query es f)
      then send client (EVENT subId ev)
      else broadcastToSubscription es client subId rest ev
  end.

Definition broadcastEvent (st : RelayState) (ev : Event) : list Out :=
  flat_map (λ client,
    flat_map (λ sub, broadcastToSubscription (eventStore st) client sub.1 sub.2 ev)
             (subscriptions client))
    (clients st).

Definition isGroupCreationEvent (ev : Event) : bool :=
  kind ev =? MOD_CREATE_GROUP.

Definition isMember (st : RelayState) (groupId pubkey : string) : bool :=
  match members st !! groupId with
  | Some s => bool_decide (Some pubkey ∈ s)
  | None => false
  end.

Definition requiredCapability (ev : Event) : option string :=
  if (kind ev =? CHAT_MESSAGE) || (kind ev =? CHAT_REPLY)
     || (kind ev =? TEXT_NOTE) || (kind ev =? TEXT_REPLY)
  then Some "write"
  else if isModerationEvent (kind ev) then Some "delete"
  else None.

(** [Cap.checkAuthorization] is evaluated on capabilities whose
    qualifiers on tags have the declared type (see [JSON_parse]). On a
    stored capability with a qualifier of another shape the call of the
    source throws, before [isMember] is looked at; the model has no such
    path. *)
Definition checkEventAuthorization (st : RelayState) (client : Client)
    (ev : Event) (groupId : string) (now : Z) : bool * list Out :=
  if kind ev =? JOIN_REQUEST then (true, []) else
  let isMember := isMember st groupId (pubkey ev) in
  let capabilities :=
    Cap.getCapabilitiesForHolder (capabilityStore st) (pubkey ev) now in
  match requiredCapability ev with
  | Some required =>
      let authResult :=
        Cap.checkAuthorization capabilities (pubkey ev) required
          {| Cap.eventKind := Some (kind ev);
             Cap.eventTags := Some (tags ev);
             Cap.ctxTime := None |} now in
      if negb (Cap.authorized authResult) && negb isMember
      then (false, send client (OK (id ev) false "restricted: not authorized"))
      else (true, [])
  | None => (true, [])
  end.

(** The state change of a moderation event, by kind. *)
Definition applyModeration (st : RelayState) (ev : Event) (groupId : string)
  : RelayState :=
  if kind ev =? MOD_ADD_USER then
    let targets := tagValues ev "p" in
    let memberSet := default [] (members st !! groupId) in
    withMembers st
      (<[groupId := foldl (λ s t, set_add t s) memberSet targets]> (members st))
  else if kind ev =? MOD_REMOVE_USER then
    let targets := tagValues ev "p" in
    match members st !! groupId with
    | Some memberSet =>
        withMembers st
          (<[groupId := foldl (λ s t, set_delete t s) memberSet targets]>
             (members st))
    | None => st
    end
  else if kind ev =? MOD_DELETE_EVENT then
    let eventIds := tagValues ev "e" in
    withEventStore st
      (foldl (λ es eventId,
                match eventId with
                | Some i => (delete es i).2
                | None => es
                end) (eventStore st) eventIds)
  else st.

Definition handleModerationEvent (st : RelayState) (client : Client)
    (ev : Event) (groupId : string) : RelayState * list Out :=
  let groupAdmins := default [] (admins st !! groupId) in
  if negb (canPerformModerationAction groupAdmins (pubkey ev) (kind ev))
  then (st, send client (OK (id ev) false "restricted: not admin")) else
  let st1 := applyModeration st ev groupId in
  let st2 := withEventStore st1 (add (eventStore st1) ev) in
  (st2, send client (OK (id ev) true "") ++ broadcastEvent st2 ev)%list.

Definition handleJoinRequest (st : RelayState) (client : Client)
    (ev : Event) (groupId : string) : RelayState * list Out :=
  match groups st !! groupId with
  | None => (st, send client (OK (id ev) false "invalid: group not found"))
  | Some group =>
      let st1 :=
        if String.eqb (access group) "open" then
          let memberSet := default [] (members st !! groupId) in
          withMembers st
            (<[groupId := set_add (Some (pubkey ev)) memberSet]> (members st))
        else st in
      let st2 := withEventStore st1 (add (eventStore st1) ev) in
      (st2, send client (OK (id ev) true ""))
  end.

Definition handleLeaveRequest (st : RelayState) (client : Client)
    (ev : Event) (groupId : string) : RelayState * list Out :=
  let st1 :=
    match members st !! groupId with
    | Some memberSet =>
        withMembers st
          (<[groupId := set_delete (Some (pubkey ev)) memberSet]> (members st))
    | None => st
    end in
  let st2 := withEventStore st1 (add (eventStore st1) ev) in
  (st2, send client (OK (id ev) true "")).

Definition validationOptions (st : RelayState) (ev : Event)
  : ValidationOptions :=
  {| requirePreviousRefs :=
       Some (negb (isRelayMetadataEvent (kind ev))
             && negb (isModerationEvent (kind ev)));
     minPreviousRefs := Some 0;
     latePublicationWindow := cfgLatePublicationWindow (config st);
     optCurrentTime := None |}.

Definition handleNip29Event `{Tools} (st : RelayState) (client : Client)
    (ev : Event) (now : Z) : RelayState * list Out :=
  let groupId := getGroupId ev in
  if negb (truthy_str groupId)
  then (st, send client (OK (id ev) false "invalid: missing h tag")) else
  let groupId := default "" groupId in
  let group := groups st !! groupId in
  if negb (bool_decide (is_Some group)) && negb (isGroupCreationEvent ev)
  then (st, send client (OK (id ev) false "invalid: group not found")) else
  let validation := validateNip29Event ev (validationOptions st ev) now in
  if negb (valid validation)
  then (st, send client
              (OK (id ev) false
                  ("invalid: " +:+ default "undefined" (error validation)))) else
  let auth := checkEventAuthorization st client ev groupId now in
  if negb auth.1 then (st, auth.2) else
  if isModerationEvent (kind ev)
  then handleModerationEvent st client ev groupId else
  if kind ev =? JOIN_REQUEST then handleJoinRequest st client ev groupId else
  if kind ev =? LEAVE_REQUEST then handleLeaveRequest st client ev groupId else
  let st' := withEventStore st (add (eventStore st) ev) in
  (st', send client (OK (id ev) true "") ++ broadcastEvent st' ev)%list.

Definition handleCapabilityEvent `{Tools} (st : RelayState) (client : Client)
    (ev : Event) (now : Z) : RelayState * list Out :=
  let groupId := getGroupId ev in
  if negb (truthy_str groupId)
  then (st, send client (OK (id ev) false "invalid: missing h tag")) else
  let groupId := default "" groupId in
  match groups st !! groupId with
  | None => (st, send client (OK (id ev) false "invalid: group not found"))
  | Some group =>
      if negb (String.eqb (pubkey ev) (group_pubkey group))
      then (st, send client (OK (id ev) false "restricted: not group key")) else
      let stored (st1 : RelayState) :=
        let st2 := withEventStore st1 (add (eventStore st1) ev) in
        (st2, send client (OK (id ev) true "") ++ broadcastEvent st2 ev)%list in
      if kind ev =? 29000 then
        let r := Cap.addCapability (capabilityStore st) ev (group_pubkey group) now in
        if negb (Cap.valid r.1)
        then (st, send client
                    (OK (id ev) false
                        ("invalid: " +:+ default "undefined" (Cap.error r.1))))
        else stored (withCapabilityStore st r.2)
      else if kind ev =? 29001 then
        stored (withCapabilityStore st
                  (Cap.addRevocation (capabilityStore st) ev (group_pubkey group)).2)
      else stored st
  end.

Definition handleEvent `{Tools} (st : RelayState) (client : Client)
    (ev : Event) (now : Z) : RelayState * list Out :=
  if requireAuth (config st) && negb (truthy_str (authedPubkey client))
  then (st, send client
              (OK (id ev) false "auth-required: please authenticate")) else
  if negb (verifyEvent ev)
  then (st, send client (OK (id ev) false "invalid: bad signature")) else
  if maxEventSize (config st) <? JSON_stringify_length ev
  then (st, send client (OK (id ev) false "invalid: event too large")) else
  if isNip29Event (kind ev) then handleNip29Event st client ev now else
  if (29000 <=? kind ev) && (kind ev <=? 29002)
  then handleCapabilityEvent st client ev now else
  (st, send client (OK (id ev) false "blocked: only NIP-29 events accepted")).

End Relay.

(** * Specification-side definitions *)

(** ** Capability model *)

Module CapSpec.
Import JS Nostr Cap.

(** The pair [(name, value)] occurs among the tags of the event. *)
Definition present (eventTags : list (list string)) (p : string * string)
  : Prop :=
  ∃ t, t ∈ eventTags ∧ t !! 0%nat = Some p.1 ∧ t !! 1%nat = Some p.2.

(** [r] is the decision of the first element of [C] that satisfies [P],
    or the denial when no element does. *)
Definition firstMatch (P : Capability -> Prop) (C : list Capability)
    (r : AuthResult) : Prop :=
  (∃ l1 c l2, C = (l1 ++ c :: l2)%list ∧ (∀ x, x ∈ l1 -> ¬ P x) ∧ P c
              ∧ authorized r = true ∧ witness r = Some c)
  ∨ ((∀ x, x ∈ C -> ¬ P x) ∧ authorized r = false ∧ witness r = None).

(** The six steps as the specification words them: an expiry that is set
    must lie in the future, and the tag conditions bind whenever the
    qualifier is set (an event without tags carries no pair). *)
Definition claimedMatch (h a : string) (now : Z) (ctx : AuthContext)
    (c : Capability) : Prop :=
  holder c = h ∧ type c = a
  ∧ (∀ e, expiresAt c = Some e -> ∃ t, e = Num t ∧ now < t)
  ∧ (∀ ks k, qkinds c = Some ks -> eventKind ctx = Some k -> k ∈ ks)
  ∧ (∀ req, qrequiredTags c = Some req ->
       ∀ p, p ∈ req -> present (default [] (eventTags ctx)) p)
  ∧ (∀ exc, qexcludedTags c = Some exc ->
       ∀ p, p ∈ exc -> ¬ present (default [] (eventTags ctx)) p).

(** The six steps as the code takes them: only a non-zero expiry counts,
    and the tag conditions bind only when the event's tags are given. *)
Definition designMatch (h a : string) (now : Z) (ctx : AuthContext)
    (c : Capability) : Prop :=
  holder c = h ∧ type c = a
  ∧ (∀ t, expiresAt c = Some (Num t) -> t ≠ 0 -> now < t)
  ∧ (∀ ks k, qkinds c = Some ks -> eventKind ctx = Some k -> k ∈ ks)
  ∧ (∀ req evTags, qrequiredTags c = Some req -> eventTags ctx = Some evTags ->
       ∀ p, p ∈ req -> present evTags p)
  ∧ (∀ exc evTags, qexcludedTags c = Some exc -> eventTags ctx = Some evTags ->
       ∀ p, p ∈ exc -> ¬ present evTags p).

(** When the original restricts the kinds, the delegated capability
    restricts them too, to a subset. *)
Definition kindsSubset (o d : Capability) : Prop :=
  ∀ ok, qkinds o = Some ok ->
    ∃ dk, qkinds d = Some dk ∧ ∀ k, k ∈ dk -> k ∈ ok.

(** When the original has [expiresAt], the delegated capability has one
    that is not later. *)
Definition claimedExpiry (o d : Capability) : Prop :=
  ∀ eo, expiresAt o = Some eo ->
    ∃ x y, eo = Num x ∧ expiresAt d = Some (Num y) ∧ y <= x.

(** The same for an original whose [expiresAt] is a non-zero number. *)
Definition designExpiry (o d : Capability) : Prop :=
  ∀ x, expiresAt o = Some (Num x) -> x ≠ 0 ->
    ∃ y, expiresAt d = Some (Num y) ∧ y ≠ 0 ∧ y <= x.

(** What a valid result of [validateDelegatedCapability] is claimed to
    guarantee for the delegation [d] of the grant [o], with the notion of
    expiry left open. *)
Definition delegationGuarantee `{Tools}
    (expiry : Capability -> Capability -> Prop) (d o : Event) (g : string)
    (ctx : ValidationContext) : Prop :=
  ∃ oc dc,
    capability <$> parseCapabilityGrantEvent o = Some oc
    ∧ vcapability (validateDelegatedCapability d o g ctx) = Some dc
    ∧ type oc = "delegate"
    ∧ pubkey d = holder oc
    ∧ kindsSubset oc dc
    ∧ expiry oc dc
    ∧ issuer dc = issuer oc.

(** The first entry of a holder's list that passes the loop body of
    [checkAuthorization]: the grant that authorizes. *)
Definition authorizingEntry (entries : list (string * Capability))
    (pubkey action : string) (context : AuthContext) (now : Z)
  : option (string * Capability) :=
  List.find (λ p, loopBody p.2 pubkey action context
                    (default now (ctxTime context))) entries.

(** The ids a holder is indexed under, [[]] when the holder has no set. *)
Definition holderIds (st : CapabilityStore) (h : string) : list string :=
  default [] (byHolder st !! h).

(** What one iteration of the loop of [getCapabilitiesForHolder] pushes
    for the id [eventId], next to that id. *)
Definition entryOf (st : CapabilityStore) (now : Z) (eventId : string)
  : option (string * Capability) :=
  match capabilities st !! eventId with
  | Some capEvent =>
      if negb (isCapabilityExpired (capability capEvent) now)
      then Some (eventId, capability capEvent) else None
  | None => None
  end.

(** [s1] is [s0] seen through the revocation of [e]: [e] is revoked and
    gone from the stored capabilities, everything else is as in [s0]. *)
Definition revokedView (e : string) (s1 s0 : CapabilityStore) : Prop :=
  revokedIds s1 = {[ e ]} ∪ revokedIds s0
  ∧ capabilities s1 = delete e (capabilities s0)
  ∧ ∀ h, filter (λ i, i ≠ e) (holderIds s1 h)
         = filter (λ i, i ≠ e) (holderIds s0 h).

End CapSpec.

(** ** Threshold signer *)

Module SignerSpec.
Import JS Signer.

(** The order of the secp256k1 group, the constant [CURVE_ORDER] of
    dkg.ts. *)
Definition CURVE_ORDER : Z :=
  0xFFFFFFFFFFFFFFFFFFFFFFFFFFFFFFFEBAAEDCE6AF48A03BBFD25E8CD0364141.

(** The integer a byte string denotes, most significant byte first. *)
Definition bigEndian (bytes : list Byte.byte) : Z :=
  foldl (λ acc b, 256 * acc + Z.of_N (Byte.to_N b)) 0 bytes.

(** A secret scalar as the data model defines it. *)
Definition validScalar (c : Z) : Prop := 0 < c < CURVE_ORDER.

(** What [generateRound1Package] leaves to @cmdcode/frost:
    [get_share_commits] multiplies the generator by each coefficient and
    throws a [RangeError] for a coefficient that is zero or not below the
    curve order, so where it returns every coefficient is a valid
    scalar. *)
Definition scalarsChecked `{Frost} : Prop :=
  ∀ cs commits, get_share_commits cs = Ok commits -> Forall validScalar cs.

(** Round 1 as the specification words it: whatever is sampled, the
    coefficients the session keeps are valid scalars. *)
Definition claimedRound1 `{Frost} (random_bytes : nat -> list Byte.byte)
    (session : DKGSession) : Prop :=
  ∀ pkg session' cs,
    generateRound1Package random_bytes session = Ok (pkg, session') ->
    myRound1Secret session' = Some cs ->
    ∀ c, c ∈ cs -> validScalar c.

(** The four rejections of [ingest_round1] as the specification lists
    them. *)
Definition claimedRejected (session : DKGSession) (pkg : DKGRound1Package)
  : Prop :=
  idx pkg = myIndex (config session)
  ∨ idx pkg < 1 ∨ maxSigners (config session) < idx pkg
  ∨ Z.of_nat (length (vssCommitments pkg)) ≠ threshold (config session)
  ∨ (∃ old, round1Packages session !! idx pkg = Some old
            ∧ vssCommitments old ≠ vssCommitments pkg).

(** The rejections the code makes. *)
Definition designRejected (session : DKGSession) (pkg : DKGRound1Package)
  : Prop :=
  (state session ≠ initialized ∧ state session ≠ round1_complete)
  ∨ idx pkg = myIndex (config session)
  ∨ idx pkg < 1 ∨ maxSigners (config session) < idx pkg
  ∨ Z.of_nat (length (vssCommitments pkg)) ≠ threshold (config session).

Definition throws {A} (r : result A) : Prop := ∃ msg, r = Throw msg.

End SignerSpec.

(** ** Relay *)

Module RelaySpec.
Import JS Nostr Relay.

(** [y] is not newer than [x]. *)
Definition notNewer (x y : Event) : Prop := created_at y <= created_at x.

(** Newest first: every event is followed only by events that are not
    newer. *)
Definition sortedDesc (l : list Event) : Prop := StronglySorted notNewer l.

(** The filter without its limit. *)
Definition unlimited (f : NostrFilter) : NostrFilter :=
  {| ids := ids f; authors := authors f; kinds := kinds f;
     tag_e := tag_e f; tag_p := tag_p f; tag_h := tag_h f;
     since := since f; until := until f; limit := None |}.

(** The calls that change an event store. *)
Inductive EventStoreOp : Type :=
| OpAdd (ev : Event)
| OpDelete (eventId : string).

Definition stepEventStore (st : EventStore) (op : EventStoreOp) : EventStore :=
  match op with
  | OpAdd ev => add st ev
  | OpDelete eventId => (delete st eventId).2
  end.

Definition runEventStore (ops : list EventStoreOp) : EventStore :=
  foldl stepEventStore emptyEventStore ops.

Definition addedEvents (ops : list EventStoreOp) : list Event :=
  omap (λ op, match op with OpAdd ev => Some ev | OpDelete _ => None end) ops.

(** An id is the hash of the signed fields of its event, which
    [verifyEvent] checks before the relay stores anything: events with
    one id have one author, one kind and one group. *)
Definition consistentIds (evs : list Event) : Prop :=
  ∀ x y, x ∈ evs -> y ∈ evs -> id x = id y ->
         pubkey x = pubkey y ∧ kind x = kind y ∧ getGroupId x = getGroupId y.

(** The group of an event: the value of its first [h] tag, when that is
    not empty. *)
Definition groupOf (ev : Event) : option string :=
  if truthy_str (getGroupId ev) then getGroupId ev else None.

(** The event satisfies every clause of the filter that is present and
    not empty, each tag clause read in the same way: some tag of that
    name carries one of the listed values. *)
Definition satisfies (ev : Event) (f : NostrFilter) : Prop :=
  (∀ l, clause (ids f) = Some l -> id ev ∈ l)
  ∧ (∀ l, clause (authors f) = Some l -> pubkey ev ∈ l)
  ∧ (∀ l, clause (kinds f) = Some l -> kind ev ∈ l)
  ∧ (∀ l, clause (tag_e f) = Some l -> ∃ e, e ∈ l ∧ Some e ∈ tagValues ev "e")
  ∧ (∀ l, clause (tag_p f) = Some l -> ∃ p, p ∈ l ∧ Some p ∈ tagValues ev "p")
  ∧ (∀ l, clause (tag_h f) = Some l -> ∃ g, g ∈ l ∧ Some g ∈ tagValues ev "h")
  ∧ (∀ s, since f = Some s -> s <= created_at ev)
  ∧ (∀ u, until f = Some u -> created_at ev <= u).

(** The same with the [#h] clause read on the group of the event alone,
    the non-empty value of its first [h] tag: further [h] tags do not
    count. *)
Definition satisfiesByGroup (ev : Event) (f : NostrFilter) : Prop :=
  (∀ l, clause (ids f) = Some l -> id ev ∈ l)
  ∧ (∀ l, clause (authors f) = Some l -> pubkey ev ∈ l)
  ∧ (∀ l, clause (kinds f) = Some l -> kind ev ∈ l)
  ∧ (∀ l, clause (tag_e f) = Some l -> ∃ e, e ∈ l ∧ Some e ∈ tagValues ev "e")
  ∧ (∀ l, clause (tag_p f) = Some l -> ∃ p, p ∈ l ∧ Some p ∈ tagValues ev "p")
  ∧ (∀ l, clause (tag_h f) = Some l -> ∃ g, g ∈ l ∧ groupOf ev = Some g)
  ∧ (∀ s, since f = Some s -> s <= created_at ev)
  ∧ (∀ u, until f = Some u -> created_at ev <= u).

(** Filter correctness as the specification words it, for a store and a
    filter: the events of the result are the stored events that satisfy
    the filter. *)
Definition claimedFilterCorrectness (st : EventStore) (f : NostrFilter) : Prop :=
  ∀ ev, ev ∈ query st f <-> get st (id ev) = Some ev ∧ satisfies ev f.

(** The id [i] is held by the index under the key [k]. *)
Definition indexed `{Countable K} (index : gmap K (list string)) (k : K)
    (i : string) : Prop :=
  i ∈ default [] (index !! k).

(** The indexes agree with the stored events: a stored event is indexed
    under its own author, kind and group, and whatever an index holds
    comes from an event of [univ] with that id and key. *)
Definition storeInv (univ : list Event) (st : EventStore) : Prop :=
  (∀ i ev, map_get i (events st) = Some ev ->
     id ev = i ∧ ev ∈ univ
     ∧ indexed (byAuthor st) (pubkey ev) i
     ∧ indexed (byKind st) (kind ev) i
     ∧ ∀ g, groupOf ev = Some g -> indexed (byGroup st) g i)
  ∧ (∀ a i, indexed (byAuthor st) a i ->
       ∃ ev, ev ∈ univ ∧ id ev = i ∧ pubkey ev = a)
  ∧ (∀ k i, indexed (byKind st) k i ->
       ∃ ev, ev ∈ univ ∧ id ev = i ∧ kind ev = k)
  ∧ (∀ g i, indexed (byGroup st) g i ->
       ∃ ev, ev ∈ univ ∧ id ev = i ∧ groupOf ev = Some g).


(** The prefix window after a sequence of [add] calls on a new store. *)
Definition afterAdds (evs : list Event) : EventStore :=
  foldl add emptyEventStore evs.

End RelaySpec.

(** ** Concrete inputs *)

Module Examples.
Import JS Nostr Cap.

(** A library that accepts every signature and parses no JSON. *)
Definition trusting : Tools :=
  {| verifyEvent := λ _, true;
     JSON_parse := λ _, None;
     JSON_stringify_length := λ _, 0 |}.

Definition plainCap (ty h : string) : Capability :=
  {| type := ty; holder := h; issuer := "group"; qualifiers := None;
     issuedAt := 0; expiresAt := None; delegationChain := None |}.

(** A write capability that requires the tag [h = g1]. *)
Definition taggedCap : Capability :=
  {| type := "write"; holder := "alice"; issuer := "group";
     qualifiers :=
       Some {| kinds := None; requiredTags := Some [("h", "g1")];
               excludedTags := None; rateLimit := None |};
     issuedAt := 0; expiresAt := None; delegationChain := None |}.

(** A write capability whose expiry is the number zero. *)
Definition epochCap : Capability :=
  {| type := "write"; holder := "alice"; issuer := "group";
     qualifiers := None;
     issuedAt := 0; expiresAt := Some (Num 0); delegationChain := None |}.

Definition mkEvent (i pk : string) (k : Z) (tgs : list (list string)) : Event :=
  {| id := i; pubkey := pk; created_at := 0; kind := k; tags := tgs;
     content := ""; sig := "" |}.

Definition ctxAt (now : Z) : ValidationContext :=
  {| currentTime := now; revokedEventIds := ∅; verifySignature := None |}.

(** A delegate grant to bob whose expiration tag reads 0, and bob's
    delegation to carol without expiration. *)
Definition grantEpoch : Event :=
  mkEvent "o1" "group" 29000
    [["p"; "bob"]; ["capability"; "delegate"]; ["expiration"; "0"]].
Definition delegationOpen : Event :=
  mkEvent "d1" "bob" 29002 [["e"; "o1"]; ["p"; "carol"]; ["capability"; "write"]].

(** A delegate grant for kinds 9 and 10 until 200, and a delegation of
    kind 9 until 150. *)
Definition grantBounded : Event :=
  mkEvent "o2" "group" 29000
    [["p"; "bob"]; ["capability"; "delegate"]; ["kinds"; "9"; "10"];
     ["expiration"; "200"]].
Definition delegationBounded : Event :=
  mkEvent "d2" "bob" 29002
    [["e"; "o2"]; ["p"; "carol"]; ["capability"; "write"]; ["kinds"; "9"];
     ["expiration"; "150"]].

(** A write grant to alice, its revocation, and a second grant. *)
Definition grantAlice : Event :=
  mkEvent "e1" "group" 29000 [["p"; "alice"]; ["capability"; "write"]].
Definition revokeAlice : Event := mkEvent "r1" "group" 29001 [["e"; "e1"]].
Definition grantAlice2 : Event :=
  mkEvent "e2" "group" 29000 [["p"; "alice"]; ["capability"; "write"]].
Definition storeWithAlice : CapabilityStore :=
  (addCapability (H := trusting) emptyStore grantAlice "group" 10).2.
Definition anyContext : AuthContext :=
  {| eventKind := None; eventTags := None; ctxTime := None |}.

(** The context of a kind-9 event whose tags are not passed. *)
Definition kindOnly : AuthContext :=
  {| eventKind := Some 9; eventTags := None; ctxTime := Some 100 |}.

(** A frost library that checks the coefficients as @cmdcode/frost
    does, refusing zero and values from the curve order upwards, and
    answers with placeholder commitments; the signing functions are not
    reached by the inputs below. *)
Definition checkingFrost : Signer.Frost :=
  {| Signer.Seed := unit;
     Signer.GroupSigningCtx := unit;
     Signer.GroupKeyCtx := unit;
     Signer.get_share_commits :=
       λ cs, if forallb (λ c, (0 <? c) && (c <? SignerSpec.CURVE_ORDER)) cs
             then Signer.Ok (map (λ _, "02") cs)
             else Signer.Throw "RangeError: scalar out of range";
     Signer.create_commit_pkg := λ _ _, Signer.Throw "unavailable";
     Signer.get_group_signing_ctx := λ _ _ _, Signer.Throw "unavailable";
     Signer.get_commit_pkg := λ _ _, Signer.Throw "unavailable";
     Signer.sign_msg := λ _ _ _, Signer.Throw "unavailable";
     Signer.combine_partial_sigs := λ _ _, Signer.Throw "unavailable";
     Signer.get_group_key_context := λ _, Signer.Throw "unavailable";
     Signer.verify_final_sig := λ _ _ _, Signer.Throw "unavailable" |}.

Definition twoShares : list Signer.ShareWithPubkey :=
  [ {| Signer.share := {| Signer.share_idx := 1; Signer.seckey := "01" |};
       Signer.groupPubkey := "02aa" |};
    {| Signer.share := {| Signer.share_idx := 2; Signer.seckey := "02" |};
       Signer.groupPubkey := "02aa" |} ].

(** A 2-of-3 session of participant 1, freshly created. *)
Definition config23 : Signer.DKGConfig :=
  {| Signer.sessionId := "s"; Signer.threshold := 2; Signer.maxSigners := 3;
     Signer.participants := ["pk1"; "pk2"; "pk3"];
     Signer.myIndex := 1; Signer.mySecretKey := "sk1" |}.

Definition session23 : Signer.DKGSession :=
  {| Signer.config := config23; Signer.state := Signer.initialized;
     Signer.round1Packages := ∅; Signer.round2Packages := ∅;
     Signer.myRound1Secret := None; Signer.keyPackage := None |}.

Definition packageOf (i : Z) (cs : list string) : Signer.DKGRound1Package :=
  {| Signer.idx := i; Signer.vssCommitments := cs;
     Signer.proofOfKnowledge := None |}.

(** The session after the package of participant 2 has been ingested. *)
Definition session23with2 : Signer.DKGSession :=
  {| Signer.config := config23; Signer.state := Signer.initialized;
     Signer.round1Packages := {[ 2 := packageOf 2 ["a1"; "a2"] ]};
     Signer.round2Packages := ∅;
     Signer.myRound1Secret := None; Signer.keyPackage := None |}.

(** Every call of the random source returns 32 zero bytes. *)
Definition zeroBytes (i : nat) : list Byte.byte := replicate 32 Byte.x00.

(** Call [i] of the random source returns 31 zero bytes and the byte
    [i + 1]. *)
Definition countingBytes (i : nat) : list Byte.byte :=
  (replicate 31 Byte.x00
   ++ [default Byte.x01 (Byte.of_N (N.of_nat (S i)))])%list.

(** [digits] lower-case hexadecimal digits of [n], least significant
    last. *)
Fixpoint hexOfN (digits : nat) (n : N) : string :=
  match digits with
  | O => ""
  | S d => hexOfN d (n / 16) +:+ String (Signer.hexDigit (n mod 16)) ""
  end.

(** Event number [n] of a group: a 64-digit id whose first eight digits
    spell [n]. *)
Definition eventNo (n : nat) : Event :=
  mkEvent (hexOfN 8 (N.of_nat n) +:+ hexOfN 56 0) "author" 9 [["h"; "g1"]].

(** 1001 events with pairwise distinct id prefixes, oldest first. *)
Definition events1001 : list Event := map eventNo (seq 0 1001).

(** A store with three events created at times 1, 3 and 2, and the
    filter that asks for two events. *)
Definition eventAt (i : string) (t : Z) : Event :=
  {| id := i; pubkey := "author"; created_at := t; kind := 9;
     tags := [["h"; "g1"]]; content := ""; sig := "" |}.
Definition store3 : Relay.EventStore :=
  foldl Relay.add Relay.emptyEventStore
    [eventAt "aa" 1; eventAt "bb" 3; eventAt "cc" 2].
Definition anyFilter (lim : option Z) : Relay.NostrFilter :=
  {| Relay.ids := None; Relay.authors := None; Relay.kinds := None;
     Relay.tag_e := None; Relay.tag_p := None; Relay.tag_h := None;
     Relay.since := None; Relay.until := None; Relay.limit := lim |}.

(** An event with two [h] tags, and the filter that asks for the group
    of the second. *)
Definition twoGroupsEvent : Event :=
  {| id := "dd"; pubkey := "author"; created_at := 4; kind := 9;
     tags := [["h"; "g1"]; ["h"; "g2"]]; content := ""; sig := "" |}.
Definition groupFilter (g : string) : Relay.NostrFilter :=
  {| Relay.ids := None; Relay.authors := None; Relay.kinds := None;
     Relay.tag_e := None; Relay.tag_p := None; Relay.tag_h := Some [g];
     Relay.since := None; Relay.until := None; Relay.limit := None |}.

Definition sinceFilter (t : Z) : Relay.NostrFilter :=
  {| Relay.ids := None; Relay.authors := None; Relay.kinds := None;
     Relay.tag_e := None; Relay.tag_p := None; Relay.tag_h := None;
     Relay.since := Some t; Relay.until := None; Relay.limit := None |}.

(** A relay with the group g1, its member alice, a chat message of
    alice already stored, and two open clients: alice's connection and a
    subscriber to everything. *)
Definition chatEvent : Event :=
  {| id := hexOfN 8 1 +:+ hexOfN 56 0; pubkey := "alice"; created_at := 100;
     kind := 9; tags := [["h"; "g1"]]; content := "hello"; sig := "" |}.

Definition submitter : Relay.Client :=
  {| Relay.clientId := 0; Relay.wsOpen := true; Relay.subscriptions := [];
     Relay.authedPubkey := None; Relay.authChallenge := None |}.

Definition subscriber : Relay.Client :=
  {| Relay.clientId := 1; Relay.wsOpen := true;
     Relay.subscriptions := [("sub1", [anyFilter None])];
     Relay.authedPubkey := None; Relay.authChallenge := None |}.

Definition relayWithChat : Relay.RelayState :=
  {| Relay.config :=
       {| Relay.maxEventSize := 65536; Relay.maxSubscriptions := 20;
          Relay.cfgLatePublicationWindow := Some 3600;
          Relay.requireAuth := false |};
     Relay.clients := [submitter; subscriber];
     Relay.eventStore := RelaySpec.runEventStore [RelaySpec.OpAdd chatEvent];
     Relay.capabilityStore := emptyStore;
     Relay.groups :=
       {[ "g1" := {| Relay.group_id := "g1"; Relay.group_name := "group one";
                     Relay.visibility := "public"; Relay.access := "open";
                     Relay.group_pubkey := "group" |} ]};
     Relay.admins := ∅;
     Relay.members := {[ "g1" := [Some "alice"] ]} |}.

End Examples.
(** * The rest of the packages *)

(** ** @nkg/cap: event creation and the remaining store methods *)

Module CapIssue.
Import JS Nostr Cap.

(** An event template, before [finalizeEvent] adds [id], [pubkey] and
    [sig]. *)
Record UnsignedEvent : Type := {
  ukind : Z;
  upubkey : string;
  ucreated_at : Z;
  utags : list (list string);
  ucontent : string
}.

(** [JSON.stringify] on a value of type [[string, string][]]. *)
Class Json : Type := {
  JSON_stringify : list (string * string) -> string
}.

(** The [options] of [createCapabilityGrantEvent]; a timestamp is an
    integer number of seconds. *)
Record GrantOptions : Type := {
  opt_qualifiers : option CapabilityQualifier;
  opt_expiresAt : option Z;
  opt_groupId : option string
}.

(** The tag each qualifier pushes, or none. [String(n)] on an integer is
    its decimal notation, [pretty n]. *)
Definition kindsTag (q : CapabilityQualifier) : list (list string) :=
  match kinds q with
  | Some (k :: ks) => [KINDS :: map pretty (k :: ks)]
  | _ => []
  end.

Definition requiredTagsTag `{Json} (q : CapabilityQualifier)
  : list (list string) :=
  match requiredTags q with
  | Some (p :: ps) => [[REQUIRED_TAGS; JSON_stringify (p :: ps)]]
  | _ => []
  end.

Definition excludedTagsTag `{Json} (q : CapabilityQualifier)
  : list (list string) :=
  match excludedTags q with
  | Some (p :: ps) => [[EXCLUDED_TAGS; JSON_stringify (p :: ps)]]
  | _ => []
  end.

Definition rateLimitTag (q : CapabilityQualifier) : list (list string) :=
  match rateLimit q with
  | Some (count, periodSeconds) =>
      [[RATE_LIMIT; pretty count; pretty periodSeconds]]
  | None => []
  end.

(** The block [if (options?.qualifiers) { ... }]. *)
Definition qualifierTags `{Json} (qualifiers : option CapabilityQualifier)
  : list (list string) :=
  match qualifiers with
  | Some q =>
      (kindsTag q ++ requiredTagsTag q ++ excludedTagsTag q ++ rateLimitTag q)%list
  | None => []
  end.

(** [if (options?.expiresAt) tags.push(["expiration", String(...)])]. *)
Definition expirationTag (expiresAt : option Z) : list (list string) :=
  match expiresAt with
  | Some e => if negb (e =? 0) then [[EXPIRATION; pretty e]] else []
  | None => []
  end.

Definition groupTag (groupId : option string) : list (list string) :=
  match groupId with
  | Some g => if truthy_str (Some g) then [[GROUP; g]] else []
  | None => []
  end.

Definition createCapabilityGrantEvent `{Json} (holder type groupPubkey : string)
    (options : option GrantOptions) (now : Z) : UnsignedEvent :=
  let tags :=
    ([[HOLDER; holder]; [TYPE; type]]
     ++ qualifierTags (options ≫= opt_qualifiers)
     ++ expirationTag (options ≫= opt_expiresAt)
     ++ groupTag (options ≫= opt_groupId))%list in
  {| ukind := GRANT; upubkey := groupPubkey; ucreated_at := now;
     utags := tags; ucontent := "" |}.

Definition createCapabilityRevocationEvent (eventIdToRevoke groupPubkey : string)
    (reason : option string) (now : Z) : UnsignedEvent :=
  let tags := [[REFERENCE; eventIdToRevoke]] in
  {| ukind := REVOKE; upubkey := groupPubkey; ucreated_at := now;
     utags := tags; ucontent := default "" reason |}.

(** The [options] of [createCapabilityDelegationEvent]. *)
Record DelegationOptions : Type := {
  dopt_qualifiers : option CapabilityQualifier;
  dopt_expiresAt : option Z
}.

Definition createCapabilityDelegationEvent `{Json}
    (originalCapabilityEventId newHolder delegatorPubkey type : string)
    (options : option DelegationOptions) (now : Z) : UnsignedEvent :=
  let tags :=
    ([[REFERENCE; originalCapabilityEventId]; [HOLDER; newHolder]; [TYPE; type]]
     ++ qualifierTags (options ≫= dopt_qualifiers)
     ++ expirationTag (options ≫= dopt_expiresAt))%list in
  {| ukind := DELEGATE; upubkey := delegatorPubkey; ucreated_at := now;
     utags := tags; ucontent := "" |}.

(** *** CapabilityStore, continued *)

Definition getCapabilitiesForIssuer (st : CapabilityStore) (i : string)
    (now : Z) : list Capability :=
  match byIssuer st !! i with
  | None => []
  | Some eventIds =>
      omap (λ eventId,
              match capabilities st !! eventId with
              | Some capEvent =>
                  if negb (isCapabilityExpired (capability capEvent) now)
                  then Some (capability capEvent) else None
              | None => None
              end) eventIds
  end.

(** [new Set(this.revokedIds)]. *)
Definition getRevokedIds (st : CapabilityStore) : gset string := revokedIds st.

Definition clear (st : CapabilityStore) : CapabilityStore :=
  {| capabilities := ∅; revokedIds := ∅; byHolder := ∅; byIssuer := ∅ |}.

End CapIssue.

(** ** Specification-side definitions for the capability package *)

Module CapIssueSpec.
Import JS Nostr Cap CapIssue.

(** What [finalizeEvent] of nostr-tools keeps of a template: it sets
    [pubkey] from the secret key, then [id] and [sig]. *)
Definition finalized (u : UnsignedEvent) (ev : Event) : Prop :=
  kind ev = ukind u ∧ created_at ev = ucreated_at u
  ∧ tags ev = utags u ∧ content ev = ucontent u.

(** A list that is present and not empty. *)
Definition nonEmpty {A} (l : option (list A)) : option (list A) :=
  match l with
  | Some (x :: r) => Some (x :: r)
  | _ => None
  end.

(** The qualifiers an issued event carries: empty lists are dropped, and
    so is a qualifier object that is left without a field. *)
Definition issuedQualifiers (qualifiers : option CapabilityQualifier)
  : option CapabilityQualifier :=
  match qualifiers with
  | Some q =>
      let q' := {| kinds := nonEmpty (kinds q);
                   requiredTags := nonEmpty (requiredTags q);
                   excludedTags := nonEmpty (excludedTags q);
                   rateLimit := rateLimit q |} in
      if has_keys q' then Some q' else None
  | None => None
  end.

(** The expiry an issued event carries: zero is dropped. *)
Definition issuedExpiry (expiresAt : option Z) : option number :=
  match expiresAt with
  | Some e => if e =? 0 then None else Some (Num e)
  | None => None
  end.

(** The texts of the tag lists of [q] survive [JSON.stringify] followed
    by [JSON.parse]. *)
Definition jsonRoundTrip `{Tools} `{Json} (qualifiers : option CapabilityQualifier)
  : Prop :=
  ∀ q l, qualifiers = Some q ->
    nonEmpty (requiredTags q) = Some l ∨ nonEmpty (excludedTags q) = Some l ->
    JSON_stringify l ≠ "" ∧ JSON_parse (JSON_stringify l) = Some l.

(** Two events that differ at most in their [e] tags, and have such a
    tag with a non-empty value either both or neither. *)
Definition sameButReference (d1 d2 : Event) : Prop :=
  id d1 = id d2 ∧ pubkey d1 = pubkey d2 ∧ kind d1 = kind d2
  ∧ created_at d1 = created_at d2
  ∧ (∀ n, n ≠ REFERENCE -> findTag (tags d1) n = findTag (tags d2) n)
  ∧ truthy_str (getTagValue (tags d1) REFERENCE)
    = truthy_str (getTagValue (tags d2) REFERENCE).

(** The store holds only what [addCapability] validated: under each id
    a verified grant with that id and its parsed capability, indexed
    under its holder and its issuer, and no revoked id. *)
Definition storeOk `{Tools} (st : CapabilityStore) : Prop :=
  ∀ i ce, capabilities st !! i = Some ce ->
    id (event ce) = i
    ∧ kind (event ce) = GRANT
    ∧ verifyEvent (event ce) = true
    ∧ parseCapabilityGrantEvent (event ce) = Some ce
    ∧ (i ∉ revokedIds st)
    ∧ i ∈ default [] (byHolder st !! holder (capability ce))
    ∧ i ∈ default [] (byIssuer st !! issuer (capability ce)).

(** Every tag of [l] has the name [m]. *)
Definition named (m : string) (l : list (list string)) : Prop :=
  Forall (λ t, t !! 0%nat = Some m) l.

End CapIssueSpec.

(** ** Concrete inputs for the capability package *)

Module IssueExamples.
Import JS Nostr Cap CapIssue Examples.

Definition quote : string := String (ascii_of_nat 34) "".

(** The JSON text of [[["h", "g1"]]]. *)
Definition hg1Text : string :=
  "[[" +:+ quote +:+ "h" +:+ quote +:+ "," +:+ quote +:+ "g1" +:+ quote +:+ "]]".

(** A library that accepts every signature and knows one JSON text. *)
Definition tableTools : Tools :=
  {| verifyEvent := λ _, true;
     JSON_parse := λ s, if String.eqb s hg1Text then Some [("h", "g1")] else None;
     JSON_stringify_length := λ _, 0 |}.

Definition tableJson : Json :=
  {| JSON_stringify :=
       λ l, if bool_decide (l = [("h", "g1")]) then hg1Text else "null" |}.

(** A write grant for kinds 9 and 10 in group g1, at most 5 events a
    minute, until 2000. *)
Definition writeOptions : GrantOptions :=
  {| opt_qualifiers :=
       Some {| kinds := Some [9; 10]; requiredTags := Some [("h", "g1")];
               excludedTags := Some []; rateLimit := Some (5, 60) |};
     opt_expiresAt := Some 2000;
     opt_groupId := Some "g1" |}.

(** The event [finalizeEvent] makes of a template with the key of
    [pk]. *)
Definition signedAs (i pk : string) (u : UnsignedEvent) : Event :=
  {| id := i; pubkey := pk; created_at := ucreated_at u; kind := ukind u;
     tags := utags u; content := ucontent u; sig := "sig" |}.

Definition writeGrant : Event :=
  signedAs "e7" "group"
    (createCapabilityGrantEvent (H := tableJson) "alice" "write" "group"
       (Some writeOptions) 1000).

Definition revokeE1 : Event :=
  signedAs "r7" "group" (createCapabilityRevocationEvent "e1" "group" None 50).

(** Bob's delegation of the grant o2 to carol: kind 9, until 150. *)
Definition delegationOptions : DelegationOptions :=
  {| dopt_qualifiers :=
       Some {| kinds := Some [9]; requiredTags := None;
               excludedTags := None; rateLimit := None |};
     dopt_expiresAt := Some 150 |}.

Definition delegationIssued : Event :=
  signedAs "d7" "bob"
    (createCapabilityDelegationEvent (H := tableJson) "o2" "carol" "bob" "write"
       (Some delegationOptions) 120).

(** A delegation of [grantBounded] whose [e] tag names another event. *)
Definition delegationElsewhere : Event :=
  mkEvent "d2" "bob" 29002
    [["e"; "somewhere"]; ["p"; "carol"]; ["capability"; "write"]; ["kinds"; "9"];
     ["expiration"; "150"]].

(** A grant that expires at 500, and a second grant to alice. *)
Definition grantUntil500 : Event :=
  mkEvent "e5" "group" 29000
    [["p"; "alice"]; ["capability"; "write"]; ["expiration"; "500"]].

End IssueExamples.

(** ** @nkg/relay: the remaining functions of nip29.js *)

Module Nip29.
Import JS Nostr Relay CapIssue.

Definition GROUP_METADATA : Z := 39000.
Definition GROUP_ADMINS : Z := 39001.
Definition GROUP_MEMBERS : Z := 39002.

(** [finalizeEvent] of nostr-tools, by the secret key. *)
Class Signing : Type := {
  finalizeEvent : UnsignedEvent -> string -> Event
}.

Record GroupEvent : Type := {
  ge_event : Event;
  ge_groupId : string;
  ge_previousRefs : list string
}.

Definition parseGroupEvent (ev : Event) : option GroupEvent :=
  let groupId := getGroupId ev in
  if negb (truthy_str groupId) then None else
  Some {| ge_event := ev; ge_groupId := default "" groupId;
          ge_previousRefs := getPreviousRefs ev |}.

(** The fields of [GroupMetadata] that nip29.js reads or writes. *)
Record Metadata : Type := {
  md_id : string;
  md_name : string;
  md_picture : option string;
  md_about : option string;
  md_visibility : string;
  md_access : string;
  md_pubkey : string
}.

Definition createGroupMetadataEvent `{Signing} (metadata : Metadata)
    (relaySecretKey : string) (now : Z) : Event :=
  let tags :=
    ([["d"; md_id metadata]; ["name"; md_name metadata]]
     ++ (if truthy_str (md_picture metadata)
         then [["picture"; default "" (md_picture metadata)]] else [])
     ++ (if truthy_str (md_about metadata)
         then [["about"; default "" (md_about metadata)]] else [])
     ++ (if String.eqb (md_visibility metadata) "public"
         then [["public"]] else [["private"]])
     ++ (if String.eqb (md_access metadata) "open"
         then [["open"]] else [["closed"]]))%list in
  finalizeEvent
    {| ukind := GROUP_METADATA; upubkey := ""; ucreated_at := now;
       utags := tags; ucontent := "" |}
    relaySecretKey.

Definition createGroupAdminsEvent `{Signing} (groupId : string)
    (admins : list GroupAdmin) (relaySecretKey : string) (now : Z) : Event :=
  let tags :=
    (["d"; groupId]
     :: map (λ admin, "p" :: admin_pubkey admin :: label admin :: permissions admin)
            admins) in
  finalizeEvent
    {| ukind := GROUP_ADMINS; upubkey := ""; ucreated_at := now;
       utags := tags; ucontent := "" |}
    relaySecretKey.

Record GroupMember : Type := {
  member_pubkey : string;
  joinedAt : Z
}.

Definition createGroupMembersEvent `{Signing} (groupId : string)
    (members : list GroupMember) (relaySecretKey : string) (now : Z) : Event :=
  let tags :=
    (["d"; groupId] :: map (λ member, ["p"; member_pubkey member]) members) in
  finalizeEvent
    {| ukind := GROUP_MEMBERS; upubkey := ""; ucreated_at := now;
       utags := tags; ucontent := "" |}
    relaySecretKey.

(** [tag?.[1]] for the first tag of the given name. *)
Definition tagValue1 (ev : Event) (name : string) : option string :=
  match findTag (tags ev) name with
  | Some t => t !! 1%nat
  | None => None
  end.

(** [event.tags.some((t) => t[0] === name)]. *)
Definition hasTag (ev : Event) (name : string) : bool :=
  existsb (λ t, bool_decide (t !! 0%nat = Some name)) (tags ev).

Definition parseGroupMetadataEvent (ev : Event) : option Metadata :=
  if negb (kind ev =? GROUP_METADATA) then None else
  let d := tagValue1 ev "d" in
  let name := tagValue1 ev "name" in
  if negb (truthy_str d) || negb (truthy_str name) then None else
  let picture := tagValue1 ev "picture" in
  let about := tagValue1 ev "about" in
  let hasPublic := hasTag ev "public" in
  let hasOpen := hasTag ev "open" in
  Some {| md_id := default "" d;
          md_name := default "" name;
          md_picture := if truthy_str picture then picture else None;
          md_about := if truthy_str about then about else None;
          md_visibility := if hasPublic then "public" else "private";
          md_access := if hasOpen then "open" else "closed";
          md_pubkey := pubkey ev |}.

Definition knownPermissions : list string :=
  ["add-user"; "edit-metadata"; "delete-event"; "remove-user";
   "add-permission"; "remove-permission"; "edit-group-status"; "delete-group"].

(** The loop of [parseGroupAdminsEvent] over the tags. *)
Definition adminOfTag (tag : list string) : option GroupAdmin :=
  if bool_decide (tag !! 0%nat = Some "p") && truthy_str (tag !! 1%nat)
  then Some {| admin_pubkey := default "" (tag !! 1%nat);
               label := default "admin" (tag !! 2%nat);
               permissions := filter (λ p, p ∈ knownPermissions) (drop 3 tag) |}
  else None.

Definition parseGroupAdminsEvent (ev : Event) : option (list GroupAdmin) :=
  if negb (kind ev =? GROUP_ADMINS) then None else
  Some (omap adminOfTag (tags ev)).

Definition parseGroupMembersEvent (ev : Event) : option (list string) :=
  if negb (kind ev =? GROUP_MEMBERS) then None else
  Some (map (λ t, default "" (t !! 1%nat))
            (filter (λ t, t !! 0%nat = Some "p" ∧ truthy_str (t !! 1%nat) = true)
                    (tags ev))).

Record ModerationAction : Type := {
  ma_kind : Z;
  ma_actor : string;
  ma_groupId : string;
  ma_targets : list string;
  ma_reason : option string
}.

Definition parseModerationEvent (ev : Event) : option ModerationAction :=
  if negb (isModerationEvent (kind ev)) then None else
  let groupId := getGroupId ev in
  if negb (truthy_str groupId) then None else
  let targets :=
    map (λ t, default "" (t !! 1%nat))
        (filter (λ t, t !! 0%nat = Some "p" ∧ truthy_str (t !! 1%nat) = true)
                (tags ev)) in
  Some {| ma_kind := kind ev; ma_actor := pubkey ev;
          ma_groupId := default "" groupId; ma_targets := targets;
          ma_reason := if truthy_str (Some (content ev))
                       then Some (content ev) else None |}.

End Nip29.

(** ** @nkg/relay: the remaining methods of the relay *)

Module RelayApi.
Import JS Nostr Relay.

(** A client is an object shared between the handlers and the set
    [this.clients]: an assignment to one of its fields shows in the set.
    [clientId] stands for the identity of the object. *)
Definition withClient (st : RelayState) (client' : Client) : RelayState :=
  {| config := config st;
     clients :=
       map (λ c, if Nat.eqb (clientId c) (clientId client') then client' else c)
           (clients st);
     eventStore := eventStore st; capabilityStore := capabilityStore st;
     groups := groups st; admins := admins st; members := members st |}.

Definition withSubscriptions (client : Client)
    (subs : list (string * list NostrFilter)) : Client :=
  {| clientId := clientId client; wsOpen := wsOpen client;
     subscriptions := subs; authedPubkey := authedPubkey client;
     authChallenge := authChallenge client |}.

Definition handleReq (st : RelayState) (client : Client) (subId : string)
    (filters : list NostrFilter) : RelayState * list Out :=
  if maxSubscriptions (config st) <=? Z.of_nat (length (subscriptions client))
  then (st, send client (CLOSED subId "error: too many subscriptions")) else
  let client' :=
    withSubscriptions client (map_set subId filters (subscriptions client)) in
  (withClient st client',
   (flat_map (λ f, flat_map (λ ev, send client' (EVENT subId ev))
                            (query (eventStore st) f)) filters
    ++ send client' (EOSE subId))%list).

Definition handleClose (st : RelayState) (client : Client) (subId : string)
  : RelayState * list Out :=
  let client' := withSubscriptions client (map_delete subId (subscriptions client)) in
  (withClient st client', send client' (CLOSED subId "")).

Definition handleAuth `{Tools} (st : RelayState) (client : Client) (ev : Event)
  : RelayState * list Out :=
  if negb (verifyEvent ev)
  then (st, send client (OK (id ev) false "invalid: bad signature")) else
  if negb (kind ev =? 22242)
  then (st, send client (OK (id ev) false "invalid: wrong event kind")) else
  match findTag (tags ev) "challenge" with
  | None => (st, send client (OK (id ev) false "invalid: wrong challenge"))
  | Some challengeTag =>
      if negb (bool_decide (challengeTag !! 1%nat = authChallenge client))
      then (st, send client (OK (id ev) false "invalid: wrong challenge")) else
      let client' :=
        {| clientId := clientId client; wsOpen := wsOpen client;
           subscriptions := subscriptions client;
           authedPubkey := Some (pubkey ev);
           authChallenge := authChallenge client |} in
      (withClient st client', send client' (OK (id ev) true ""))
  end.

(** A message of a client after [JSON.parse], by its first element. *)
Inductive ClientMessage : Type :=
| MsgEVENT (ev : Event)
| MsgREQ (subId : string) (filters : list NostrFilter)
| MsgCLOSE (subId : string)
| MsgAUTH (ev : Event)
| MsgOther.

Definition handleMessage `{Tools} (st : RelayState) (client : Client)
    (message : ClientMessage) (now : Z) : RelayState * list Out :=
  match message with
  | MsgEVENT ev => handleEvent st client ev now
  | MsgREQ subId filters => handleReq st client subId filters
  | MsgCLOSE subId => handleClose st client subId
  | MsgAUTH ev => handleAuth st client ev
  | MsgOther => (st, send client (NOTICE "Unknown message type"))
  end.

(** The client object of a connection, as the set holds it now. *)
Definition clientById (st : RelayState) (cid : nat) : option Client :=
  List.find (λ c, Nat.eqb (clientId c) cid) (clients st).

(** The [message] callback of the connection [cid]. *)
Definition receive `{Tools} (st : RelayState) (cid : nat)
    (message : ClientMessage) (now : Z) : RelayState * list Out :=
  match clientById st cid with
  | Some client => handleMessage st client message now
  | None => (st, [])
  end.

(** *** Group management API *)

Definition createGroup (st : RelayState) (metadata : GroupMetadata)
    (groupAdmins : list GroupAdmin) : RelayState :=
  {| config := config st; clients := clients st; eventStore := eventStore st;
     capabilityStore := capabilityStore st;
     groups := <[group_id metadata := metadata]> (groups st);
     admins := <[group_id metadata := groupAdmins]> (admins st);
     members := <[group_id metadata := []]> (members st) |}.

Definition getGroup (st : RelayState) (groupId : string) : option GroupMetadata :=
  groups st !! groupId.

Definition getGroupAdmins (st : RelayState) (groupId : string) : list GroupAdmin :=
  default [] (admins st !! groupId).

Definition getGroupMembers (st : RelayState) (groupId : string)
  : list (option string) :=
  default [] (members st !! groupId).

Definition addMember (st : RelayState) (groupId pubkey : string) : RelayState :=
  let memberSet := default [] (members st !! groupId) in
  withMembers st (<[groupId := set_add (Some pubkey) memberSet]> (members st)).

(** [new Set(this.recentEventPrefixes)]. *)
Definition getRecentEventPrefixes (es : EventStore) : list string :=
  recentEventPrefixes es.

End RelayApi.

(** ** Specification-side definitions for the relay *)

Module RelayApiSpec.
Import JS Nostr Relay RelaySpec RelayApi.

(** The submission passes the checks the relay makes before it looks at
    who sent the event: the connection is authenticated when the relay
    asks for it, the signature verifies, the event is not too large, it
    names the existing group [g], and it is not older than the window. *)
Definition admissible `{Tools} (st : RelayState) (client : Client) (ev : Event)
    (now : Z) (g : string) : Prop :=
  (requireAuth (config st) = true -> truthy_str (authedPubkey client) = true)
  ∧ verifyEvent ev = true
  ∧ JSON_stringify_length ev <= maxEventSize (config st)
  ∧ groupOf ev = Some g
  ∧ is_Some (groups st !! g)
  ∧ (∀ w, cfgLatePublicationWindow (config st) = Some w ->
          now - created_at ev <= w).

(** The reply discipline of [handleEvent]: one OK frame for the event,
    to the submitter, then only EVENT frames that carry the event to
    open clients of the relay; after a negative OK nothing else is sent
    and the relay is as before. *)
Definition answered (st : RelayState) (client : Client) (ev : Event)
    (r : RelayState * list Out) : Prop :=
  ∃ ok msg bc,
    r.2 = (send client (OK (id ev) ok msg) ++ bc)%list
    ∧ (ok = false -> bc = [] ∧ r.1 = st)
    ∧ (∀ o, o ∈ bc ->
         ∃ c sub, c ∈ clients st ∧ wsOpen c = true
                  ∧ o = (clientId c, EVENT sub ev)).

(** The relay has no capability to go through for the event: its kind
    asks for none, or the store lists none for its author at that time.
    [checkAuthorization] then reads no qualifier of a stored
    capability. *)
Definition consultsNoCapability (st : RelayState) (ev : Event) (now : Z)
  : Prop :=
  requiredCapability ev = None
  ∨ Cap.getCapabilitiesForHolder (capabilityStore st) (pubkey ev) now = [].

(** The event was not accepted: no change, and nothing written but a
    negative OK for the event to the submitter. *)
Definition notAccepted (st : RelayState) (client : Client) (ev : Event)
    (r : RelayState * list Out) : Prop :=
  r.1 = st
  ∧ ∀ o, o ∈ r.2 -> ∃ msg, o = (clientId client, OK (id ev) false msg).

(** The event carries no qualifier on tags: no [required-tags] and no
    [excluded-tags] tag with a value. *)
Definition noTagQualifiers (ev : Event) : Prop :=
  truthy_str (Cap.getTagValue (tags ev) Cap.REQUIRED_TAGS) = false
  ∧ truthy_str (Cap.getTagValue (tags ev) Cap.EXCLUDED_TAGS) = false.

(** The event was refused: a negative OK and no change. *)
Definition refused (st : RelayState) (client : Client) (ev : Event)
    (r : RelayState * list Out) : Prop :=
  r.1 = st ∧ ∃ msg, r.2 = send client (OK (id ev) false msg).

(** The event was accepted: a positive OK first, and the event is
    stored. *)
Definition acceptedAndStored (client : Client) (ev : Event)
    (r : RelayState * list Out) : Prop :=
  (∃ bc, r.2 = (send client (OK (id ev) true "") ++ bc)%list)
  ∧ get (eventStore r.1) (id ev) = Some ev.

(** What the relay has checked of every event it stores. *)
Definition storable `{Tools} (st : RelayState) (ev : Event) : Prop :=
  verifyEvent ev = true
  ∧ JSON_stringify_length ev <= maxEventSize (config st)
  ∧ (isNip29Event (kind ev) = true ∨ 29000 <= kind ev <= 29002)
  ∧ ∃ g, groupOf ev = Some g ∧ is_Some (groups st !! g).

(** A submission: the connection it arrives on, the event and the time. *)
Definition Submission : Type := (Client * Event * Z)%type.

Definition submit `{Tools} (st : RelayState) (s : Submission) : RelayState :=
  (handleEvent st s.1.1 s.1.2 s.2).1.

(** The content kinds, which need the write capability or membership. *)
Definition contentKind (kind : Z) : Prop :=
  kind = CHAT_MESSAGE ∨ kind = CHAT_REPLY ∨ kind = TEXT_NOTE ∨ kind = TEXT_REPLY.

End RelayApiSpec.

(** ** Concrete inputs for the relay *)

Module RelayExamples.
Import JS Nostr Relay RelayApi Examples.

(** The relay of [relayWithChat] with alice as an admin of g1 who may
    add and remove users, and a second, closed group g2. *)
Definition relayWithAdmin : RelayState :=
  {| config := config relayWithChat;
     clients := clients relayWithChat;
     eventStore := eventStore relayWithChat;
     capabilityStore := capabilityStore relayWithChat;
     groups :=
       <["g2" := {| group_id := "g2"; group_name := "group two";
                    visibility := "private"; access := "closed";
                    group_pubkey := "group2" |}]> (groups relayWithChat);
     admins :=
       {[ "g1" := [ {| admin_pubkey := "alice"; label := "owner";
                       permissions := ["add-user"; "remove-user"] |} ] ]};
     members := members relayWithChat |}.

Definition eventOf (i pk : string) (k t : Z) (tgs : list (list string)) : Event :=
  {| id := i; pubkey := pk; created_at := t; kind := k; tags := tgs;
     content := ""; sig := "" |}.

(** Alice adds bob to g1. *)
Definition addBob : Event :=
  eventOf "m1" "alice" 9000 100 [["h"; "g1"]; ["p"; "bob"]].

(** Alice asks for the creation of a group. *)
Definition createRequest : Event :=
  eventOf "m2" "alice" 9007 100 [["h"; "g1"]].

(** Bob asks to join g1, then writes to it. *)
Definition joinBob : Event := eventOf "j1" "bob" 9021 100 [["h"; "g1"]].
Definition chatBob : Event := eventOf "c1" "bob" 9 101 [["h"; "g1"]].

(** Carol asks to join the closed group g2, and writes to it. *)
Definition joinCarol : Event := eventOf "j2" "carol" 9021 100 [["h"; "g2"]].
Definition chatCarol : Event := eventOf "c2" "carol" 9 101 [["h"; "g2"]].

(** The relay of [relayWithChat] with bob as a second member of g1. *)
Definition relayWithBob : RelayState :=
  withMembers relayWithChat {[ "g1" := [Some "alice"; Some "bob"] ]}.

(** The same relay when it requires authentication, and an AUTH event
    of bob whose challenge tag has no value. *)
Definition relayAuth : RelayState :=
  {| config :=
       {| maxEventSize := 65536; maxSubscriptions := 20;
          cfgLatePublicationWindow := Some 3600; requireAuth := true |};
     clients := clients relayWithBob;
     eventStore := eventStore relayWithBob;
     capabilityStore := capabilityStore relayWithBob;
     groups := groups relayWithBob;
     admins := admins relayWithBob;
     members := members relayWithBob |}.

Definition authBob : Event := eventOf "a1" "bob" 22242 100 [["challenge"]].


(** The key of g1 grants dave the write capability, and dave writes to
    g2. *)
Definition grantDave : Event :=
  eventOf "w1" "group" 29000 100
    [["h"; "g1"]; ["p"; "dave"]; ["capability"; "write"]].
Definition chatDave : Event := eventOf "c3" "dave" 9 101 [["h"; "g2"]].

End RelayExamples.

(** ** @nkg/signer: round 2 of the key generation and the signing session *)

Module SignerRounds.
Import JS Signer SignerSpec.

(** [%] on BigInt truncates: the remainder has the sign of the
    dividend. *)
Definition evaluatePolynomial (coefficients : list Z) (x : Z) : Z :=
  (foldl (λ acc coeff,
            (Z.rem (acc.1 + coeff * acc.2) CURVE_ORDER,
             Z.rem (acc.2 * x) CURVE_ORDER))
         (0, 1) coefficients).1.

(** The digits of [n] in base 16 in front of [acc], most significant
    first; [fuel] bounds the number of digits. *)
Fixpoint hexGo (fuel : nat) (n : N) (acc : string) : string :=
  match fuel with
  | O => acc
  | S fuel' =>
      if (n =? 0)%N then acc
      else hexGo fuel' (n / 16) (String (hexDigit (n mod 16)) acc)
  end.

(** [n.toString(16)] on a BigInt. *)
Definition toString16 (n : Z) : string :=
  match n with
  | Z0 => "0"
  | Zpos p => hexGo (S (N.to_nat (N.log2 (Npos p)))) (Npos p) ""
  | Zneg p => String "-" (hexGo (S (N.to_nat (N.log2 (Npos p)))) (Npos p) "")
  end.

(** [s.padStart(len, "0")]. *)
Fixpoint zeros (k : nat) (s : string) : string :=
  match k with
  | O => s
  | S k' => String "0" (zeros k' s)
  end.

Definition padStart0 (len : nat) (s : string) : string :=
  zeros (len - String.length s) s.

(** [s.slice(-k)] for a positive [k]: the last [k] characters. *)
Definition sliceLast (k : nat) (s : string) : string :=
  substring (String.length s - k) k s.

Definition bigintToHex (n : Z) : string :=
  let hex := padStart0 64 (toString16 n) in
  sliceLast 64 hex.

(** The functions of nostr-tools the second round calls: [hexToBytes],
    and [getConversationKey], [encrypt] and [decrypt] of [nip44.v2]. The
    [i]-th call of [encrypt] draws its nonce from [nonces i]. *)
Class Nip44 : Type := {
  ConversationKey : Type;
  Nonce : Type;
  hexToBytes : string -> result (list Byte.byte);
  getConversationKey : list Byte.byte -> string -> result ConversationKey;
  encrypt : Nonce -> string -> ConversationKey -> result string;
  decrypt : string -> ConversationKey -> result string
}.

(** [participants[toIdx - 1]], [undefined] outside the array. *)
Definition participantAt (participants : list string) (toIdx : Z)
  : option string :=
  if toIdx - 1 <? 0 then None else participants !! Z.to_nat (toIdx - 1).

(** One iteration of the loop of [generateRound2Packages] for a
    recipient other than the participant itself. *)
Definition round2PackageFor `{Nip44} (nonce : Nonce) (session : DKGSession)
    (coefficients : list Z) (toIdx : Z) : result DKGRound2Package :=
  let shareValue := evaluatePolynomial coefficients toIdx in
  let shareHex := bigintToHex shareValue in
  let recipientPubkey := participantAt (participants (config session)) toIdx in
  if negb (truthy_str recipientPubkey)
  then Throw ("No pubkey for participant " +:+ pretty toIdx) else
  secret ← hexToBytes (mySecretKey (config session));
  conversationKey ← getConversationKey secret (default "" recipientPubkey);
  encryptedShare ← encrypt nonce shareHex conversationKey;
  Ok {| fromIdx := myIndex (config session); toIdx := toIdx;
        encryptedShare := encryptedShare |}.

(** The loop over the recipients, in order; the [i]-th [encrypt] uses
    [nonces i]. *)
Fixpoint round2Loop `{Nip44} (nonces : nat -> Nonce) (i : nat)
    (session : DKGSession) (coefficients : list Z) (recipients : list Z)
  : result (list DKGRound2Package) :=
  match recipients with
  | [] => Ok []
  | toIdx :: rest =>
      if toIdx =? myIndex (config session)
      then round2Loop nonces i session coefficients rest
      else
        pkg ← round2PackageFor (nonces i) session coefficients toIdx;
        pkgs ← round2Loop nonces (S i) session coefficients rest;
        Ok (pkg :: pkgs)
  end.

Definition generateRound2Packages `{Nip44} (nonces : nat -> Nonce)
    (session : DKGSession) : result (list DKGRound2Package * DKGSession) :=
  if negb (bool_decide (state session = round1_complete))
  then Throw ("Invalid state for Round 2: " +:+ stateName (state session)) else
  match myRound1Secret session with
  | None => Throw "Round 1 secret not found"
  | Some coefficients =>
      let myIndex := myIndex (config session) in
      packages ←
        round2Loop nonces 0 session coefficients
          (seqZ 1 (maxSigners (config session)));
      let myShareValue := evaluatePolynomial coefficients myIndex in
      let myRound2 :=
        {| fromIdx := myIndex; toIdx := myIndex;
           encryptedShare := bigintToHex myShareValue |} in
      Ok (packages,
          {| config := config session;
             state := state session;
             round1Packages := round1Packages session;
             round2Packages := <[myIndex := myRound2]> (round2Packages session);
             myRound1Secret := myRound1Secret session;
             keyPackage := keyPackage session |})
  end.

(** *** signing.ts: the session *)

Record SigningConfig : Type := {
  sg_sessionId : string;
  sg_message : string;
  sg_groupPubkey : string;
  signerIndices : list Z
}.

Record SigningSession : Type := {
  sconfig : SigningConfig;
  skeyPackage : KeyPackage;
  myCommitment : option CommitmentPackage;
  publicNonces : gmap Z PublicNonce;
  partialSignatures : gmap Z PartialSignature;
  finalSignature : option string
}.

(** [Lib.verify_partial_sig] of @cmdcode/frost. *)
Class FrostPartial `{Frost} : Type := {
  verify_partial_sig :
    GroupSigningCtx -> PublicNonce -> string -> string -> result bool
}.

Definition createSigningSession (config : SigningConfig)
    (keyPackage : KeyPackage) : result SigningSession :=
  if Z.of_nat (length (signerIndices config)) <? kp_threshold keyPackage
  then Throw ("Not enough signers: need " +:+ pretty (kp_threshold keyPackage)
              +:+ ", got " +:+ pretty (length (signerIndices config))) else
  if negb (bool_decide (share_idx (kp_share keyPackage) ∈ signerIndices config))
  then Throw "This participant is not in the signer list" else
  Ok {| sconfig := config; skeyPackage := keyPackage; myCommitment := None;
        publicNonces := ∅; partialSignatures := ∅; finalSignature := None |}.

Definition generateNonceCommitment `{Frost} (seed : Seed)
    (session : SigningSession) : result (PublicNonce * SigningSession) :=
  match myCommitment session with
  | Some _ => Throw "Nonce commitment already generated for this session"
  | None =>
      commitment ← create_commit_pkg seed (kp_share (skeyPackage session));
      let publicNonce := publicNonceOf commitment in
      Ok (publicNonce,
          {| sconfig := sconfig session; skeyPackage := skeyPackage session;
             myCommitment := Some commitment;
             publicNonces :=
               <[cp_idx commitment := publicNonce]> (publicNonces session);
             partialSignatures := partialSignatures session;
             finalSignature := finalSignature session |})
  end.

Definition processPublicNonce (session : SigningSession) (nonce : PublicNonce)
  : result SigningSession :=
  if negb (bool_decide (pn_idx nonce ∈ signerIndices (sconfig session)))
  then Throw ("Participant " +:+ pretty (pn_idx nonce)
              +:+ " is not in the signer list") else
  if (pn_idx nonce =? share_idx (kp_share (skeyPackage session)))
     && negb (bool_decide (is_Some (myCommitment session)))
  then Throw "Received own nonce before generating commitment" else
  Ok {| sconfig := sconfig session; skeyPackage := skeyPackage session;
        myCommitment := myCommitment session;
        publicNonces := <[pn_idx nonce := nonce]> (publicNonces session);
        partialSignatures := partialSignatures session;
        finalSignature := finalSignature session |}.

Definition hasAllNonces (session : SigningSession) : bool :=
  bool_decide (size (publicNonces session)
               = length (signerIndices (sconfig session))).

(** [signerIndices.map((idx) => m.get(idx)).filter((n) => n !== undefined)]. *)
Definition inSignerOrder {V} (session : SigningSession) (m : gmap Z V) : list V :=
  omap (λ idx, m !! idx) (signerIndices (sconfig session)).

Definition generatePartialSignature `{FrostPartial} (session : SigningSession)
  : result (PartialSignature * SigningSession) :=
  match myCommitment session with
  | None => Throw "Nonce commitment not generated"
  | Some commitment =>
      if negb (hasAllNonces session)
      then Throw "Not all nonce commitments received" else
      let pnonces := inSignerOrder session (publicNonces session) in
      ctx ← get_group_signing_ctx (kp_groupPubkey (skeyPackage session)) pnonces
              (sg_message (sconfig session));
      commit ← get_commit_pkg [commitment] (kp_share (skeyPackage session));
      sig ← sign_msg ctx (kp_share (skeyPackage session)) commit;
      let pnonce := publicNonceOf commitment in
      isValid ← verify_partial_sig ctx pnonce (ps_pubkey sig) (psig sig);
      if negb isValid then Throw "Generated invalid partial signature" else
      let partialSig :=
        {| ps_idx := ps_idx sig; psig := psig sig; ps_pubkey := ps_pubkey sig |} in
      Ok (partialSig,
          {| sconfig := sconfig session; skeyPackage := skeyPackage session;
             myCommitment := myCommitment session;
             publicNonces := publicNonces session;
             partialSignatures :=
               <[ps_idx sig := partialSig]> (partialSignatures session);
             finalSignature := finalSignature session |})
  end.

Definition processPartialSignature `{FrostPartial} (session : SigningSession)
    (partialSig : PartialSignature) : result SigningSession :=
  if negb (hasAllNonces session)
  then Throw "Cannot process partial signatures before all nonces received" else
  if negb (bool_decide (ps_idx partialSig ∈ signerIndices (sconfig session)))
  then Throw ("Participant " +:+ pretty (ps_idx partialSig)
              +:+ " is not in the signer list") else
  let pnonces := inSignerOrder session (publicNonces session) in
  ctx ← get_group_signing_ctx (kp_groupPubkey (skeyPackage session)) pnonces
          (sg_message (sconfig session));
  match publicNonces session !! ps_idx partialSig with
  | None => Throw ("No nonce for participant " +:+ pretty (ps_idx partialSig))
  | Some pnonce =>
      isValid ← verify_partial_sig ctx pnonce (ps_pubkey partialSig)
                  (psig partialSig);
      if negb isValid
      then Throw ("Invalid partial signature from participant "
                  +:+ pretty (ps_idx partialSig)) else
      Ok {| sconfig := sconfig session; skeyPackage := skeyPackage session;
            myCommitment := myCommitment session;
            publicNonces := publicNonces session;
            partialSignatures :=
              <[ps_idx partialSig := partialSig]> (partialSignatures session);
            finalSignature := finalSignature session |}
  end.

Definition hasAllPartialSignatures (session : SigningSession) : bool :=
  bool_decide (size (partialSignatures session)
               = length (signerIndices (sconfig session))).

Definition aggregateSignatures `{Frost} (session : SigningSession)
  : result (string * SigningSession) :=
  if negb (hasAllPartialSignatures session)
  then Throw "Not all partial signatures received" else
  let pnonces := inSignerOrder session (publicNonces session) in
  ctx ← get_group_signing_ctx (kp_groupPubkey (skeyPackage session)) pnonces
          (sg_message (sconfig session));
  let psigs := inSignerOrder session (partialSignatures session) in
  signature ← combine_partial_sigs ctx psigs;
  keyCtx ← get_group_key_context (kp_groupPubkey (skeyPackage session));
  isValid ← verify_final_sig keyCtx (sg_message (sconfig session)) signature;
  if negb isValid then Throw "Final signature verification failed" else
  Ok (signature,
      {| sconfig := sconfig session; skeyPackage := skeyPackage session;
         myCommitment := myCommitment session;
         publicNonces := publicNonces session;
         partialSignatures := partialSignatures session;
         finalSignature := Some signature |}).

(** [verifySignature]: any exception of the library reads as [false]. *)
Definition verifySignature `{Frost} (groupPubkey message signature : string)
  : bool :=
  match (keyCtx ← get_group_key_context groupPubkey;
         verify_final_sig keyCtx message signature) with
  | Ok b => b
  | Throw _ => false
  end.

End SignerRounds.

(** ** Specification-side definitions for the signer *)

Module SignerRoundsSpec.
Import JS Signer SignerSpec SignerRounds.

(** The value of the polynomial with the given coefficients, constant
    term first, at [x]. *)
Definition polyValue (coefficients : list Z) (x : Z) : Z :=
  foldr (λ c acc, c + x * acc) 0 coefficients.

(** The calls of the first round on a session; a call that throws
    leaves the caller with the session it had. *)
Inductive Round1Op : Type :=
| OpGenerate (random_bytes : nat -> list Byte.byte)
| OpProcess (pkg : DKGRound1Package).

Definition stepRound1 `{Frost} (session : DKGSession) (op : Round1Op)
  : DKGSession :=
  match op with
  | OpGenerate random_bytes =>
      match generateRound1Package random_bytes session with
      | Ok (_, session') => session'
      | Throw _ => session
      end
  | OpProcess pkg =>
      match processRound1Package session pkg with
      | Ok session' => session'
      | Throw _ => session
      end
  end.

(** The calls of a signing session that return a new session. *)
Inductive SigningOp `{Frost} : Type :=
| OpCommit (seed : Seed)
| OpNonce (nonce : PublicNonce)
| OpSign
| OpPartial (partialSig : PartialSignature)
| OpAggregate.

Definition stepSigning `{FrostPartial} (session : SigningSession)
    (op : SigningOp) : SigningSession :=
  match op with
  | OpCommit seed =>
      match generateNonceCommitment seed session with
      | Ok (_, session') => session'
      | Throw _ => session
      end
  | OpNonce nonce =>
      match processPublicNonce session nonce with
      | Ok session' => session'
      | Throw _ => session
      end
  | OpSign =>
      match generatePartialSignature session with
      | Ok (_, session') => session'
      | Throw _ => session
      end
  | OpPartial partialSig =>
      match processPartialSignature session partialSig with
      | Ok session' => session'
      | Throw _ => session
      end
  | OpAggregate =>
      match aggregateSignatures session with
      | Ok (_, session') => session'
      | Throw _ => session
      end
  end.

(** What holds of a session while the first round runs. *)
Definition round1Inv (cfg : DKGConfig) (s : DKGSession) : Prop :=
  config s = cfg
  ∧ (state s = initialized ∨ state s = round1_complete)
  ∧ (∀ i pkg, round1Packages s !! i = Some pkg ->
       idx pkg = i ∧ 1 <= i <= maxSigners cfg
       ∧ (i ≠ myIndex cfg ->
          Z.of_nat (length (vssCommitments pkg)) = threshold cfg))
  ∧ (is_Some (round1Packages s !! myIndex cfg) ->
     ∃ cs, myRound1Secret s = Some cs ∧ Z.of_nat (length cs) = threshold cfg)
  ∧ (state s = round1_complete ->
     Z.of_nat (size (round1Packages s)) = maxSigners cfg).

(** The package for [toIdx] carries the share of the polynomial at
    [toIdx], encrypted for the pubkey of that participant. *)
Definition sealedFor `{Nip44} (session : DKGSession) (coefficients : list Z)
    (pkg : DKGRound2Package) : Prop :=
  fromIdx pkg = myIndex (config session)
  ∧ ∃ recipient secret key nonce,
      participantAt (participants (config session)) (toIdx pkg) = Some recipient
      ∧ recipient ≠ ""
      ∧ hexToBytes (mySecretKey (config session)) = Ok secret
      ∧ getConversationKey secret recipient = Ok key
      ∧ encrypt nonce (bigintToHex (evaluatePolynomial coefficients (toIdx pkg)))
          key = Ok (encryptedShare pkg).

End SignerRoundsSpec.

(** ** Concrete inputs for the signer *)

Module RoundsExamples.
Import JS Signer SignerRounds Examples.

(** An encryption that only labels the text with the recipient. *)
Definition plainNip44 : Nip44 :=
  {| ConversationKey := string;
     Nonce := unit;
     hexToBytes := λ _, Ok [];
     getConversationKey := λ _ pk, Ok pk;
     encrypt := λ _ text key, Ok (key +:+ ":" +:+ text);
     decrypt := λ _ _, Throw "unavailable" |}.

(** The 2-of-3 session of participant 1 after the first round, with the
    polynomial 5 + 3x. *)
Definition session23complete : DKGSession :=
  {| config := config23; state := round1_complete;
     round1Packages :=
       {[ 1 := packageOf 1 ["m1"; "m2"]; 2 := packageOf 2 ["a1"; "a2"];
          3 := packageOf 3 ["c1"; "c2"] ]};
     round2Packages := ∅;
     myRound1Secret := Some [5; 3]; keyPackage := None |}.

(** A frost library that signs with fixed texts and accepts the
    signature it combines. *)
Definition fixedFrost : Frost :=
  {| Seed := unit;
     GroupSigningCtx := unit;
     GroupKeyCtx := string;
     get_share_commits :=
       λ cs, if forallb (λ c, (0 <? c) && (c <? SignerSpec.CURVE_ORDER)) cs
             then Ok (map (λ _, "02") cs)
             else Throw "RangeError: scalar out of range";
     create_commit_pkg :=
       λ _ sh, Ok {| cp_idx := share_idx sh; hidden_sn := "h"; binder_sn := "b";
                     cp_hidden_pn := "H"; cp_binder_pn := "B" |};
     get_group_signing_ctx := λ _ _ _, Ok ();
     get_commit_pkg :=
       λ _ sh, Ok {| cp_idx := share_idx sh; hidden_sn := "h"; binder_sn := "b";
                     cp_hidden_pn := "H"; cp_binder_pn := "B" |};
     sign_msg :=
       λ _ sh _, Ok {| ps_idx := share_idx sh; psig := "p"; ps_pubkey := "k" |};
     combine_partial_sigs := λ _ _, Ok "signature";
     get_group_key_context := λ pk, Ok pk;
     verify_final_sig := λ _ _ sig, Ok (String.eqb sig "signature") |}.

Definition fixedPartial : FrostPartial (H := fixedFrost) :=
  {| verify_partial_sig := λ _ _ _ _, Ok true |}.

Definition threeShares : list ShareWithPubkey :=
  (twoShares
   ++ [ {| share := {| share_idx := 3; seckey := "03" |};
           groupPubkey := "02aa" |} ])%list.

(** Participant 1 of a 2-of-3 group signs with participant 2. *)
Definition keyPackage1 : KeyPackage :=
  {| kp_share := {| share_idx := 1; seckey := "01" |};
     kp_groupPubkey := "02aa"; kp_vssCommitments := ["v1"; "v2"];
     kp_threshold := 2; kp_maxSigners := 3 |}.

Definition signingConfig12 : SigningConfig :=
  {| sg_sessionId := "s"; sg_message := "deadbeef"; sg_groupPubkey := "02aa";
     signerIndices := [1; 2] |}.

Definition signingSession12 : SigningSession :=
  {| sconfig := signingConfig12; skeyPackage := keyPackage1;
     myCommitment := None; publicNonces := ∅; partialSignatures := ∅;
     finalSignature := None |}.

(** The session once participant 1 has generated its commitment. *)
Definition session12committed : SigningSession :=
  match generateNonceCommitment (H := fixedFrost) () signingSession12 with
  | Ok (_, session) => session
  | Throw _ => signingSession12
  end.

End RoundsExamples.

(** ** Specification-side definitions and inputs for nip29.js *)

Module Nip29Spec.
Import JS Nostr Relay CapIssue CapIssueSpec Nip29.

(** [finalizeEvent] keeps the kind, the time, the tags and the content
    of the template. *)
Definition keepsTemplate `{Signing} : Prop :=
  ∀ u secretKey, finalized u (finalizeEvent u secretKey).

(** What a metadata event keeps of the metadata: an empty picture or
    description is dropped, a visibility other than public reads as
    private, an access other than open as closed, and the pubkey is the
    one of the signer. *)
Definition publishedMetadata (metadata : Metadata) (signer : string) : Metadata :=
  {| md_id := md_id metadata;
     md_name := md_name metadata;
     md_picture := if truthy_str (md_picture metadata)
                   then md_picture metadata else None;
     md_about := if truthy_str (md_about metadata) then md_about metadata else None;
     md_visibility := if String.eqb (md_visibility metadata) "public"
                      then "public" else "private";
     md_access := if String.eqb (md_access metadata) "open"
                  then "open" else "closed";
     md_pubkey := signer |}.

(** What an admins event keeps of an admin: the permissions the parser
    knows. *)
Definition publishedAdmin (admin : GroupAdmin) : GroupAdmin :=
  {| admin_pubkey := admin_pubkey admin; label := label admin;
     permissions := filter (λ p, p ∈ knownPermissions) (permissions admin) |}.

(** A signer that fills in fixed values. *)
Definition fixedSigning : Signing :=
  {| finalizeEvent :=
       λ u secretKey,
         {| id := "id"; pubkey := "relay"; created_at := ucreated_at u;
            kind := ukind u; tags := utags u; content := ucontent u;
            sig := "sig" |} |}.

Definition metadataG1 : Metadata :=
  {| md_id := "g1"; md_name := "group one"; md_picture := Some "";
     md_about := Some "a group"; md_visibility := "public";
     md_access := "invite-only"; md_pubkey := "group" |}.

Definition adminsG1 : list GroupAdmin :=
  [ {| admin_pubkey := "alice"; label := "owner";
       permissions := ["add-user"; "ban-user"] |};
    {| admin_pubkey := ""; label := "ghost"; permissions := [] |} ].

Definition membersG1 : list GroupMember :=
  [ {| member_pubkey := "alice"; joinedAt := 1 |};
    {| member_pubkey := ""; joinedAt := 2 |};
    {| member_pubkey := "bob"; joinedAt := 3 |} ].

End Nip29Spec.

(** * Properties *)

(** ** Capability model *)

Module CapProofs.
Import JS Nostr Cap CapSpec Examples.

Lemma hasTagPair_present eventTags p :
  hasTagPair eventTags p = true <-> present eventTags p.
Proof.
  unfold hasTagPair, present. rewrite existsb_exists. split.
  - intros (t & Hin & Ht). apply andb_true_iff in Ht as [H0 H1].
    apply bool_decide_eq_true in H0, H1.
    exists t. split; [by apply list_elem_of_In|done].
  - intros (t & Hin & H0 & H1). exists t. split; [by apply list_elem_of_In|].
    apply andb_true_iff. split; by apply bool_decide_eq_true.
Qed.

Lemma eventMatchesRequiredTags_spec eventTags req :
  eventMatchesRequiredTags eventTags req = true
  <-> ∀ p, p ∈ req -> present eventTags p.
Proof.
  induction req as [|p req IH]; simpl.
  - split; [intros _ p Hp; inversion Hp|done].
  - destruct (hasTagPair eventTags p) eqn:Hp; simpl.
    + rewrite IH. split.
      * intros Hall q Hq. apply elem_of_cons in Hq as [->|Hq]; [|by apply Hall].
        by apply hasTagPair_present.
      * intros Hall q Hq. apply Hall. by right.
    + split; [done|]. intros Hall.
      assert (present eventTags p) as Hpr by (apply Hall; left).
      apply hasTagPair_present in Hpr. congruence.
Qed.

Lemma eventHasExcludedTags_spec eventTags exc :
  eventHasExcludedTags eventTags exc = false
  <-> ∀ p, p ∈ exc -> ¬ present eventTags p.
Proof.
  induction exc as [|p exc IH]; simpl.
  - split; [intros _ p Hp; inversion Hp|done].
  - destruct (hasTagPair eventTags p) eqn:Hp; simpl.
    + split; [done|]. intros Hall. exfalso. apply (Hall p); [left|].
      by apply hasTagPair_present.
    + rewrite IH. split.
      * intros Hall q Hq. apply elem_of_cons in Hq as [->|Hq]; [|by apply Hall].
        rewrite <- hasTagPair_present. congruence.
      * intros Hall q Hq. apply Hall. by right.
Qed.

Lemma isCapabilityExpired_false c now :
  isCapabilityExpired c now = false
  <-> ∀ t, expiresAt c = Some (Num t) -> t ≠ 0 -> now < t.
Proof.
  unfold isCapabilityExpired.
  destruct (expiresAt c) as [[t|]|]; simpl.
  - destruct (Z.eqb_spec t 0) as [->|Hne]; simpl.
    + split; [|done]. intros _ t [= <-]. done.
    + split.
      * intros Hle t' [= <-] _. apply Z.leb_gt in Hle. lia.
      * intros Hlt. apply Z.leb_gt. by apply Hlt.
  - split; [|done]. intros _ t [=].
  - split; [|done]. intros _ t [=].
Qed.

Lemma capabilityAllowsAction_true c a k :
  capabilityAllowsAction c a k = true
  <-> type c = a ∧ ∀ ks x, qkinds c = Some ks -> k = Some x -> x ∈ ks.
Proof.
  unfold capabilityAllowsAction.
  destruct (String.eqb_spec (type c) a) as [Heq|Hne]; simpl.
  - destruct k as [x|], (qkinds c) as [ks|]; simpl.
    + destruct (bool_decide (x ∈ ks)) eqn:Hx; simpl.
      * apply bool_decide_eq_true in Hx. split; [|done].
        intros _. split; [done|]. by intros ? ? [= <-] [= <-].
      * apply bool_decide_eq_false in Hx. split; [done|].
        intros [_ Hall]. exfalso. by apply Hx, Hall.
    + split; [|done]. intros _. split; [done|]. by intros ? ? [=].
    + split; [|done]. intros _. split; [done|]. by intros ? ? _ [=].
    + split; [|done]. intros _. split; [done|]. by intros ? ? [=].
  - split; [done|]. by intros [? _].
Qed.

Lemma loopBody_true c h a ctx now :
  loopBody c h a ctx now = true
  <-> holder c = h
      ∧ isCapabilityExpired c now = false
      ∧ capabilityAllowsAction c a (eventKind ctx) = true
      ∧ (∀ req evTags, qrequiredTags c = Some req -> eventTags ctx = Some evTags ->
           eventMatchesRequiredTags evTags req = true)
      ∧ (∀ exc evTags, qexcludedTags c = Some exc -> eventTags ctx = Some evTags ->
           eventHasExcludedTags evTags exc = false).
Proof.
  unfold loopBody.
  destruct (String.eqb_spec (holder c) h) as [Hh|Hh]; simpl; [|naive_solver].
  destruct (isCapabilityExpired c now); simpl; [naive_solver|].
  destruct (capabilityAllowsAction c a (eventKind ctx)); simpl; [|naive_solver].
  destruct (qrequiredTags c) as [req|], (eventTags ctx) as [evTags|],
           (qexcludedTags c) as [exc|]; simpl;
    repeat match goal with
           | |- context [eventMatchesRequiredTags ?x ?y] =>
               destruct (eventMatchesRequiredTags x y) eqn:?; simpl
           | |- context [eventHasExcludedTags ?x ?y] =>
               destruct (eventHasExcludedTags x y) eqn:?; simpl
           end; naive_solver.
Qed.

(** The loop body reaches its [return] exactly on the capabilities the
    code is designed to accept. *)
Lemma loopBody_designMatch c h a ctx now :
  loopBody c h a ctx now = true <-> designMatch h a now ctx c.
Proof.
  rewrite loopBody_true. unfold designMatch.
  rewrite isCapabilityExpired_false, capabilityAllowsAction_true.
  setoid_rewrite eventMatchesRequiredTags_spec.
  setoid_rewrite eventHasExcludedTags_spec.
  naive_solver.
Qed.

Lemma authLoop_firstMatch C h a ctx now :
  firstMatch (designMatch h a now ctx) C (authLoop C h a ctx now).
Proof.
  induction C as [|c C IH]; simpl.
  - right. split; [|done]. intros x Hx. inversion Hx.
  - destruct (loopBody c h a ctx now) eqn:Hb.
    + left. exists [], c, C. simpl. split; [done|].
      split; [intros x Hx; inversion Hx|].
      split; [by apply loopBody_designMatch|done].
    + assert (¬ designMatch h a now ctx c) as Hc.
      { rewrite <- loopBody_designMatch. congruence. }
      destruct IH as [(l1 & c' & l2 & -> & Hl1 & Hc' & Ha & Hw)|(Hall & Ha & Hw)].
      * left. exists (c :: l1), c', l2. simpl. split; [done|].
        split; [|done]. intros x Hx. apply elem_of_cons in Hx as [->|Hx]; auto.
      * right. split; [|done]. intros x Hx.
        apply elem_of_cons in Hx as [->|Hx]; auto.
Qed.

(** C2 (as amended): [checkAuthorization] returns the first capability of
    the list, in list order, whose holder and type are the requested
    ones, whose expiry (when it is a non-zero number) lies after the
    current time, whose kinds (when the qualifier and the event kind are
    both given) contain the event kind, and whose required and excluded
    tag pairs are respectively all present in and all absent from the
    event's tags, each of the two when the qualifier is set and the
    event's tags are given; when no capability matches, the result is a
    denial without witness. *)
Theorem C2_checkAuthorization_first_match
    (C : list Capability) (h a : string) (ctx : AuthContext) (now : Z) :
  firstMatch (designMatch h a (default now (ctxTime ctx)) ctx) C
             (checkAuthorization C h a ctx now).
Proof. unfold checkAuthorization. apply authLoop_firstMatch. Qed.

(** C2 (as stated) fails: a capability that requires the tag [h = g1]
    authorizes an event whose tags are not passed, and a capability whose
    expiry is the number zero authorizes at time 100. *)
Lemma C2_counterexample :
  ¬ firstMatch (claimedMatch "alice" "write" 100 kindOnly) [taggedCap]
      (checkAuthorization [taggedCap] "alice" "write" kindOnly 100)
  ∧ ¬ firstMatch (claimedMatch "alice" "write" 100 kindOnly) [epochCap]
      (checkAuthorization [epochCap] "alice" "write" kindOnly 100).
Proof.
  split.
  - intros [(l1 & c & l2 & Heq & _ & Hc & _ & Hw)|(_ & Ha & _)]; [|done].
    injection Hw as <-.
    destruct Hc as (_ & _ & _ & _ & Hreq & _).
    destruct (Hreq [("h", "g1")] eq_refl ("h", "g1")) as (t & Ht & _); [by left|].
    inversion Ht.
  - intros [(l1 & c & l2 & Heq & _ & Hc & _ & Hw)|(_ & Ha & _)]; [|done].
    injection Hw as <-.
    destruct Hc as (_ & _ & Hexp & _).
    destruct (Hexp (Num 0) eq_refl) as (t & [= <-] & Hlt). lia.
Qed.

Lemma validateCapabilityEvent_valid `{Tools} o g ctx :
  valid (validateCapabilityEvent o g ctx) = true ->
  ∃ ce, parseCapabilityGrantEvent o = Some ce
        ∧ vcapability (validateCapabilityEvent o g ctx) = Some (capability ce)
        ∧ id o ∉ revokedEventIds ctx.
Proof.
  unfold validateCapabilityEvent.
  repeat (case_match; simpl; try done).
  intros _. eexists. split; [done|]. split; [done|].
  by eapply bool_decide_eq_false_1.
Qed.

Lemma firstKindOutside_None ok dk :
  firstKindOutside ok dk = None -> ∀ k, k ∈ dk -> k ∈ ok.
Proof.
  induction dk as [|x dk IH]; simpl; [by intros _ k Hk; inversion Hk|].
  destruct (bool_decide (x ∈ ok)) eqn:Hx; simpl; [|done].
  apply bool_decide_eq_true in Hx.
  intros Hn k Hk. apply elem_of_cons in Hk as [->|Hk]; auto.
Qed.

Lemma validateQualifiersSubset_valid o d :
  valid (validateQualifiersSubset o d) = true ->
  kindsSubset o d ∧ designExpiry o d.
Proof.
  unfold validateQualifiersSubset, kindsSubset, designExpiry.
  destruct (qkinds o) as [ok|], (qkinds d) as [dk|]; simpl; try done.
  - destruct (firstKindOutside ok dk) eqn:Hf; simpl; [done|].
    pose proof (firstKindOutside_None _ _ Hf) as Hsub. intros Hv. split.
    { intros ? [= <-]. by exists dk. }
    revert Hv.
    destruct (expiresAt o) as [[x|]|], (expiresAt d) as [[y|]|]; simpl;
      try (intros _ ? [=]; fail);
      repeat (case_match; simpl; try done);
      intros _ ? [= <-] ?; try lia; eexists; split; [done|lia].
  - intros Hv. split; [by intros ? [=]|]. revert Hv.
    destruct (expiresAt o) as [[x|]|], (expiresAt d) as [[y|]|]; simpl;
      try (intros _ ? [=]; fail);
      repeat (case_match; simpl; try done);
      intros _ ? [= <-] ?; try lia; eexists; split; [done|lia].
  - intros Hv. split; [by intros ? [=]|]. revert Hv.
    destruct (expiresAt o) as [[x|]|], (expiresAt d) as [[y|]|]; simpl;
      try (intros _ ? [=]; fail);
      repeat (case_match; simpl; try done);
      intros _ ? [= <-] ?; try lia; eexists; split; [done|lia].
Qed.

Lemma parseDelegationEvent_issuer `{Tools} d oc dce :
  parseDelegationEvent d oc = Some dce -> issuer (capability dce) = issuer oc.
Proof.
  unfold parseDelegationEvent.
  destruct (negb (kind d =? DELEGATE)); [done|].
  destruct (_ || _); [done|]. by intros [= <-].
Qed.

(** C3 (as amended): a valid result of [validateDelegatedCapability]
    means that the grant [o] parses to a capability of type delegate,
    that [d] is signed by its holder, that a kinds restriction of [o] is
    matched by a kinds restriction of [d] to a subset, that a non-zero
    [expiresAt] of [o] is matched by a non-zero [expiresAt] of [d] that is
    not later, and that the returned capability has the issuer of [o]. *)
Theorem C3_delegation_subset_sound `{Tools} (d o : Event) (g : string)
    (ctx : ValidationContext) :
  valid (validateDelegatedCapability d o g ctx) = true ->
  delegationGuarantee designExpiry d o g ctx.
Proof.
  unfold delegationGuarantee, validateDelegatedCapability.
  destruct (valid (validateCapabilityEvent o g ctx)) eqn:Hv; [|done].
  destruct (validateCapabilityEvent_valid o g ctx Hv) as (ce & Hp & Hc & _).
  rewrite Hc, Hp. simpl.
  destruct (String.eqb_spec (type (capability ce)) "delegate") as [Ht|]; [|done].
  simpl. destruct (signatureOk ctx d); simpl; [|done].
  destruct (String.eqb_spec (pubkey d) (holder (capability ce))) as [Hpk|]; [|done].
  simpl. destruct (bool_decide _); [done|].
  destruct (parseDelegationEvent d (capability ce)) as [dce|] eqn:Hd; [|done].
  destruct (isCapabilityExpired _ _); [done|].
  destruct (valid (validateQualifiersSubset (capability ce) (capability dce)))
    eqn:Hs; simpl.
  - intros _. apply validateQualifiersSubset_valid in Hs as [Hk He].
    exists (capability ce), (capability dce).
    repeat split; try done. by eapply parseDelegationEvent_issuer.
  - congruence.
Qed.

(** C3 at a concrete input: a grant for kinds 9 and 10 until 200 and a
    delegation of kind 9 until 150. *)
Lemma C3_witness :
  delegationGuarantee (H := trusting) designExpiry
    delegationBounded grantBounded "group" (ctxAt 100).
Proof.
  apply (@C3_delegation_subset_sound trusting).
  vm_compute. reflexivity.
Defined.

(** C3 (as stated) fails: a grant whose expiration tag reads 0 has
    [expiresAt] set, to zero, and a delegation of it without any expiry
    is valid. *)
Lemma C3_counterexample :
  valid (validateDelegatedCapability (H := trusting)
           delegationOpen grantEpoch "group" (ctxAt 100)) = true
  ∧ expiresAt <$> (capability <$> parseCapabilityGrantEvent (H := trusting) grantEpoch)
    = Some (Some (Num 0))
  ∧ expiresAt <$> vcapability (validateDelegatedCapability (H := trusting)
                                 delegationOpen grantEpoch "group" (ctxAt 100))
    = Some None
  ∧ ¬ delegationGuarantee (H := trusting) claimedExpiry
        delegationOpen grantEpoch "group" (ctxAt 100).
Proof.
  split; [vm_compute; reflexivity|].
  split; [vm_compute; reflexivity|].
  split; [vm_compute; reflexivity|].
  intros (oc & dc & Ho & Hd & _ & _ & _ & He & _).
  vm_compute in Ho, Hd. injection Ho as <-. injection Hd as <-.
  destruct (He (Num 0) eq_refl) as (x & y & _ & Hy & _). discriminate Hy.
Qed.

(** *** Revocation *)

Lemma without_set_add_same (e : string) l :
  filter (λ i, i ≠ e) (set_add e l) = filter (λ i, i ≠ e) l.
Proof.
  unfold set_add. case_bool_decide; [done|].
  rewrite filter_app. simpl. rewrite filter_cons_False by naive_solver.
  by rewrite filter_nil, app_nil_r.
Qed.

Lemma without_set_add_ne (e i : string) l :
  i ≠ e ->
  filter (λ i, i ≠ e) (set_add i l) = set_add i (filter (λ i, i ≠ e) l).
Proof.
  intros Hne. unfold set_add.
  assert (i ∈ l <-> i ∈ filter (λ i, i ≠ e) l) as Hin.
  { rewrite list_elem_of_filter. naive_solver. }
  repeat case_bool_decide; try tauto.
  rewrite filter_app. simpl. by rewrite filter_cons_True, filter_nil.
Qed.

Lemma without_set_delete_same (e : string) l :
  filter (λ i, i ≠ e) (set_delete e l) = filter (λ i, i ≠ e) l.
Proof. unfold set_delete. rewrite list_filter_filter_l; done. Qed.

Lemma without_set_delete_ne (e r : string) l :
  filter (λ i, i ≠ e) (set_delete r l) = set_delete r (filter (λ i, i ≠ e) l).
Proof.
  unfold set_delete. rewrite !list_filter_filter.
  apply list_filter_iff. naive_solver.
Qed.

Lemma lookup_indexAdd `{Countable K} (k h : K) v idx :
  default [] (indexAdd k v idx !! h)
  = if decide (k = h) then set_add v (default [] (idx !! h))
    else default [] (idx !! h).
Proof.
  unfold indexAdd. case_decide as Hk.
  - subst. by rewrite lookup_insert_eq.
  - by rewrite lookup_insert_ne.
Qed.

Lemma lookup_indexDelete `{Countable K} (k h : K) v idx :
  default [] (indexDelete k v idx !! h)
  = if decide (k = h) then set_delete v (default [] (idx !! h))
    else default [] (idx !! h).
Proof.
  unfold indexDelete. case_decide as Hk.
  - subst. rewrite lookup_alter_eq. by destruct (idx !! h).
  - by rewrite lookup_alter_ne.
Qed.

Lemma holderEntries_omap st h now :
  holderEntries st h now = omap (entryOf st now) (holderIds st h).
Proof. unfold holderEntries, holderIds. by destruct (byHolder st !! h). Qed.

Lemma getCapabilitiesForHolder_entries st h now :
  getCapabilitiesForHolder st h now = (holderEntries st h now).*2.
Proof.
  unfold getCapabilitiesForHolder, holderEntries.
  destruct (byHolder st !! h) as [ids|]; [|done].
  induction ids as [|i ids IH]; [done|]. simpl.
  destruct (capabilities st !! i) as [ce|]; simpl; [|done].
  destruct (negb _); simpl; [|done]. by f_equal.
Qed.

Lemma holderEntries_stored st h now e c :
  (e, c) ∈ holderEntries st h now ->
  ∃ ce, capabilities st !! e = Some ce ∧ capability ce = c.
Proof.
  rewrite holderEntries_omap, list_elem_of_omap.
  intros (i & _ & Hi). unfold entryOf in Hi.
  destruct (capabilities st !! i) as [ce|] eqn:Hce; [|done].
  destruct (negb _); [|done]. injection Hi as <- <-. eauto.
Qed.

Lemma authLoop_witness (entries : list (string * Capability))
    pubkey action ctx t :
  witness (authLoop entries.*2 pubkey action ctx t)
  = snd <$> List.find (λ p, loopBody p.2 pubkey action ctx t) entries.
Proof.
  induction entries as [|[i c] entries IH]; [done|]. simpl.
  destruct (loopBody c pubkey action ctx t); [done|]. apply IH.
Qed.

(** The witness of the store's [checkAuthorization] is the capability of
    the authorizing entry. *)
Lemma storeCheckAuthorization_witness st pubkey action ctx now :
  witness (storeCheckAuthorization st pubkey action ctx now)
  = snd <$> authorizingEntry (holderEntries st pubkey now) pubkey action ctx now.
Proof.
  unfold storeCheckAuthorization, checkAuthorization, authorizingEntry.
  rewrite getCapabilitiesForHolder_entries. apply authLoop_witness.
Qed.

Lemma find_filter_keep {A} (f : A -> bool) (P : A -> Prop)
    `{∀ x, Decision (P x)} (l : list A) (x : A) :
  P x -> List.find f l = Some x -> List.find f (filter P l) = Some x.
Proof.
  intros HP. induction l as [|y l IH]; [done|]. simpl.
  destruct (f y) eqn:Hy.
  - intros [= ->]. rewrite filter_cons_True by done. simpl. by rewrite Hy.
  - intros Hf. destruct (decide (P y)).
    + rewrite filter_cons_True by done. simpl. rewrite Hy. by apply IH.
    + rewrite filter_cons_False by done. by apply IH.
Qed.

Lemma validateCapabilityEvent_revoked `{Tools} ev g now (revoked : gset string) :
  id ev ∈ revoked ->
  valid (validateCapabilityEvent ev g
           {| currentTime := now; revokedEventIds := revoked;
              verifySignature := None |}) = false.
Proof.
  intros Hin. unfold validateCapabilityEvent. simpl.
  repeat (case_match; simpl; try done).
  exfalso. by eapply bool_decide_eq_false_1.
Qed.

(** Re-adding a revoked grant is refused and leaves the store as it is. *)
Lemma addCapability_revoked `{Tools} st ev g now :
  id ev ∈ revokedIds st ->
  valid (addCapability st ev g now).1 = false ∧ (addCapability st ev g now).2 = st.
Proof.
  intros Hin. unfold addCapability.
  pose proof (validateCapabilityEvent_revoked ev g now _ Hin) as Hv.
  rewrite Hv. simpl. by rewrite Hv.
Qed.

Lemma validateCapabilityEvent_other `{Tools} ev g now e (revoked : gset string) :
  id ev ≠ e ->
  validateCapabilityEvent ev g
    {| currentTime := now; revokedEventIds := {[ e ]} ∪ revoked;
       verifySignature := None |}
  = validateCapabilityEvent ev g
      {| currentTime := now; revokedEventIds := revoked;
         verifySignature := None |}.
Proof.
  intros Hne. unfold validateCapabilityEvent. simpl.
  assert (bool_decide (id ev ∈ {[e]} ∪ revoked) = bool_decide (id ev ∈ revoked))
    as ->; [|done].
  apply bool_decide_ext. set_solver.
Qed.

Lemma revokedView_addCapability `{Tools} e s1 s0 ev g now :
  revokedView e s1 s0 ->
  revokedView e (addCapability s1 ev g now).2 (addCapability s0 ev g now).2
  ∧ (id ev ≠ e -> (addCapability s1 ev g now).1 = (addCapability s0 ev g now).1).
Proof.
  intros (Hr & Hc & Hh).
  destruct (decide (id ev = e)) as [He|He].
  - split; [|done].
    destruct (addCapability_revoked s1 ev g now) as [_ ->].
    { rewrite Hr, He. set_solver. }
    unfold addCapability. repeat case_match; simpl; try done.
    split; [done|]. split.
    + simpl. rewrite Hc, <- He. by rewrite delete_insert_eq.
    + intros h. unfold holderIds in *. simpl. rewrite lookup_indexAdd.
      case_decide; [|done]. subst. by rewrite without_set_add_same.
  - unfold addCapability. rewrite Hr, validateCapabilityEvent_other by done.
    split; [|by repeat case_match].
    repeat case_match; simpl; try done.
    split; [done|]. split.
    + simpl. rewrite Hc. by rewrite delete_insert_ne.
    + intros h. unfold holderIds in *. simpl. rewrite !lookup_indexAdd.
      case_decide; [|done]. rewrite !without_set_add_ne by done. by rewrite Hh.
Qed.

Lemma revokedView_addRevocation `{Tools} e s1 s0 ev g :
  revokedView e s1 s0 ->
  revokedView e (addRevocation s1 ev g).2 (addRevocation s0 ev g).2.
Proof.
  intros (Hr & Hc & Hh). unfold addRevocation.
  destruct (negb (pubkey ev =? g)%string); [done|].
  destruct (negb (verifyEvent ev)); [done|].
  destruct (parseRevocationEvent ev) as [r|]; [|done].
  set (rid := revokedEventId r).
  destruct (decide (rid = e)) as [He|He].
  - rewrite Hc, He, lookup_delete_eq. simpl.
    destruct (capabilities s0 !! e) as [ce|] eqn:Hce; simpl.
    + split; [simpl; rewrite Hr; set_solver|]. split; simpl.
      * by rewrite delete_delete_eq.
      * intros h. unfold holderIds in *. simpl. rewrite lookup_indexDelete.
        case_decide; [|done]. subst. by rewrite without_set_delete_same.
    + split; [simpl; rewrite Hr; set_solver|]. done.
  - rewrite Hc, lookup_delete_ne by done.
    destruct (capabilities s0 !! rid) as [ce|] eqn:Hce; simpl.
    + split; [simpl; rewrite Hr; set_solver|]. split; simpl.
      * apply delete_delete.
      * intros h. unfold holderIds in *. simpl. rewrite !lookup_indexDelete.
        case_decide; [|done]. rewrite !without_set_delete_ne. by rewrite Hh.
    + split; [simpl; rewrite Hr; set_solver|]. done.
Qed.

Lemma revokedView_run `{Tools} e ops s1 s0 :
  revokedView e s1 s0 -> revokedView e (runStore s1 ops) (runStore s0 ops).
Proof.
  revert s1 s0. induction ops as [|op ops IH]; intros s1 s0 HR; [done|].
  simpl. apply IH. destruct op; simpl; [|by apply revokedView_addRevocation|done].
  by apply revokedView_addCapability.
Qed.

(** An accepted revocation of [e] is the revoked view of the store it
    was applied to. *)
Lemma revokedView_init `{Tools} st rev g e :
  (addRevocation st rev g).1 = true ->
  revokedEventId <$> parseRevocationEvent rev = Some e ->
  revokedView e (addRevocation st rev g).2 st.
Proof.
  unfold addRevocation.
  destruct (negb (pubkey rev =? g)%string); [done|].
  destruct (negb (verifyEvent rev)); [done|].
  destruct (parseRevocationEvent rev) as [r|]; [|done].
  intros _ [= <-].
  destruct (capabilities st !! revokedEventId r) as [ce|] eqn:Hce; simpl.
  - split; [done|]. split; [done|].
    intros h. unfold holderIds. simpl. rewrite lookup_indexDelete.
    case_decide; [|done]. by rewrite without_set_delete_same.
  - split; [done|]. split; [|done]. simpl. by rewrite delete_id.
Qed.

Lemma revokedView_entries e s1 s0 h now :
  revokedView e s1 s0 ->
  holderEntries s1 h now = filter (λ p, p.1 ≠ e) (holderEntries s0 h now).
Proof.
  intros (_ & Hc & Hh). rewrite !holderEntries_omap.
  specialize (Hh h). revert Hh.
  generalize (holderIds s1 h) as l1. generalize (holderIds s0 h) as l0.
  assert (entryOf s1 now e = None) as He1.
  { unfold entryOf. by rewrite Hc, lookup_delete_eq. }
  assert (∀ i, i ≠ e -> entryOf s1 now i = entryOf s0 now i) as Hne.
  { intros i Hi. unfold entryOf. by rewrite Hc, lookup_delete_ne. }
  assert (∀ i p, entryOf s0 now i = Some p -> p.1 = i) as Hfst.
  { intros i p. unfold entryOf. repeat case_match; try done. by intros [= <-]. }
  assert (∀ l : list string,
            omap (entryOf s1 now) l
            = filter (λ p, p.1 ≠ e)
                (omap (entryOf s0 now) (filter (λ i, i ≠ e) l))) as Hleft.
  { induction l as [|i l IH]; [done|]. simpl.
    destruct (decide (i = e)) as [->|Hi].
    - rewrite He1, filter_cons_False by naive_solver. apply IH.
    - rewrite Hne, filter_cons_True by done. simpl.
      destruct (entryOf s0 now i) as [p|] eqn:Hp; [|apply IH].
      rewrite filter_cons_True by (by rewrite (Hfst i p)). f_equal. apply IH. }
  assert (∀ l : list string,
            filter (λ p : string * Capability, p.1 ≠ e)
              (omap (entryOf s0 now) (filter (λ i, i ≠ e) l))
            = filter (λ p, p.1 ≠ e) (omap (entryOf s0 now) l)) as Hright.
  { induction l as [|i l IH]; [done|]. simpl.
    destruct (decide (i = e)) as [->|Hi].
    - rewrite filter_cons_False by naive_solver.
      destruct (entryOf s0 now e) as [p|] eqn:Hp; [|apply IH].
      rewrite filter_cons_False; [apply IH|].
      rewrite (Hfst e p) by done. naive_solver.
    - rewrite filter_cons_True by done. simpl.
      destruct (entryOf s0 now i) as [p|] eqn:Hp; [|apply IH].
      rewrite !filter_cons_True by (by rewrite (Hfst i p)). f_equal. apply IH. }
  intros l0 l1 Heq. rewrite Hleft, Heq. apply Hright.
Qed.

(** C1: once [addRevocation] has accepted a revocation that references
    the grant id [e], then after any further sequence of [addCapability],
    [addRevocation] and query operations (i) the witness of the store's
    [checkAuthorization] is the capability of a stored grant whose id is
    not [e], (ii) adding a grant with id [e] is refused and changes
    nothing, (iii) a grant with another id gets the result it would get
    had the revocation not happened, and (iv) the grants a holder
    authorizes with are those of the run without the revocation, in the
    same order, less the grant [e]: whichever other grant authorizes an
    action there authorizes it here. *)
Theorem C1_revocation_permanent_and_targeted `{Tools}
    (st : CapabilityStore) (rev : Event) (g e : string) (ops : list StoreOp)
    (pubkey action : string) (ctx : AuthContext) (now : Z)
    (ev : Event) (g' : string) (e' : string) (c : Capability) :
  (addRevocation st rev g).1 = true ->
  revokedEventId <$> parseRevocationEvent rev = Some e ->
  let s := runStore (addRevocation st rev g).2 ops in
  let s0 := runStore st ops in
  (witness (storeCheckAuthorization s pubkey action ctx now) = Some c ->
     ∃ i ce, i ≠ e ∧ capabilities s !! i = Some ce ∧ capability ce = c
             ∧ authorizingEntry (holderEntries s pubkey now) pubkey action ctx now
               = Some (i, c))
  ∧ (id ev = e ->
       valid (addCapability s ev g' now).1 = false
       ∧ (addCapability s ev g' now).2 = s)
  ∧ (id ev ≠ e -> (addCapability s ev g' now).1 = (addCapability s0 ev g' now).1)
  ∧ holderEntries s pubkey now
    = filter (λ p, p.1 ≠ e) (holderEntries s0 pubkey now)
  ∧ (e' ≠ e ->
       authorizingEntry (holderEntries s0 pubkey now) pubkey action ctx now
       = Some (e', c) ->
       authorizingEntry (holderEntries s pubkey now) pubkey action ctx now
       = Some (e', c)).
Proof.
  intros Hacc Hid s s0.
  assert (revokedView e s s0) as HR.
  { apply revokedView_run. by apply revokedView_init. }
  pose proof (revokedView_entries e s s0 pubkey now HR) as Hent.
  destruct HR as (Hr & Hc & Hh).
  split; [|split; [|split; [|split]]].
  - rewrite storeCheckAuthorization_witness.
    destruct (authorizingEntry _ _ _ _ _) as [[i c']|] eqn:Hf; [|done].
    simpl. intros [= ->]. unfold authorizingEntry in Hf.
    pose proof (find_some _ _ Hf) as [Hin _].
    apply list_elem_of_In, holderEntries_stored in Hin as (ce & Hce & Hcap).
    exists i, ce. repeat split; try done.
    intros ->. by rewrite Hc, lookup_delete_eq in Hce.
  - intros He. apply addCapability_revoked. rewrite Hr, He. set_solver.
  - intros He.
    by apply (revokedView_addCapability e s s0 ev g' now).
  - done.
  - intros He Hf. rewrite Hent. unfold authorizingEntry in *.
    by apply find_filter_keep.
Qed.

(** C1 at a concrete input: alice's grant [e1] is revoked, a second
    grant [e2] is added afterwards and authorizes her. *)
Lemma C1_witness :
  let s := runStore (H := trusting)
             (addRevocation (H := trusting) storeWithAlice revokeAlice "group").2
             [OpAddCapability grantAlice2 "group" 20] in
  let s0 := runStore (H := trusting) storeWithAlice
              [OpAddCapability grantAlice2 "group" 20] in
  (witness (storeCheckAuthorization s "alice" "write" anyContext 30)
   = Some (plainCap "write" "alice") ->
     ∃ i ce, i ≠ "e1" ∧ capabilities s !! i = Some ce
             ∧ capability ce = plainCap "write" "alice"
             ∧ authorizingEntry (holderEntries s "alice" 30) "alice" "write"
                 anyContext 30 = Some (i, plainCap "write" "alice"))
  ∧ (id grantAlice = "e1" ->
       valid (addCapability (H := trusting) s grantAlice "group" 30).1 = false
       ∧ (addCapability (H := trusting) s grantAlice "group" 30).2 = s)
  ∧ (id grantAlice ≠ "e1" ->
       (addCapability (H := trusting) s grantAlice "group" 30).1
       = (addCapability (H := trusting) s0 grantAlice "group" 30).1)
  ∧ holderEntries s "alice" 30
    = filter (λ p, p.1 ≠ "e1") (holderEntries s0 "alice" 30)
  ∧ ("e2" ≠ "e1" ->
       authorizingEntry (holderEntries s0 "alice" 30) "alice" "write" anyContext 30
       = Some ("e2", plainCap "write" "alice") ->
       authorizingEntry (holderEntries s "alice" 30) "alice" "write" anyContext 30
       = Some ("e2", plainCap "write" "alice")).
Proof.
  apply (@C1_revocation_permanent_and_targeted trusting storeWithAlice
           revokeAlice "group" "e1" [OpAddCapability grantAlice2 "group" 20]
           "alice" "write" anyContext 30 grantAlice "group" "e2"
           (plainCap "write" "alice")).
  - vm_compute. reflexivity.
  - vm_compute. reflexivity.
Defined.

End CapProofs.

(** ** Relay: queries *)

Module QueryProofs.
Import JS Nostr Relay RelaySpec Examples.

(** *** The sort *)

Lemma insertDesc_perm x l : insertDesc x l ≡ₚ x :: l.
Proof.
  induction l as [|y l IH]; [done|]. simpl.
  destruct (created_at x <? created_at y); [|done].
  rewrite IH. apply Permutation_swap.
Qed.

Lemma sortDesc_perm l : sortDesc l ≡ₚ l.
Proof.
  induction l as [|x l IH]; [done|]. simpl.
  rewrite insertDesc_perm. by rewrite IH.
Qed.

Lemma insertDesc_sorted x l : sortedDesc l -> sortedDesc (insertDesc x l).
Proof.
  unfold sortedDesc. induction 1 as [|y l Hs IH Hall]; simpl.
  - repeat constructor.
  - destruct (Z.ltb_spec (created_at x) (created_at y)) as [Hlt|Hge].
    + constructor; [done|].
      rewrite insertDesc_perm. constructor; [unfold notNewer; lia|done].
    + constructor; [by constructor|].
      constructor; [done|].
      eapply Forall_impl; [exact Hall|]. unfold notNewer. intros z. lia.
Qed.

Lemma sortDesc_sorted l : sortedDesc (sortDesc l).
Proof.
  induction l as [|x l IH]; simpl; [constructor|]. by apply insertDesc_sorted.
Qed.

Lemma sortedDesc_take n l : sortedDesc l -> sortedDesc (take n l).
Proof.
  unfold sortedDesc. intros Hs. rewrite <- (take_drop n l) in Hs.
  by apply StronglySorted_app_1_l in Hs.
Qed.

Lemma slice0_pos {A} (l : list A) n : 0 < n -> slice0 l n = take (Z.to_nat n) l.
Proof. intros Hn. unfold slice0. destruct (Z.ltb_spec n 0); [lia|done]. Qed.

Lemma query_unlimited st f : query st (unlimited f) = sortDesc (matching st f).
Proof. done. Qed.

(** *** Maps and sets in insertion order *)

Lemma map_get_set {V} (k i : string) (v : V) m :
  map_get i (map_set k v m) = if decide (k = i) then Some v else map_get i m.
Proof.
  induction m as [|[k' v'] m IH]; simpl.
  - destruct (String.eqb_spec k i); case_decide; congruence.
  - destruct (String.eqb_spec k' k) as [->|Hk]; simpl.
    + destruct (String.eqb_spec k i); case_decide; congruence.
    + rewrite IH. destruct (String.eqb_spec k' i); case_decide; congruence.
Qed.

Lemma map_get_delete {V} (k i : string) (m : list (string * V)) :
  map_get i (map_delete k m) = if decide (k = i) then None else map_get i m.
Proof.
  unfold map_delete. induction m as [|[k' v'] m IH]; simpl.
  - by case_decide.
  - destruct (decide (k' = k)) as [->|Hk].
    + rewrite filter_cons_False by naive_solver. rewrite IH.
      destruct (String.eqb_spec k i); case_decide; congruence.
    + rewrite filter_cons_True by done. simpl. rewrite IH.
      destruct (String.eqb_spec k' i); case_decide; congruence.
Qed.

Lemma map_get_keys {V} (i : string) (m : list (string * V)) v :
  map_get i m = Some v -> i ∈ map_keys m.
Proof.
  unfold map_keys. induction m as [|[k' v'] m IH]; simpl; [done|].
  destruct (String.eqb_spec k' i) as [->|Hk]; [by left|].
  intros Hg. right. by apply IH.
Qed.

Lemma elem_of_set_add `{EqDecision A} (x y : A) s :
  x ∈ set_add y s <-> x = y ∨ x ∈ s.
Proof.
  unfold set_add. case_bool_decide; [naive_solver|].
  rewrite elem_of_app, list_elem_of_singleton. naive_solver.
Qed.

Lemma elem_of_set_delete `{EqDecision A} (x y : A) s :
  x ∈ set_delete y s <-> x ≠ y ∧ x ∈ s.
Proof. unfold set_delete. by rewrite list_elem_of_filter. Qed.

Lemma elem_of_foldl_set_add `{EqDecision A} (x : A) acc l :
  x ∈ foldl (λ s y, set_add y s) acc l <-> x ∈ acc ∨ x ∈ l.
Proof.
  revert acc. induction l as [|y l IH]; intros acc; simpl.
  - rewrite elem_of_nil. naive_solver.
  - rewrite IH, elem_of_set_add, elem_of_cons. naive_solver.
Qed.

Lemma elem_of_set_of_list `{EqDecision A} (x : A) l :
  x ∈ set_of_list l <-> x ∈ l.
Proof.
  unfold set_of_list. rewrite elem_of_foldl_set_add, elem_of_nil. naive_solver.
Qed.

Lemma elem_of_intersection (x : string) a b :
  x ∈ intersection a b <-> x ∈ a ∧ x ∈ b.
Proof. unfold intersection. rewrite list_elem_of_filter. naive_solver. Qed.

Lemma indexed_indexAdd `{Countable K} (k k' : K) v i idx :
  indexed (Cap.indexAdd k v idx) k' i <-> (k = k' ∧ i = v) ∨ indexed idx k' i.
Proof.
  unfold indexed. rewrite CapProofs.lookup_indexAdd.
  case_decide; [rewrite elem_of_set_add|]; naive_solver.
Qed.

Lemma indexed_indexDelete `{Countable K} (k k' : K) v i idx :
  indexed (Cap.indexDelete k v idx) k' i
  <-> indexed idx k' i ∧ ¬ (k = k' ∧ i = v).
Proof.
  unfold indexed. rewrite CapProofs.lookup_indexDelete.
  case_decide; [rewrite elem_of_set_delete|]; naive_solver.
Qed.

Lemma elem_of_collect `{Countable K} (idx : gmap K (list string)) keys i :
  i ∈ collect idx keys <-> ∃ k, k ∈ keys ∧ indexed idx k i.
Proof.
  unfold collect.
  assert (∀ acc,
    i ∈ foldl (λ acc k, match idx !! k with
                        | Some ids => foldl (λ acc' x, set_add x acc') acc ids
                        | None => acc
                        end) acc keys
    <-> i ∈ acc ∨ ∃ k, k ∈ keys ∧ indexed idx k i) as Hgen.
  { induction keys as [|k keys IH]; intros acc; simpl.
    - split; [by left|]. intros [?|(k & Hk & _)]; [done|]. inversion Hk.
    - rewrite IH. unfold indexed.
      destruct (idx !! k) as [ids|] eqn:Hidx.
      + rewrite elem_of_foldl_set_add. split.
        * intros [[?|?]|(k' & Hk' & Hi)]; [by left| |].
          -- right. exists k. rewrite Hidx. split; [by left|done].
          -- right. exists k'. split; [by right|done].
        * intros [?|(k' & Hk' & Hi)]; [by left; left|].
          apply elem_of_cons in Hk' as [->|Hk'].
          -- rewrite Hidx in Hi. by left; right.
          -- right. by exists k'.
      + split.
        * intros [?|(k' & Hk' & Hi)]; [by left|].
          right. exists k'. split; [by right|done].
        * intros [?|(k' & Hk' & Hi)]; [by left|].
          apply elem_of_cons in Hk' as [->|Hk'].
          -- rewrite Hidx in Hi. inversion Hi.
          -- right. by exists k'. }
  rewrite Hgen, elem_of_nil. naive_solver.
Qed.

(** *** The indexes follow the stored events *)

Lemma groupOf_truthy ev g :
  groupOf ev = Some g
  <-> truthy_str (getGroupId ev) = true ∧ default "" (getGroupId ev) = g.
Proof.
  unfold groupOf. destruct (truthy_str (getGroupId ev)) eqn:Ht.
  - destruct (getGroupId ev); simpl; naive_solver.
  - naive_solver.
Qed.

Lemma storeInv_empty univ : storeInv univ emptyEventStore.
Proof.
  unfold storeInv, indexed. simpl.
  repeat split; intros; try done;
    match goal with H : _ ∈ default [] (∅ !! _) |- _ =>
      rewrite lookup_empty in H; inversion H end.
Qed.

Lemma storeInv_add univ st ev :
  ev ∈ univ -> storeInv univ st -> storeInv univ (add st ev).
Proof.
  intros Hev (Hget & Hauthor & Hkind & Hgroup).
  unfold storeInv, add. simpl. split; [|split; [|split]].
  - intros i ev'. rewrite map_get_set. case_decide as Hi.
    + intros [= <-]. split; [done|]. split; [done|].
      rewrite !indexed_indexAdd. split; [by left|]. split; [by left|].
      intros g Hg. apply groupOf_truthy in Hg as [-> <-].
      apply indexed_indexAdd. by left.
    + intros Hold. destruct (Hget i ev' Hold) as (? & ? & ? & ? & Hg).
      rewrite !indexed_indexAdd.
      split; [done|]. split; [done|]. split; [by right|]. split; [by right|].
      intros g Hgr. destruct (truthy_str (getGroupId ev)); [|by apply Hg].
      apply indexed_indexAdd. right. by apply Hg.
  - intros a i. rewrite indexed_indexAdd. intros [[<- ->]|Hold]; [|by apply Hauthor].
    by exists ev.
  - intros k i. rewrite indexed_indexAdd. intros [[<- ->]|Hold]; [|by apply Hkind].
    by exists ev.
  - intros g i. destruct (truthy_str (getGroupId ev)) eqn:Ht; [|by apply Hgroup].
    rewrite indexed_indexAdd. intros [[<- ->]|Hold]; [|by apply Hgroup].
    exists ev. split; [done|]. split; [done|]. by apply groupOf_truthy.
Qed.

Lemma storeInv_delete univ st eventId :
  storeInv univ st -> storeInv univ (delete st eventId).2.
Proof.
  intros (Hget & Hauthor & Hkind & Hgroup). unfold delete.
  destruct (map_get eventId (events st)) as [ev0|] eqn:H0; [|done].
  unfold storeInv. simpl. split; [|split; [|split]].
  - intros i ev'. rewrite map_get_delete. case_decide as Hi; [done|].
    intros Hold. destruct (Hget i ev' Hold) as (? & ? & ? & ? & Hg).
    rewrite !indexed_indexDelete.
    split; [done|]. split; [done|].
    split; [split; [done|intros [_ ?]; congruence]|].
    split; [split; [done|intros [_ ?]; congruence]|].
    intros g Hgr. destruct (truthy_str (getGroupId ev0)); [|by apply Hg].
    apply indexed_indexDelete. split; [by apply Hg|intros [_ ?]; congruence].
  - intros a i. rewrite indexed_indexDelete. intros [Hold _]. by apply Hauthor.
  - intros k i. rewrite indexed_indexDelete. intros [Hold _]. by apply Hkind.
  - intros g i. destruct (truthy_str (getGroupId ev0)); [|by apply Hgroup].
    rewrite indexed_indexDelete. intros [Hold _]. by apply Hgroup.
Qed.


Lemma storeInv_run univ ops st :
  (∀ ev, ev ∈ addedEvents ops -> ev ∈ univ) ->
  storeInv univ st -> storeInv univ (foldl stepEventStore st ops).
Proof.
  revert st. induction ops as [|op ops IH]; intros st Hsub Hinv; [done|].
  simpl. apply IH.
  - intros ev Hev. apply Hsub. destruct op; simpl; [by right|done].
  - destruct op as [ev|i]; simpl.
    + apply storeInv_add; [|done]. apply Hsub. simpl. by left.
    + by apply storeInv_delete.
Qed.

(** Every store the operations build keeps its indexes in step. *)
Lemma storeInv_reachable ops : storeInv (addedEvents ops) (runEventStore ops).
Proof. apply storeInv_run; [done|apply storeInv_empty]. Qed.

(** *** Filter correctness *)

Lemma elem_of_matching st f ev :
  ev ∈ matching st f
  <-> ∃ i, i ∈ candidates st f ∧ map_get i (events st) = Some ev
           ∧ matchesFilter ev f = true.
Proof.
  unfold matching. rewrite list_elem_of_omap. split.
  - intros (i & Hi & Hev).
    destruct (map_get i (events st)) as [ev'|] eqn:Hg; [|done].
    destruct (matchesFilter ev' f) eqn:Hm; [|done].
    injection Hev as ->. by exists i.
  - intros (i & Hi & Hg & Hm). exists i. by rewrite Hg, Hm.
Qed.

Lemma existsb_tag (values : list (option string)) (l : list string) :
  existsb (λ e, bool_decide (Some e ∈ values)) l = true
  <-> ∃ e, e ∈ l ∧ Some e ∈ values.
Proof.
  rewrite existsb_exists. split.
  - intros (e & Hin & He). apply bool_decide_eq_true in He.
    exists e. split; [by apply list_elem_of_In|done].
  - intros (e & Hin & He). exists e. split; [by apply list_elem_of_In|].
    by apply bool_decide_eq_true.
Qed.

(** Decides every [some] test over the tags that is left in the goal. *)
Ltac case_tag_clauses :=
  repeat match goal with
         | |- context [existsb ?g ?l] =>
             let E := fresh "E" in
             destruct (existsb g l) eqn:E; simpl;
             [apply existsb_tag in E
             |apply not_true_iff_false in E; rewrite existsb_tag in E]
         end.

Lemma matchesFilter_true ev f :
  matchesFilter ev f = true
  <-> (∀ s, since f = Some s -> s <= created_at ev)
      ∧ (∀ u, until f = Some u -> created_at ev <= u)
      ∧ (∀ l, clause (tag_e f) = Some l -> ∃ e, e ∈ l ∧ Some e ∈ tagValues ev "e")
      ∧ (∀ l, clause (tag_p f) = Some l -> ∃ p, p ∈ l ∧ Some p ∈ tagValues ev "p").
Proof.
  unfold matchesFilter.
  destruct (since f) as [s|]; simpl.
  - destruct (Z.ltb_spec (created_at ev) s) as [Hlt|Hge].
    { split; [done|]. intros (Hs & _). specialize (Hs s eq_refl). lia. }
    revert Hge. generalize s. clear s. intros s Hs.
    assert (∀ s0, Some s = Some s0 -> s0 <= created_at ev) as Hsince
      by (by intros ? [= <-]).
    clear Hs.
    destruct (until f) as [u|]; simpl.
    + destruct (Z.ltb_spec u (created_at ev)) as [Hlt|Hge].
      { split; [done|]. intros (_ & Hu & _). specialize (Hu u eq_refl). lia. }
      assert (∀ u0, Some u = Some u0 -> created_at ev <= u0) as Huntil
        by (by intros ? [= <-]).
      destruct (clause (tag_e f)) as [es|], (clause (tag_p f)) as [ps|]; simpl;
        case_tag_clauses; naive_solver.
    + destruct (clause (tag_e f)) as [es|], (clause (tag_p f)) as [ps|]; simpl;
        case_tag_clauses; naive_solver.
  - destruct (until f) as [u|]; simpl.
    + destruct (Z.ltb_spec u (created_at ev)) as [Hlt|Hge].
      { split; [done|]. intros (_ & Hu & _). specialize (Hu u eq_refl). lia. }
      assert (∀ u0, Some u = Some u0 -> created_at ev <= u0) as Huntil
        by (by intros ? [= <-]).
      destruct (clause (tag_e f)) as [es|], (clause (tag_p f)) as [ps|]; simpl;
        case_tag_clauses; naive_solver.
    + destruct (clause (tag_e f)) as [es|], (clause (tag_p f)) as [ps|]; simpl;
        case_tag_clauses; naive_solver.
Qed.

Lemma candidates_spec st f i :
  i ∈ candidates st f
  <-> (∀ l, clause (ids f) = Some l -> i ∈ l ∧ map_has i (events st) = true)
      ∧ (∀ l, clause (tag_h f) = Some l -> i ∈ collect (byGroup st) l)
      ∧ (∀ l, clause (authors f) = Some l -> i ∈ collect (byAuthor st) l)
      ∧ (∀ l, clause (kinds f) = Some l -> i ∈ collect (byKind st) l)
      ∧ (clause (ids f) = None -> clause (tag_h f) = None ->
         clause (authors f) = None -> clause (kinds f) = None ->
         i ∈ map_keys (events st)).
Proof.
  unfold candidates, narrow.
  destruct (clause (ids f)) as [li|], (clause (tag_h f)) as [lh|],
           (clause (authors f)) as [la|], (clause (kinds f)) as [lk|];
    rewrite ?elem_of_intersection, ?elem_of_set_of_list, ?list_elem_of_filter;
    naive_solver.
Qed.

Lemma map_has_get {V} (i : string) (m : list (string * V)) v :
  map_get i m = Some v -> map_has i m = true.
Proof. intros Hg. unfold map_has. rewrite Hg. by apply bool_decide_eq_true. Qed.

(** With indexes in step and ids that determine the indexed fields, an
    index holds a stored event exactly under its own key. *)
Lemma collect_stored univ st ev :
  consistentIds univ -> storeInv univ st ->
  map_get (id ev) (events st) = Some ev ->
  (∀ l, id ev ∈ collect (byAuthor st) l <-> pubkey ev ∈ l)
  ∧ (∀ l, id ev ∈ collect (byKind st) l <-> kind ev ∈ l)
  ∧ (∀ l, id ev ∈ collect (byGroup st) l <-> ∃ g, g ∈ l ∧ groupOf ev = Some g).
Proof.
  intros Hcons (Hget & Hauthor & Hkind & Hgroup) Hev.
  destruct (Hget _ _ Hev) as (_ & Hu & Ha & Hk & Hg).
  split; [|split]; intros l; rewrite elem_of_collect.
  - split.
    + intros (a & Hin & Hidx).
      destruct (Hauthor a _ Hidx) as (ev' & Hu' & Hid & <-).
      destruct (Hcons ev' ev Hu' Hu Hid) as (Heq & _ & _). by rewrite <- Heq.
    + intros Hin. by exists (pubkey ev).
  - split.
    + intros (k & Hin & Hidx).
      destruct (Hkind k _ Hidx) as (ev' & Hu' & Hid & <-).
      destruct (Hcons ev' ev Hu' Hu Hid) as (_ & Heq & _). by rewrite <- Heq.
    + intros Hin. by exists (kind ev).
  - split.
    + intros (g & Hin & Hidx). exists g. split; [done|].
      destruct (Hgroup g _ Hidx) as (ev' & Hu' & Hid & Hg').
      destruct (Hcons ev' ev Hu' Hu Hid) as (_ & _ & Heq).
      unfold groupOf in *. by rewrite <- Heq.
    + intros (g & Hin & Hgr). exists g. split; [done|]. by apply Hg.
Qed.

(** The events [query] looks at, before the sort: the stored events that
    satisfy the filter, with the [#h] clause read on the group of the
    event. *)
Lemma matching_exact univ st f ev :
  consistentIds univ -> storeInv univ st ->
  ev ∈ matching st f
  <-> get st (id ev) = Some ev ∧ satisfiesByGroup ev f.
Proof.
  intros Hcons Hinv. unfold get. rewrite elem_of_matching. split.
  - intros (i & Hcand & Hget & Hm).
    assert (id ev = i) as <-. { destruct Hinv as [Hg _]. by apply (Hg i ev). }
    split; [done|].
    destruct (collect_stored _ _ _ Hcons Hinv Hget) as (Ha & Hk & Hg).
    apply candidates_spec in Hcand as (Hids & Hh & Hau & Hki & _).
    apply matchesFilter_true in Hm as (Hs & Hu & He & Hp).
    unfold satisfiesByGroup. repeat split; try done.
    + intros l Hl. by apply Hids.
    + intros l Hl. by apply Ha, Hau.
    + intros l Hl. by apply Hk, Hki.
    + intros l Hl. by apply Hg, Hh.
  - intros (Hget & Hids & Hau & Hki & He & Hp & Hh & Hs & Hu).
    destruct (collect_stored _ _ _ Hcons Hinv Hget) as (Ha & Hk & Hg).
    exists (id ev). split; [|split; [done|]].
    + apply candidates_spec. split; [|split; [|split; [|split]]].
      * intros l Hl. split; [by apply Hids|by eapply map_has_get].
      * intros l Hl. by apply Hg, Hh.
      * intros l Hl. by apply Ha, Hau.
      * intros l Hl. by apply Hk, Hki.
      * intros _ _ _ _. by eapply map_get_keys.
    + apply matchesFilter_true. done.
Qed.

Lemma find_Some_elem {A} (P : A -> bool) (l : list A) (x : A) :
  List.find P l = Some x -> x ∈ l ∧ P x = true.
Proof.
  intros Hf. apply find_some in Hf as [Hin HP].
  split; [by apply list_elem_of_In|done].
Qed.

(** The group of an event is the value of one of its [h] tags. *)
Lemma groupOf_tagValues ev g :
  groupOf ev = Some g -> Some g ∈ tagValues ev "h".
Proof.
  intros Hg. apply groupOf_truthy in Hg as [Ht Hd].
  unfold getGroupId, findTag in *.
  destruct (List.find _ (tags ev)) as [t|] eqn:Hf; [|done].
  apply find_Some_elem in Hf as [Hin Hname].
  apply bool_decide_eq_true in Hname.
  unfold tagValues. apply list_elem_of_fmap. exists t. split.
  - destruct (t !! 1%nat) as [v|]; [|done]. simpl in Hd. by subst.
  - by apply list_elem_of_filter.
Qed.

Lemma satisfiesByGroup_satisfies ev f : satisfiesByGroup ev f -> satisfies ev f.
Proof.
  intros (Hids & Hau & Hki & He & Hp & Hh & Hs & Hu).
  unfold satisfies. repeat split; try done.
  intros l Hl. destruct (Hh l Hl) as (g & Hin & Hg).
  exists g. split; [done|]. by apply groupOf_tagValues.
Qed.

(** C7 (as amended): in a store built by [add] and [delete] calls on
    events whose ids determine author, kind and group (ids are content
    hashes), and for a filter without limit, an event is in the result of
    [query] exactly when it is stored (under its id) and satisfies every
    clause of the filter that is present and not empty, where the [#h]
    clause is satisfied when the group of the event, the non-empty value
    of its first [h] tag, is one of the listed values. What [query]
    returns satisfies the [#h] clause read like [#e] and [#p] as well,
    and for an event all of whose [h] tags carry its group the two
    readings agree. *)
Theorem C7_filter_correctness (ops : list EventStoreOp) (f : NostrFilter)
    (ev : Event) :
  consistentIds (addedEvents ops) ->
  limit f = None ->
  (ev ∈ query (runEventStore ops) f
   <-> get (runEventStore ops) (id ev) = Some ev ∧ satisfiesByGroup ev f)
  ∧ (ev ∈ query (runEventStore ops) f -> satisfies ev f)
  ∧ ((∀ g, Some g ∈ tagValues ev "h" -> groupOf ev = Some g) ->
     (ev ∈ query (runEventStore ops) f
      <-> get (runEventStore ops) (id ev) = Some ev ∧ satisfies ev f)).
Proof.
  intros Hcons Hlim.
  pose proof (storeInv_reachable ops) as Hinv.
  assert (Hq : ev ∈ query (runEventStore ops) f
               <-> get (runEventStore ops) (id ev) = Some ev
                   ∧ satisfiesByGroup ev f).
  { unfold query. rewrite Hlim, sortDesc_perm.
    by apply (matching_exact (addedEvents ops)). }
  split; [exact Hq|]. split.
  - intros Hin. apply satisfiesByGroup_satisfies. by apply Hq.
  - intros Hsingle. rewrite Hq. split.
    + intros [Hget Hsat]. split; [done|]. by apply satisfiesByGroup_satisfies.
    + intros [Hget (Hids & Hau & Hki & He & Hp & Hh & Hs & Hu)].
      split; [done|]. unfold satisfiesByGroup. repeat split; try done.
      intros l Hl. destruct (Hh l Hl) as (g & Hin & Hg).
      exists g. split; [done|]. by apply Hsingle.
Qed.

(** C7 at a concrete input: of two stored events, the one created at
    time 3 is what a filter with [since = 2] returns. *)
Lemma C7_witness :
  let ops := [OpAdd (eventAt "aa" 1); OpAdd (eventAt "bb" 3)] in
  query (runEventStore ops) (sinceFilter 2) = [eventAt "bb" 3]
  ∧ (eventAt "bb" 3 ∈ query (runEventStore ops) (sinceFilter 2)
     <-> get (runEventStore ops) (id (eventAt "bb" 3)) = Some (eventAt "bb" 3)
         ∧ satisfiesByGroup (eventAt "bb" 3) (sinceFilter 2))
  ∧ (eventAt "bb" 3 ∈ query (runEventStore ops) (sinceFilter 2)
     -> satisfies (eventAt "bb" 3) (sinceFilter 2))
  ∧ ((∀ g, Some g ∈ tagValues (eventAt "bb" 3) "h"
           -> groupOf (eventAt "bb" 3) = Some g) ->
     (eventAt "bb" 3 ∈ query (runEventStore ops) (sinceFilter 2)
      <-> get (runEventStore ops) (id (eventAt "bb" 3)) = Some (eventAt "bb" 3)
          ∧ satisfies (eventAt "bb" 3) (sinceFilter 2))).
Proof.
  split; [reflexivity|].
  apply (C7_filter_correctness
           [OpAdd (eventAt "aa" 1); OpAdd (eventAt "bb" 3)] (sinceFilter 2)
           (eventAt "bb" 3)).
  - intros x y Hx Hy Hid. simpl in Hx, Hy.
    apply elem_of_cons in Hx as [->|Hx], Hy as [->|Hy];
      repeat match goal with
             | H : _ ∈ [_] |- _ => apply list_elem_of_singleton in H as ->
             end; simpl in Hid; done.
  - reflexivity.
Defined.

(** C7 (as stated) fails: an event with the tags [h = g1] and [h = g2]
    is stored and satisfies the clause [#h] of a filter that lists [g2],
    and [query] does not return it: the index of groups holds it under
    [g1] alone. *)
Lemma C7_counterexample :
  get (runEventStore [OpAdd twoGroupsEvent]) (id twoGroupsEvent)
  = Some twoGroupsEvent
  ∧ satisfies twoGroupsEvent (groupFilter "g2")
  ∧ query (runEventStore [OpAdd twoGroupsEvent]) (groupFilter "g2") = []
  ∧ ¬ claimedFilterCorrectness (runEventStore [OpAdd twoGroupsEvent])
        (groupFilter "g2").
Proof.
  assert (Hsat : satisfies twoGroupsEvent (groupFilter "g2")).
  { unfold satisfies.
    split; [by intros ? [=]|]. split; [by intros ? [=]|].
    split; [by intros ? [=]|]. split; [by intros ? [=]|].
    split; [by intros ? [=]|]. split; [|by split; intros ? [=]].
    intros l [= <-]. exists "g2". split; [by left|].
    apply (bool_decide_unpack _). by vm_compute. }
  split; [reflexivity|]. split; [exact Hsat|]. split; [reflexivity|].
  intros Hclaim. destruct (Hclaim twoGroupsEvent) as [_ Hin].
  specialize (Hin (conj eq_refl Hsat)).
  change (query _ _) with (@nil Event) in Hin. by apply elem_of_nil in Hin.
Qed.

(** *** Order and limit *)

Lemma NoDup_set_add `{EqDecision A} (x : A) s : NoDup s -> NoDup (set_add x s).
Proof.
  intros Hs. unfold set_add. case_bool_decide as Hin; [done|].
  apply NoDup_app. split; [done|]. split; [|apply NoDup_singleton].
  intros y Hy Hy'. apply list_elem_of_singleton in Hy' as ->. done.
Qed.

Lemma NoDup_foldl_set_add `{EqDecision A} (l acc : list A) :
  NoDup acc -> NoDup (foldl (λ s x, set_add x s) acc l).
Proof.
  revert acc. induction l as [|x l IH]; intros acc Hacc; [done|].
  simpl. by apply IH, NoDup_set_add.
Qed.

Lemma NoDup_collect `{Countable K} (idx : gmap K (list string)) keys :
  NoDup (collect idx keys).
Proof.
  unfold collect.
  assert (∀ acc, NoDup acc ->
    NoDup (foldl (λ acc k, match idx !! k with
                           | Some ids => foldl (λ acc' i, set_add i acc') acc ids
                           | None => acc
                           end) acc keys)) as Hgen.
  { induction keys as [|k keys IH]; intros acc Hacc; [done|].
    simpl. apply IH. destruct (idx !! k); [|done].
    by apply NoDup_foldl_set_add. }
  apply Hgen, NoDup_nil_2.
Qed.

Lemma NoDup_candidates st f : NoDup (candidates st f).
Proof.
  assert (∀ l : list string, NoDup (set_of_list l)) as Hset.
  { intros l. apply NoDup_foldl_set_add, NoDup_nil_2. }
  assert (∀ c found, match c with Some l => NoDup l | None => True end ->
            NoDup found ->
            match narrow c found with Some l => NoDup l | None => True end)
    as Hnarrow.
  { intros [c|] found Hc Hf; simpl; [|done]. by apply NoDup_filter. }
  unfold candidates.
  set (c1 := match clause (ids f) with
             | Some l => Some (set_of_list _) | None => None end).
  assert (match c1 with Some l => NoDup l | None => True end) as H1.
  { unfold c1. destruct (clause (ids f)); [apply Hset|done]. }
  set (c2 := match clause (tag_h f) with
             | Some l => narrow c1 _ | None => c1 end).
  assert (match c2 with Some l => NoDup l | None => True end) as H2.
  { unfold c2. destruct (clause (tag_h f)); [|done].
    apply Hnarrow; [done|apply NoDup_collect]. }
  set (c3 := match clause (authors f) with
             | Some l => narrow c2 _ | None => c2 end).
  assert (match c3 with Some l => NoDup l | None => True end) as H3.
  { unfold c3. destruct (clause (authors f)); [|done].
    apply Hnarrow; [done|apply NoDup_collect]. }
  set (c4 := match clause (kinds f) with
             | Some l => narrow c3 _ | None => c3 end).
  assert (match c4 with Some l => NoDup l | None => True end) as H4.
  { unfold c4. destruct (clause (kinds f)); [|done].
    apply Hnarrow; [done|apply NoDup_collect]. }
  destruct c4; [done|apply Hset].
Qed.

Lemma NoDup_omap_inj {A B} (g : A -> option B) (l : list A) :
  (∀ x y b, g x = Some b -> g y = Some b -> x = y) ->
  NoDup l -> NoDup (omap g l).
Proof.
  intros Hinj. induction 1 as [|x l Hx Hl IH]; simpl; [constructor|].
  destruct (g x) as [b|] eqn:Hg; [|done].
  constructor; [|done].
  rewrite list_elem_of_omap. intros (y & Hy & Hgy).
  by rewrite (Hinj x y b Hg Hgy) in Hx.
Qed.

(** In a store whose events are filed under their ids, no event is
    looked at twice. *)
Lemma NoDup_matching univ st f : storeInv univ st -> NoDup (matching st f).
Proof.
  intros [Hget _]. unfold matching.
  apply NoDup_omap_inj; [|apply NoDup_candidates].
  intros i j ev Hi Hj.
  destruct (map_get i (events st)) as [x|] eqn:Hx; [|done].
  destruct (map_get j (events st)) as [y|] eqn:Hy; [|done].
  destruct (matchesFilter x f); [|done].
  destruct (matchesFilter y f); [|done].
  injection Hi as ->. injection Hj as ->.
  destruct (Hget _ _ Hx) as [<- _]. by destruct (Hget _ _ Hy) as [<- _].
Qed.

(** C10: the result of [query] is sorted by [created_at], newest first,
    and with a positive limit [n] it is the first [n] events of the
    result the same filter gives without limit, so it has at most [n]
    events. In a store built by [add] and [delete] calls, every event of
    the result is a stored event that passes the filter, no event is
    returned twice, a filter without positive limit returns every stored
    event that passes it, and with a positive limit [n] a stored event
    that passes the filter is left out only when [n] events are returned
    and none of them is older than it. *)
Theorem C10_query_sorted_and_limited (st : EventStore) (f : NostrFilter)
    (ops : list EventStoreOp) :
  sortedDesc (query st f)
  ∧ (∀ n, limit f = Some n -> 0 < n ->
       query st f = take (Z.to_nat n) (query st (unlimited f))
       ∧ Z.of_nat (length (query st f)) <= n)
  ∧ (st = runEventStore ops -> consistentIds (addedEvents ops) ->
     NoDup (query st f)
     ∧ (∀ x, x ∈ query st f -> get st (id x) = Some x ∧ satisfiesByGroup x f)
     ∧ ∀ y, get st (id y) = Some y -> satisfiesByGroup y f ->
            (y ∉ query st f) ->
            ∃ n, limit f = Some n ∧ 0 < n
                 ∧ Z.of_nat (length (query st f)) = n
                 ∧ ∀ x, x ∈ query st f -> created_at y <= created_at x).
Proof.
  rewrite query_unlimited. split; [|split].
  - unfold query. destruct (limit f) as [n|]; [|apply sortDesc_sorted].
    destruct (Z.ltb_spec 0 n); [|apply sortDesc_sorted].
    rewrite slice0_pos by done. apply sortedDesc_take, sortDesc_sorted.
  - intros n Hlim Hn. unfold query. rewrite Hlim.
    destruct (Z.ltb_spec 0 n); [|lia]. rewrite slice0_pos by done.
    split; [done|]. rewrite length_take. lia.
  - intros -> Hcons.
    pose proof (storeInv_reachable ops) as Hinv.
    set (st := runEventStore ops) in *.
    set (all := sortDesc (matching st f)).
    assert (Hall : ∀ x, x ∈ all <-> get st (id x) = Some x ∧ satisfiesByGroup x f).
    { intros x. unfold all. rewrite sortDesc_perm.
      by apply (matching_exact (addedEvents ops)). }
    assert (Hnd : NoDup all).
    { unfold all. rewrite sortDesc_perm. by eapply NoDup_matching. }
    assert (Hcases : query st f = all
                     ∨ ∃ n, limit f = Some n ∧ 0 < n
                            ∧ query st f = take (Z.to_nat n) all).
    { unfold query. fold all. destruct (limit f) as [n|]; [|by left].
      destruct (Z.ltb_spec 0 n); [|by left].
      right. exists n. by rewrite slice0_pos. }
    destruct Hcases as [->|(n & Hlim & Hn & ->)].
    { split; [done|]. split; [by intros x; apply Hall|].
      intros y Hget Hsat Hout. destruct Hout. by apply Hall. }
    split; [|split].
    + eapply sublist_NoDup; [exact Hnd|apply sublist_take].
    + intros x Hx. apply Hall. by eapply subseteq_take.
    + intros y Hget Hsat Hout.
      assert (y ∈ drop (Z.to_nat n) all) as Hdrop.
      { assert (y ∈ all) as Hy by (by apply Hall).
        rewrite <- (take_drop (Z.to_nat n) all) in Hy.
        apply elem_of_app in Hy as [Hy|Hy]; [done|done]. }
      exists n. split; [done|]. split; [done|]. split.
      * rewrite length_take.
        assert (Z.to_nat n < length all)%nat; [|lia].
        destruct (decide (Z.to_nat n < length all)%nat) as [|Hge]; [done|].
        rewrite drop_ge in Hdrop by lia. by apply elem_of_nil in Hdrop.
      * intros x Hx.
        pose proof (sortDesc_sorted (matching st f)) as Hs.
        unfold sortedDesc in Hs. fold all in Hs.
        rewrite <- (take_drop (Z.to_nat n) all) in Hs.
        by eapply (StronglySorted_app_1_elem_of notNewer).
Qed.

(** C10 at a concrete input: of the stored events created at 1, 3 and
    2, the limit 2 returns those created at 3 and 2, in this order, and
    leaves out the oldest. *)
Lemma C10_witness :
  let ops := [OpAdd (eventAt "aa" 1); OpAdd (eventAt "bb" 3);
              OpAdd (eventAt "cc" 2)] in
  let st := runEventStore ops in
  let f := anyFilter (Some 2) in
  query st f = [eventAt "bb" 3; eventAt "cc" 2]
  ∧ sortedDesc (query st f)
  ∧ (∀ n, limit f = Some n -> 0 < n ->
       query st f = take (Z.to_nat n) (query st (unlimited f))
       ∧ Z.of_nat (length (query st f)) <= n)
  ∧ (st = runEventStore ops -> consistentIds (addedEvents ops) ->
     NoDup (query st f)
     ∧ (∀ x, x ∈ query st f -> get st (id x) = Some x ∧ satisfiesByGroup x f)
     ∧ ∀ y, get st (id y) = Some y -> satisfiesByGroup y f ->
            (y ∉ query st f) ->
            ∃ n, limit f = Some n ∧ 0 < n
                 ∧ Z.of_nat (length (query st f)) = n
                 ∧ ∀ x, x ∈ query st f -> created_at y <= created_at x).
Proof.
  split; [reflexivity|].
  apply (C10_query_sorted_and_limited
           (runEventStore [OpAdd (eventAt "aa" 1); OpAdd (eventAt "bb" 3);
                           OpAdd (eventAt "cc" 2)])
           (anyFilter (Some 2))
           [OpAdd (eventAt "aa" 1); OpAdd (eventAt "bb" 3);
            OpAdd (eventAt "cc" 2)]).
Defined.

End QueryProofs.

(** ** Relay: event store *)

Module RelayProofs.
Import JS Nostr Relay RelaySpec Examples.

(** *** The window of recent id prefixes *)

Lemma length_set_add `{EqDecision A} (x : A) (s : list A) :
  (length (set_add x s) <= S (length s))%nat.
Proof.
  unfold set_add. case_bool_decide; [lia|]. rewrite length_app. simpl. lia.
Qed.

Lemma length_addPrefix prefix recent :
  (length recent <= 1000)%nat -> (length (addPrefix prefix recent) <= 1000)%nat.
Proof.
  intros Hle. unfold addPrefix, slice_last.
  pose proof (length_set_add prefix recent).
  destruct (Nat.ltb_spec 1000 (length (set_add prefix recent))).
  - rewrite length_drop. lia.
  - lia.
Qed.

Lemma recentEventPrefixes_foldl st evs :
  recentEventPrefixes (foldl add st evs)
  = foldl (λ r ev, addPrefix (idPrefix (id ev)) r) (recentEventPrefixes st) evs.
Proof. revert st. induction evs as [|ev evs IH]; intros st; [done|]. apply IH. Qed.

(** The window never holds more than 1000 prefixes. *)
Lemma recentEventPrefixes_bound evs :
  (length (recentEventPrefixes (afterAdds evs)) <= 1000)%nat.
Proof.
  unfold afterAdds. rewrite recentEventPrefixes_foldl. simpl.
  assert (∀ r, (length r <= 1000)%nat ->
               (length (foldl (λ r ev, addPrefix (idPrefix (id ev)) r) r evs)
                <= 1000)%nat) as Hgen.
  { induction evs as [|ev evs IH]; intros r Hr; [done|].
    simpl. apply IH. by apply length_addPrefix. }
  apply Hgen. simpl. lia.
Qed.

(** The window after the 1001 adds: the prefixes of events 501 to 1000. *)
Lemma window_after_1001_adds :
  recentEventPrefixes (afterAdds events1001)
  = map (λ n, idPrefix (id (eventNo n))) (seq 501 500).
Proof.
  unfold afterAdds. rewrite recentEventPrefixes_foldl.
  vm_compute. reflexivity.
Qed.

(** C9, evaluated: after the 1001 events [events1001] have been added to
    a new store, the window holds 500 prefixes; the prefixes of events
    number 1 and 500, which are among the 1000 most recently added, are
    not in it, while that of event number 501 is. The bound of 1000 on
    the size of the window holds after any sequence of adds. *)
Theorem C9_window_after_1001_adds :
  length (recentEventPrefixes (afterAdds events1001)) = 500%nat
  ∧ hasRecentEventPrefix (afterAdds events1001) (idPrefix (id (eventNo 1))) = false
  ∧ hasRecentEventPrefix (afterAdds events1001) (idPrefix (id (eventNo 500))) = false
  ∧ hasRecentEventPrefix (afterAdds events1001) (idPrefix (id (eventNo 501))) = true
  ∧ ∀ evs, (length (recentEventPrefixes (afterAdds evs)) <= 1000)%nat.
Proof.
  unfold hasRecentEventPrefix. rewrite window_after_1001_adds.
  split; [vm_compute; reflexivity|].
  split; [vm_compute; reflexivity|].
  split; [vm_compute; reflexivity|].
  split; [vm_compute; reflexivity|].
  apply recentEventPrefixes_bound.
Qed.

End RelayProofs.

(** ** Relay: duplicate submissions *)

Module ServerProofs.
Import JS Nostr Relay RelaySpec Examples.







Lemma clients_applyModeration st ev g :
  clients (applyModeration st ev g) = clients st.
Proof.
  unfold applyModeration. repeat case_match; done.
Qed.


Lemma recentEventPrefixes_delete es eventId :
  recentEventPrefixes (delete es eventId).2 = recentEventPrefixes es.
Proof. unfold delete. by case_match. Qed.






End ServerProofs.

(** ** Threshold signer *)

Module SignerProofs.
Import JS Signer SignerSpec Examples.

(** C4: with fewer shares than the threshold, [signWithShares] throws
    the error "Not enough shares: need <threshold>, got <length>" and so
    returns no signature; the message starts with "Not enough shares". *)
Theorem C4_threshold_strictness `{Frost} (seeds : nat -> Seed)
    (shares : list ShareWithPubkey) (message : string) (threshold : Z) :
  Z.of_nat (length shares) < threshold ->
  signWithShares seeds shares message threshold
  = Throw ("Not enough shares: need " +:+ pretty threshold
           +:+ ", got " +:+ pretty (length shares))
  ∧ (∀ signature, signWithShares seeds shares message threshold ≠ Ok signature)
  ∧ ∃ msg, signWithShares seeds shares message threshold = Throw msg
           ∧ String.prefix "Not enough shares" msg = true.
Proof.
  intros Hlt. unfold signWithShares.
  destruct (Z.ltb_spec (Z.of_nat (length shares)) threshold) as [_|Hge]; [|lia].
  split; [done|]. split; [done|].
  eexists. split; [done|]. done.
Qed.

(** C4 at the scenario of the specification: threshold 3, two shares. *)
Lemma C4_witness :
  signWithShares (H := checkingFrost) (λ _, ()) twoShares "deadbeef" 3
  = Throw "Not enough shares: need 3, got 2"
  ∧ (∀ signature,
       signWithShares (H := checkingFrost) (λ _, ()) twoShares "deadbeef" 3
       ≠ Ok signature)
  ∧ ∃ msg, signWithShares (H := checkingFrost) (λ _, ()) twoShares "deadbeef" 3
           = Throw msg
           ∧ String.prefix "Not enough shares" msg = true.
Proof.
  apply (@C4_threshold_strictness checkingFrost (λ _, ()) twoShares "deadbeef" 3).
  simpl. lia.
Defined.

(** *** DKG round 1 *)

Lemma processRound1Package_rejects session pkg :
  designRejected session pkg -> throws (processRound1Package session pkg).
Proof.
  unfold designRejected, throws, processRound1Package.
  intros Hrej.
  destruct (negb (bool_decide (state session = initialized))
            && negb (bool_decide (state session = round1_complete))) eqn:Hst;
    [by eexists|].
  destruct (Z.eqb_spec (idx pkg) (myIndex (config session))) as [|Hown];
    [by eexists|].
  destruct ((idx pkg <? 1) || (maxSigners (config session) <? idx pkg)) eqn:Hr;
    [by eexists|].
  destruct (Z.eqb_spec (Z.of_nat (length (vssCommitments pkg)))
              (threshold (config session))) as [Hlen|Hlen]; simpl;
    [|by eexists].
  exfalso. apply orb_false_iff in Hr as [H1 H2].
  apply Z.ltb_ge in H1, H2.
  apply andb_false_iff in Hst.
  destruct Hrej as [[Hs1 Hs2]|[?|[?|[?|?]]]]; try done; try lia.
  destruct Hst as [Hst|Hst]; apply negb_false_iff, bool_decide_eq_true in Hst;
    done.
Qed.

Lemma processRound1Package_accepts session pkg :
  ¬ designRejected session pkg ->
  processRound1Package session pkg
  = Ok {| config := config session;
          state :=
            if Z.of_nat (size (<[idx pkg := pkg]> (round1Packages session)))
               =? maxSigners (config session)
            then round1_complete else state session;
          round1Packages := <[idx pkg := pkg]> (round1Packages session);
          round2Packages := round2Packages session;
          myRound1Secret := myRound1Secret session;
          keyPackage := keyPackage session |}.
Proof.
  unfold designRejected, processRound1Package. intros Hok.
  destruct (negb (bool_decide (state session = initialized))
            && negb (bool_decide (state session = round1_complete))) eqn:Hst.
  { exfalso. apply Hok. left. apply andb_true_iff in Hst as [H1 H2].
    apply negb_true_iff, bool_decide_eq_false in H1, H2. done. }
  destruct (Z.eqb_spec (idx pkg) (myIndex (config session))) as [|Hown];
    [tauto|].
  destruct ((idx pkg <? 1) || (maxSigners (config session) <? idx pkg)) eqn:Hr.
  { exfalso. apply Hok. apply orb_true_iff in Hr as [H1|H1];
      apply Z.ltb_lt in H1; tauto. }
  destruct (Z.eqb_spec (Z.of_nat (length (vssCommitments pkg)))
              (threshold (config session))) as [Hlen|Hlen]; simpl; [done|].
  tauto.
Qed.

(** C5 (as amended): [processRound1Package] throws on a package with the
    session's own index, with an index outside [1, maxSigners] or with a
    number of commitments other than the threshold (and in a state other
    than initialized or round1_complete); every other package is
    accepted and recorded under its index, replacing a package already
    recorded there whatever its commitments; and when the packages
    recorded after the ingestion number exactly maxSigners, the state of
    the returned session is round1_complete. *)
Theorem C5_ingest_round1 (session : DKGSession) (pkg : DKGRound1Package) :
  (designRejected session pkg -> throws (processRound1Package session pkg))
  ∧ (¬ designRejected session pkg ->
       ∃ session',
         processRound1Package session pkg = Ok session'
         ∧ round1Packages session' = <[idx pkg := pkg]> (round1Packages session)
         ∧ round1Packages session' !! idx pkg = Some pkg)
  ∧ (∀ session',
       processRound1Package session pkg = Ok session' ->
       Z.of_nat (size (round1Packages session')) = maxSigners (config session') ->
       state session' = round1_complete).
Proof.
  split; [apply processRound1Package_rejects|]. split.
  - intros Hok. eexists. split; [by apply processRound1Package_accepts|].
    split; [done|]. simpl. apply lookup_insert_eq.
  - intros session' Hres.
    destruct (decide (designRejected session pkg)) as [Hrej|Hok].
    { apply processRound1Package_rejects in Hrej as [msg Hmsg]. congruence. }
    rewrite (processRound1Package_accepts _ _ Hok) in Hres.
    injection Hres as <-. simpl. intros Hsize.
    by apply Z.eqb_eq in Hsize as ->.
Qed.

(** C5 at a concrete input: the third package of a 2-of-3 session
    completes round 1. *)
Lemma C5_witness :
  ∃ session',
    processRound1Package session23with2 (packageOf 3 ["c1"; "c2"]) = Ok session'
    ∧ round1Packages session'
      = <[3 := packageOf 3 ["c1"; "c2"]]> (round1Packages session23with2)
    ∧ round1Packages session' !! 3 = Some (packageOf 3 ["c1"; "c2"]).
Proof.
  apply (proj1 (proj2 (C5_ingest_round1 session23with2 (packageOf 3 ["c1"; "c2"])))).
  unfold designRejected. simpl. intros [[? _]|[?|[?|[?|?]]]]; try done; lia.
Defined.

(** C5 (as stated) fails: a second package for index 2 with other
    commitments is not rejected, it replaces the first. *)
Lemma C5_counterexample :
  claimedRejected session23with2 (packageOf 2 ["b1"; "b2"])
  ∧ ¬ throws (processRound1Package session23with2 (packageOf 2 ["b1"; "b2"])).
Proof.
  split.
  - right. right. right. right. exists (packageOf 2 ["a1"; "a2"]).
    split; [reflexivity|]. simpl. congruence.
  - intros [msg Hmsg]. vm_compute in Hmsg. discriminate Hmsg.
Qed.

(** *** Sampling of the coefficients *)

Lemma hexValue_hexDigit (d : N) :
  (d < 16)%N -> hexValue (hexDigit d) = Some (Z.of_N d).
Proof.
  intros Hd. assert (∃ n, d = N.of_nat n ∧ (n < 16)%nat) as (n & -> & Hn).
  { exists (N.to_nat d). split; lia. }
  do 16 (destruct n as [|n]; [reflexivity|]). lia.
Qed.

Lemma hexDigits_hex (bytes : list Byte.byte) (acc : Z) :
  hexDigits (hex bytes) acc
  = Some (foldl (λ acc b, 256 * acc + Z.of_N (Byte.to_N b)) acc bytes).
Proof.
  revert acc. induction bytes as [|b bytes IH]; intros acc; [done|].
  pose proof (Byte.to_N_bounded b) as Hb.
  cbn [hex hexDigits foldl].
  rewrite hexValue_hexDigit by (apply N.Div0.div_lt_upper_bound; lia).
  rewrite hexValue_hexDigit by (apply N.mod_upper_bound; lia).
  rewrite IH. do 2 f_equal.
  rewrite N2Z.inj_div, N2Z.inj_mod.
  pose proof (Z.div_mod (Z.of_N (Byte.to_N b)) 16). lia.
Qed.

Lemma BigInt0x_hex (bytes : list Byte.byte) :
  bytes ≠ [] -> BigInt0x (hex bytes) = Some (bigEndian bytes).
Proof.
  destruct bytes as [|b bytes]; [done|]. intros _.
  unfold BigInt0x, bigEndian. rewrite <- hexDigits_hex. done.
Qed.

Lemma foldl_bytes_bound (bytes : list Byte.byte) (acc : Z) :
  0 <= acc ->
  0 <= foldl (λ acc b, 256 * acc + Z.of_N (Byte.to_N b)) acc bytes
    < (acc + 1) * 256 ^ Z.of_nat (length bytes).
Proof.
  revert acc. induction bytes as [|b bytes IH]; intros acc Hacc.
  - simpl. lia.
  - pose proof (Byte.to_N_bounded b) as Hb.
    cbn [foldl length]. rewrite Nat2Z.inj_succ, Z.pow_succ_r by lia.
    specialize (IH (256 * acc + Z.of_N (Byte.to_N b))).
    assert (0 <= 256 ^ Z.of_nat (length bytes)) by (apply Z.pow_nonneg; lia).
    nia.
Qed.

Lemma bigEndian_32 (bytes : list Byte.byte) :
  length bytes = 32%nat -> 0 <= bigEndian bytes < 2 ^ 256.
Proof.
  intros Hlen. pose proof (foldl_bytes_bound bytes 0) as Hb.
  rewrite Hlen in Hb. unfold bigEndian.
  change ((0 + 1) * 256 ^ Z.of_nat 32) with (2 ^ 256) in Hb. apply Hb. lia.
Qed.

Lemma sampleCoefficients_ok (random_bytes : nat -> list Byte.byte) i count :
  (∀ k, length (random_bytes k) = 32%nat) ->
  sampleCoefficients random_bytes i count
  = Ok (map (λ k, bigEndian (random_bytes k)) (seq i count)).
Proof.
  intros Hlen. revert i. induction count as [|count IH]; intros i; [done|].
  cbn [sampleCoefficients seq map]. rewrite BigInt0x_hex.
  - by rewrite IH.
  - intros Hnil. specialize (Hlen i). by rewrite Hnil in Hlen.
Qed.

Lemma generateRound1Package_Ok `{Frost} (random_bytes : nat -> list Byte.byte)
    (session : DKGSession) pkg session' :
  state session = initialized ->
  (∀ k, length (random_bytes k) = 32%nat) ->
  generateRound1Package random_bytes session = Ok (pkg, session') ->
  let cs := map (λ k, bigEndian (random_bytes k))
                (seq 0 (Z.to_nat (threshold (config session)))) in
  get_share_commits cs = Ok (vssCommitments pkg)
  ∧ myRound1Secret session' = Some cs.
Proof.
  intros Hst Hlen. unfold generateRound1Package. rewrite Hst. simpl.
  rewrite (sampleCoefficients_ok _ 0 _ Hlen). cbn [mbind result_bind].
  destruct (get_share_commits _) as [commits|msg] eqn:Hc; [|done].
  by intros [= <- <-].
Qed.

Lemma checkingFrost_scalarsChecked : scalarsChecked (H := checkingFrost).
Proof.
  intros cs commits. simpl.
  destruct (forallb _ cs) eqn:Hall; [|done]. intros _.
  apply Forall_forall. intros c Hc.
  rewrite forallb_forall in Hall. apply list_elem_of_In in Hc.
  specialize (Hall c Hc). apply andb_true_iff in Hall as [H1 H2].
  apply Z.ltb_lt in H1, H2. by split.
Qed.

(** C6: in state initialized, whatever 32-byte strings the random
    source returns, each of the [threshold] coefficients that
    [generateRound1Package] stores in the round-1 secret of the session
    is a valid scalar, nonzero and below the curve order. The
    coefficients are the integers the sampled strings denote, most
    significant byte first; the call hands them to [get_share_commits]
    before it stores anything, so with a library that refuses invalid
    scalars a sample with an invalid one makes the call throw and leaves
    nothing stored, and a sample the library accepts is stored as it
    is. *)
Theorem C6_round1_coefficients `{Frost} (random_bytes : nat -> list Byte.byte)
    (session : DKGSession) :
  scalarsChecked ->
  state session = initialized ->
  (∀ k, length (random_bytes k) = 32%nat) ->
  let cs := map (λ k, bigEndian (random_bytes k))
                (seq 0 (Z.to_nat (threshold (config session)))) in
  claimedRound1 random_bytes session
  ∧ (∀ pkg session',
       generateRound1Package random_bytes session = Ok (pkg, session') ->
       myRound1Secret session' = Some cs
       ∧ length cs = Z.to_nat (threshold (config session))
       ∧ Forall validScalar cs)
  ∧ (¬ Forall validScalar cs ->
       throws (generateRound1Package random_bytes session))
  ∧ (∀ commits, get_share_commits cs = Ok commits ->
       ∃ pkg session',
         generateRound1Package random_bytes session = Ok (pkg, session')
         ∧ myRound1Secret session' = Some cs
         ∧ vssCommitments pkg = commits).
Proof.
  intros Hlib Hst Hlen cs.
  assert (Hstored : ∀ pkg session',
            generateRound1Package random_bytes session = Ok (pkg, session') ->
            myRound1Secret session' = Some cs ∧ Forall validScalar cs).
  { intros pkg session' Hres.
    destruct (generateRound1Package_Ok _ _ _ _ Hst Hlen Hres) as [Hc Hs].
    split; [exact Hs|]. by eapply Hlib. }
  split; [|split; [|split]].
  - intros pkg session' cs' Hres Hsec c Hc.
    destruct (Hstored _ _ Hres) as [Hs Hall].
    rewrite Hs in Hsec. injection Hsec as <-.
    rewrite Forall_forall in Hall. by apply Hall.
  - intros pkg session' Hres. destruct (Hstored _ _ Hres) as [Hs Hall].
    split; [done|]. split; [|done].
    unfold cs. by rewrite length_map, length_seq.
  - intros Hbad.
    destruct (generateRound1Package random_bytes session) as [[pkg session']|msg]
      eqn:Hres; [|by eexists].
    destruct (Hstored _ _ eq_refl) as [_ Hall]. by destruct Hbad.
  - unfold generateRound1Package. rewrite Hst. simpl.
    rewrite (sampleCoefficients_ok _ 0 _ Hlen). cbn [mbind result_bind].
    fold cs. intros commits ->. eauto.
Qed.

(** C6 at a concrete input: a 2-of-3 session whose random source
    returns the numbers 1 and 2; the call returns and stores them. With
    a source of zero bytes the call throws. *)
Lemma C6_witness :
  (∃ pkg session',
     generateRound1Package (H := checkingFrost) countingBytes session23
     = Ok (pkg, session')
     ∧ myRound1Secret session' = Some [1; 2])
  ∧ throws (generateRound1Package (H := checkingFrost) zeroBytes session23)
  ∧ let cs := map (λ k, bigEndian (countingBytes k))
                  (seq 0 (Z.to_nat (threshold (config session23)))) in
    claimedRound1 (H := checkingFrost) countingBytes session23
    ∧ (∀ pkg session',
         generateRound1Package (H := checkingFrost) countingBytes session23
         = Ok (pkg, session') ->
         myRound1Secret session' = Some cs
         ∧ length cs = Z.to_nat (threshold (config session23))
         ∧ Forall validScalar cs)
    ∧ (¬ Forall validScalar cs ->
         throws (generateRound1Package (H := checkingFrost) countingBytes session23))
    ∧ (∀ commits, get_share_commits (Frost := checkingFrost) cs = Ok commits ->
         ∃ pkg session',
           generateRound1Package (H := checkingFrost) countingBytes session23
           = Ok (pkg, session')
           ∧ myRound1Secret session' = Some cs
           ∧ vssCommitments pkg = commits).
Proof.
  split; [|split].
  - eexists _, _. split; [vm_compute; reflexivity|]. reflexivity.
  - eexists. vm_compute. reflexivity.
  - apply (@C6_round1_coefficients checkingFrost countingBytes session23).
    + exact checkingFrost_scalarsChecked.
    + reflexivity.
    + intros k. reflexivity.
Defined.

End SignerProofs.
(** * Properties of the rest of the capability package *)

Module IssueProofs.
Import JS Nostr Cap CapSpec CapIssue CapIssueSpec Examples IssueExamples.

(** ** [String(n)] and [parseInt] *)

Lemma digit_of_pretty_N_char (d : N) :
  (d < 10)%N -> digit_of (pretty_N_char d) = Some (Z.of_N d).
Proof.
  intros Hd.
  assert (d = 0 ∨ d = 1 ∨ d = 2 ∨ d = 3 ∨ d = 4 ∨ d = 5 ∨ d = 6 ∨ d = 7
          ∨ d = 8 ∨ d = 9)%N as Hc by lia.
  destruct Hc as [->|[->|[->|[->|[->|[->|[->|[->|[->| ->]]]]]]]]]; reflexivity.
Qed.

Lemma digits_value_pretty_N_go (x : N) (s : string) :
  (0 < x)%N ->
  digits_value (pretty_N_go x s) None = digits_value s (Some (Z.of_N x)).
Proof.
  revert s. induction (N.lt_wf_0 x) as [x _ IH]. intros s Hx.
  rewrite pretty_N_go_step by done.
  assert (Hd : (x `mod` 10 < 10)%N) by (apply N.mod_lt; lia).
  destruct (decide (x `div` 10 = 0)%N) as [E|E].
  - rewrite E, pretty_N_go_0. simpl.
    rewrite digit_of_pretty_N_char by done. simpl.
    f_equal. f_equal.
    pose proof (N.div_mod x 10 ltac:(lia)). lia.
  - rewrite IH; [|apply N.div_lt; lia|by apply N.neq_0_lt_0]. simpl.
    rewrite digit_of_pretty_N_char by done. simpl.
    f_equal. f_equal.
    pose proof (N.div_mod x 10 ltac:(lia)). lia.
Qed.

(** The first character of a positive number's notation is a digit. *)
Lemma pretty_N_go_head (x : N) (s : string) :
  (0 < x)%N ->
  ∃ d r, (d < 10)%N ∧ pretty_N_go x s = String (pretty_N_char d) r.
Proof.
  revert s. induction (N.lt_wf_0 x) as [x _ IH]. intros s Hx.
  rewrite pretty_N_go_step by done.
  destruct (decide (x `div` 10 = 0)%N) as [E|E].
  - rewrite E, pretty_N_go_0. eexists _, _. split; [|done].
    apply N.mod_lt; lia.
  - apply IH; [apply N.div_lt; lia|by apply N.neq_0_lt_0].
Qed.

Lemma parseInt_digits (d : N) (r : string) :
  (d < 10)%N ->
  parseInt (String (pretty_N_char d) r)
  = match digits_value (String (pretty_N_char d) r) None with
    | Some v => Num v
    | None => NaN
    end.
Proof.
  intros Hd.
  assert (d = 0 ∨ d = 1 ∨ d = 2 ∨ d = 3 ∨ d = 4 ∨ d = 5 ∨ d = 6 ∨ d = 7
          ∨ d = 8 ∨ d = 9)%N as Hc by lia.
  destruct Hc as [->|[->|[->|[->|[->|[->|[->|[->|[->| ->]]]]]]]]]; reflexivity.
Qed.

Lemma parseInt_pretty_pos (p : positive) :
  parseInt (pretty (N.pos p)) = Num (Z.pos p)
  ∧ digits_value (pretty (N.pos p)) None = Some (Z.pos p).
Proof.
  unfold pretty, pretty_N. rewrite decide_False by done.
  destruct (pretty_N_go_head (N.pos p) "") as (d & r & Hd & E); [lia|].
  pose proof (digits_value_pretty_N_go (N.pos p) "" ltac:(lia)) as Hv.
  simpl in Hv. split; [|done].
  rewrite E in *. rewrite parseInt_digits by done. by rewrite Hv.
Qed.

(** [parseInt(String(n), 10)] is [n], for every integer [n]. *)
Lemma parseInt_pretty (z : Z) : parseInt (pretty z) = Num z.
Proof.
  destruct z as [|p|p].
  - reflexivity.
  - apply parseInt_pretty_pos.
  - change (pretty (Z.neg p)) with (String "-" (pretty (N.pos p))).
    unfold parseInt. simpl.
    by rewrite (proj2 (parseInt_pretty_pos p)).
Qed.

Lemma pretty_Z_nonempty (z : Z) : pretty z ≠ "".
Proof.
  destruct z as [|p|p]; [done| |done].
  change (pretty (Z.pos p)) with (pretty (N.pos p)).
  unfold pretty, pretty_N. rewrite decide_False by done.
  destruct (pretty_N_go_head (N.pos p) "") as (d & r & Hd & E); [lia|].
  by rewrite E.
Qed.

(** ** Looking up the tags a [create...] function pushed *)

Lemma findTag_app (l1 l2 : list (list string)) (n : string) :
  findTag (l1 ++ l2) n
  = match findTag l1 n with Some t => Some t | None => findTag l2 n end.
Proof.
  unfold findTag. induction l1 as [|t l1 IH]; simpl; [done|].
  by destruct (bool_decide (t !! 0%nat = Some n)).
Qed.

Lemma findTag_named (m n : string) (l : list (list string)) :
  named m l -> findTag l n = if bool_decide (m = n) then head l else None.
Proof.
  unfold findTag. intros Hl. destruct Hl as [|t l Ht Hl]; simpl.
  - by destruct (bool_decide (m = n)).
  - rewrite Ht. destruct (decide (m = n)) as [->|Hne].
    + by rewrite !bool_decide_eq_true_2.
    + rewrite (bool_decide_eq_false_2 (m = n)) by done.
      rewrite bool_decide_eq_false_2 by congruence.
      induction Hl as [|t' l' Ht' Hl' IH]; simpl; [done|].
      rewrite Ht'. by rewrite bool_decide_eq_false_2 by congruence.
Qed.

Lemma named_kindsTag q : named KINDS (kindsTag q).
Proof. unfold kindsTag. destruct (kinds q) as [[|??]|]; by repeat constructor. Qed.
Lemma named_requiredTagsTag `{Json} q : named REQUIRED_TAGS (requiredTagsTag q).
Proof.
  unfold requiredTagsTag. destruct (requiredTags q) as [[|??]|]; by repeat constructor.
Qed.
Lemma named_excludedTagsTag `{Json} q : named EXCLUDED_TAGS (excludedTagsTag q).
Proof.
  unfold excludedTagsTag. destruct (excludedTags q) as [[|??]|]; by repeat constructor.
Qed.
Lemma named_rateLimitTag q : named RATE_LIMIT (rateLimitTag q).
Proof. unfold rateLimitTag. destruct (rateLimit q) as [[??]|]; by repeat constructor. Qed.
Lemma named_expirationTag e : named EXPIRATION (expirationTag e).
Proof.
  unfold expirationTag. destruct e as [e|]; [|constructor].
  destruct (e =? 0); by repeat constructor.
Qed.
Lemma named_groupTag g : named GROUP (groupTag g).
Proof.
  unfold groupTag. destruct g as [g|]; [|constructor].
  destruct (truthy_str (Some g)); by repeat constructor.
Qed.

(** Decides the equalities between tag names that occur in the goal. *)
Ltac decide_names :=
  repeat match goal with
         | |- context [bool_decide (?a = ?b)] =>
             let v := eval vm_compute in (bool_decide (a = b)) in
             match v with
             | true => change (bool_decide (a = b)) with true
             | false => change (bool_decide (a = b)) with false
             end
         end.

(** The first tag of a given name among the qualifier tags. *)
Lemma findTag_qualifierTags `{Json} qualifiers n :
  findTag (qualifierTags qualifiers) n
  = match qualifiers with
    | Some q =>
        if bool_decide (KINDS = n) then head (kindsTag q)
        else if bool_decide (REQUIRED_TAGS = n) then head (requiredTagsTag q)
        else if bool_decide (EXCLUDED_TAGS = n) then head (excludedTagsTag q)
        else if bool_decide (RATE_LIMIT = n) then head (rateLimitTag q)
        else None
    | None => None
    end.
Proof.
  destruct qualifiers as [q|]; [|done]. unfold qualifierTags.
  rewrite !findTag_app.
  rewrite (findTag_named _ _ _ (named_kindsTag q)),
    (findTag_named _ _ _ (named_requiredTagsTag q)),
    (findTag_named _ _ _ (named_excludedTagsTag q)),
    (findTag_named _ _ _ (named_rateLimitTag q)).
  destruct (decide (KINDS = n)) as [<-|?].
  { rewrite bool_decide_eq_true_2 by done.
    unfold kindsTag. by destruct (kinds q) as [[|??]|]. }
  rewrite (bool_decide_eq_false_2 (KINDS = n)) by done.
  destruct (decide (REQUIRED_TAGS = n)) as [<-|?].
  { rewrite bool_decide_eq_true_2 by done.
    unfold requiredTagsTag. by destruct (requiredTags q) as [[|??]|]. }
  rewrite (bool_decide_eq_false_2 (REQUIRED_TAGS = n)) by done.
  destruct (decide (EXCLUDED_TAGS = n)) as [<-|?].
  { rewrite bool_decide_eq_true_2 by done.
    unfold excludedTagsTag. by destruct (excludedTags q) as [[|??]|]. }
  rewrite (bool_decide_eq_false_2 (EXCLUDED_TAGS = n)) by done.
  by destruct (bool_decide (RATE_LIMIT = n)).
Qed.

(** What [parseQualifiers] reads off tags whose qualifier tags are the
    ones [qualifierTags] pushed. *)
Lemma parseQualifiers_created `{Tools} `{Json} tgs qualifiers :
  (∀ n, n ∈ [KINDS; REQUIRED_TAGS; EXCLUDED_TAGS; RATE_LIMIT] ->
        findTag tgs n = findTag (qualifierTags qualifiers) n) ->
  jsonRoundTrip qualifiers ->
  (if has_keys (parseQualifiers tgs) then Some (parseQualifiers tgs) else None)
  = issuedQualifiers qualifiers.
Proof.
  intros Hfind Hjson.
  assert (parseQualifiers tgs
          = match qualifiers with
            | Some q => {| kinds := nonEmpty (kinds q);
                           requiredTags := nonEmpty (requiredTags q);
                           excludedTags := nonEmpty (excludedTags q);
                           rateLimit := rateLimit q |}
            | None => {| kinds := None; requiredTags := None;
                         excludedTags := None; rateLimit := None |}
            end) as ->; [|by destruct qualifiers].
  unfold parseQualifiers, getTagValues, getTagValue.
  rewrite !Hfind by (rewrite !elem_of_cons; auto).
  rewrite !findTag_qualifierTags.
  destruct qualifiers as [q|]; [|done].
  decide_names. f_equal.
  - unfold kindsTag. destruct (kinds q) as [[|k ks]|]; simpl; [done| |done].
    rewrite parseInt_pretty. do 2 f_equal.
    induction ks as [|k' ks IH]; simpl; [done|].
    by rewrite parseInt_pretty, IH.
  - unfold requiredTagsTag.
    destruct (requiredTags q) as [[|p ps]|] eqn:E; simpl; [done| |done].
    destruct (Hjson q (p :: ps) eq_refl) as [Hne Hparse];
      [left; by rewrite E|].
    rewrite Hparse.
    destruct (JSON_stringify (p :: ps)); [done|done].
  - unfold excludedTagsTag.
    destruct (excludedTags q) as [[|p ps]|] eqn:E; simpl; [done| |done].
    destruct (Hjson q (p :: ps) eq_refl) as [Hne Hparse];
      [right; by rewrite E|].
    rewrite Hparse.
    destruct (JSON_stringify (p :: ps)); [done|done].
  - unfold rateLimitTag. destruct (rateLimit q) as [[c p]|]; simpl; [|done].
    by rewrite !parseInt_pretty.
Qed.

Lemma parseExpiration_created tgs e :
  findTag tgs EXPIRATION = findTag (expirationTag e) EXPIRATION ->
  parseExpiration tgs = issuedExpiry e.
Proof.
  intros Hfind. unfold parseExpiration, getTagValue. rewrite Hfind.
  rewrite (findTag_named _ _ _ (named_expirationTag e)).
  rewrite bool_decide_eq_true_2 by done.
  unfold expirationTag, issuedExpiry. destruct e as [e|]; [|done].
  destruct (e =? 0); simpl; [done|].
  rewrite parseInt_pretty.
  pose proof (pretty_Z_nonempty e).
  by destruct (pretty e).
Qed.

(** ** Issuing and parsing *)

Ltac decide_tags :=
  repeat match goal with
         | |- context [bool_decide (Some ?a = Some ?b)] =>
             let v := eval vm_compute in (bool_decide (Some a = Some b)) in
             match v with
             | true => change (bool_decide (Some a = Some b)) with true
             | false => change (bool_decide (Some a = Some b)) with false
             end
         end.

Lemma findTag_created_grant `{Json} holder type qualifiers e g n :
  n ≠ HOLDER -> n ≠ TYPE ->
  findTag ([HOLDER; holder] :: [TYPE; type]
           :: (qualifierTags qualifiers ++ expirationTag e ++ groupTag g)) n
  = match findTag (qualifierTags qualifiers) n with
    | Some t => Some t
    | None => match findTag (expirationTag e) n with
              | Some t => Some t
              | None => findTag (groupTag g) n
              end
    end.
Proof.
  intros Hh Ht. rewrite <- !findTag_app. unfold findTag at 1. simpl.
  rewrite !bool_decide_eq_false_2 by congruence. done.
Qed.

(** X1: a grant made by [createCapabilityGrantEvent] and signed parses
    back to the capability that was asked for, with empty qualifier lists
    and a zero expiry dropped and the signer as issuer; a grant for an
    empty holder or an unknown type does not parse. *)
Theorem X1_grant_round_trip `{Tools} `{Json} (holder type groupPubkey : string)
    (options : option GrantOptions) (now : Z) (ev : Event) :
  jsonRoundTrip (options ≫= opt_qualifiers) ->
  finalized (createCapabilityGrantEvent holder type groupPubkey options now) ev ->
  parseCapabilityGrantEvent ev
  = if bool_decide (holder ≠ "" ∧ type ∈ validTypes)
    then Some {| event := ev;
                 capability :=
                   {| Cap.type := type; Cap.holder := holder;
                      issuer := pubkey ev;
                      qualifiers := issuedQualifiers (options ≫= opt_qualifiers);
                      issuedAt := now;
                      expiresAt := issuedExpiry (options ≫= opt_expiresAt);
                      delegationChain := None |} |}
    else None.
Proof.
  intros Hjson (Hkind & Hat & Htags & _). simpl in *.
  unfold parseCapabilityGrantEvent. rewrite Hkind, Hat, Htags. simpl.
  destruct (decide (holder ≠ "" ∧ type ∈ validTypes)) as [Hd|Hd];
    [rewrite (bool_decide_eq_true_2 _ Hd)|rewrite (bool_decide_eq_false_2 _ Hd)].
  2:{ destruct (String.eqb_spec holder "") as [->|Hholder]; simpl; [done|].
      destruct (String.eqb_spec type "") as [->|Htype]; simpl; [done|].
      case_bool_decide; simpl; [|done]. by destruct Hd. }
  destruct Hd as [Hholder Hin].
  rewrite (proj2 (String.eqb_neq holder "")) by done.
  rewrite (bool_decide_eq_true_2 (type ∈ validTypes)) by done.
  assert (type ≠ "") as Htype.
  { intros ->. revert Hin. unfold validTypes.
    rewrite !elem_of_cons, elem_of_nil. naive_solver. }
  rewrite (proj2 (String.eqb_neq type "")) by done. simpl.
  do 3 f_equal.
  - apply parseQualifiers_created; [|done].
    intros n Hn. rewrite findTag_created_grant.
    + destruct (findTag (qualifierTags _) n) eqn:E; [done|].
      rewrite (findTag_named _ _ _ (named_expirationTag _)),
        (findTag_named _ _ _ (named_groupTag _)).
      rewrite !elem_of_cons, elem_of_nil in Hn.
      destruct Hn as [->|[->|[->|[->|[]]]]]; by decide_names.
    + rewrite !elem_of_cons, elem_of_nil in Hn.
      destruct Hn as [->|[->|[->|[->|[]]]]]; done.
    + rewrite !elem_of_cons, elem_of_nil in Hn.
      destruct Hn as [->|[->|[->|[->|[]]]]]; done.
  - apply parseExpiration_created.
    rewrite findTag_created_grant by done.
    rewrite findTag_qualifierTags. decide_names.
    rewrite (findTag_named _ _ _ (named_groupTag _)). decide_names.
    destruct (options ≫= opt_qualifiers);
      by destruct (findTag (expirationTag _) EXPIRATION).
Qed.

Lemma X1_witness :
  parseCapabilityGrantEvent (H := tableTools) writeGrant
  = if bool_decide ("alice" ≠ "" ∧ "write" ∈ validTypes)
    then Some {| event := writeGrant;
                 capability :=
                   {| Cap.type := "write"; Cap.holder := "alice";
                      issuer := pubkey writeGrant;
                      qualifiers :=
                        issuedQualifiers (Some writeOptions ≫= opt_qualifiers);
                      issuedAt := 1000;
                      expiresAt := issuedExpiry (Some writeOptions ≫= opt_expiresAt);
                      delegationChain := None |} |}
    else None.
Proof.
  apply (X1_grant_round_trip (H := tableTools) (H0 := tableJson)
           "alice" "write" "group" (Some writeOptions) 1000 writeGrant).
  - intros q l [= <-] [Hl|Hl]; simpl in Hl; [|done].
    injection Hl as <-. by vm_compute.
  - by vm_compute.
Defined.

Lemma findTag_created_delegation `{Json} oid holder type qualifiers e n :
  n ≠ REFERENCE -> n ≠ HOLDER -> n ≠ TYPE ->
  findTag ([REFERENCE; oid] :: [HOLDER; holder] :: [TYPE; type]
           :: (qualifierTags qualifiers ++ expirationTag e)) n
  = match findTag (qualifierTags qualifiers) n with
    | Some t => Some t
    | None => findTag (expirationTag e) n
    end.
Proof.
  intros Hr Hh Ht. rewrite <- !findTag_app. unfold findTag at 1. simpl.
  rewrite !bool_decide_eq_false_2 by congruence. done.
Qed.

(** X2: a delegation made by [createCapabilityDelegationEvent] and
    signed parses, against any original capability, to the capability
    that was asked for, with the original's issuer and the original's
    chain extended by one link from the signer to the new holder; the
    type is not checked against the five capability types, and only an
    empty holder, type or reference makes the parse fail. *)
Theorem X2_delegation_round_trip `{Tools} `{Json}
    (originalCapabilityEventId newHolder delegatorPubkey type : string)
    (options : option DelegationOptions) (now : Z) (ev : Event)
    (original : Capability) :
  jsonRoundTrip (options ≫= dopt_qualifiers) ->
  finalized (createCapabilityDelegationEvent originalCapabilityEventId
               newHolder delegatorPubkey type options now) ev ->
  parseDelegationEvent ev original
  = if bool_decide (newHolder ≠ "" ∧ type ≠ "" ∧ originalCapabilityEventId ≠ "")
    then Some {| event := ev;
                 capability :=
                   {| Cap.type := type; Cap.holder := newHolder;
                      issuer := issuer original;
                      qualifiers := issuedQualifiers (options ≫= dopt_qualifiers);
                      issuedAt := now;
                      expiresAt := issuedExpiry (options ≫= dopt_expiresAt);
                      delegationChain :=
                        Some (default [] (delegationChain original)
                              ++ [ {| delegator := pubkey ev;
                                      delegatee := newHolder;
                                      eventId := id ev |} ])%list |} |}
    else None.
Proof.
  intros Hjson (Hkind & Hat & Htags & _). simpl in *.
  unfold parseDelegationEvent. rewrite Hkind, Hat, Htags. simpl.
  destruct (decide (newHolder ≠ "" ∧ type ≠ "" ∧ originalCapabilityEventId ≠ ""))
    as [Hd|Hd];
    [rewrite (bool_decide_eq_true_2 _ Hd)|rewrite (bool_decide_eq_false_2 _ Hd)].
  2:{ destruct (String.eqb_spec newHolder "") as [->|?]; simpl; [done|].
      destruct (String.eqb_spec type "") as [->|?]; simpl; [done|].
      destruct (String.eqb_spec originalCapabilityEventId "") as [->|?];
        simpl; [done|].
      by destruct Hd. }
  destruct Hd as (Hh & Ht & Hr).
  rewrite (proj2 (String.eqb_neq newHolder "")) by done.
  rewrite (proj2 (String.eqb_neq type "")) by done.
  rewrite (proj2 (String.eqb_neq originalCapabilityEventId "")) by done. simpl.
  do 3 f_equal.
  - apply parseQualifiers_created; [|done].
    intros n Hn. rewrite findTag_created_delegation.
    + destruct (findTag (qualifierTags _) n) eqn:E; [done|].
      rewrite (findTag_named _ _ _ (named_expirationTag _)).
      rewrite !elem_of_cons, elem_of_nil in Hn.
      destruct Hn as [->|[->|[->|[->|[]]]]]; by decide_names.
    + rewrite !elem_of_cons, elem_of_nil in Hn.
      destruct Hn as [->|[->|[->|[->|[]]]]]; done.
    + rewrite !elem_of_cons, elem_of_nil in Hn.
      destruct Hn as [->|[->|[->|[->|[]]]]]; done.
    + rewrite !elem_of_cons, elem_of_nil in Hn.
      destruct Hn as [->|[->|[->|[->|[]]]]]; done.
  - apply parseExpiration_created.
    rewrite findTag_created_delegation by done.
    rewrite findTag_qualifierTags. decide_names.
    by destruct (options ≫= dopt_qualifiers).
Qed.

Lemma X2_witness :
  parseDelegationEvent (H := tableTools) delegationIssued (plainCap "delegate" "bob")
  = if bool_decide ("carol" ≠ "" ∧ "write" ≠ "" ∧ "o2" ≠ "")
    then Some {| event := delegationIssued;
                 capability :=
                   {| Cap.type := "write"; Cap.holder := "carol";
                      issuer := issuer (plainCap "delegate" "bob");
                      qualifiers :=
                        issuedQualifiers (Some delegationOptions ≫= dopt_qualifiers);
                      issuedAt := 120;
                      expiresAt :=
                        issuedExpiry (Some delegationOptions ≫= dopt_expiresAt);
                      delegationChain :=
                        Some (default [] (delegationChain (plainCap "delegate" "bob"))
                              ++ [ {| delegator := pubkey delegationIssued;
                                      delegatee := "carol";
                                      eventId := id delegationIssued |} ])%list |} |}
    else None.
Proof.
  apply (X2_delegation_round_trip (H := tableTools) (H0 := tableJson)
           "o2" "carol" "bob" "write" (Some delegationOptions) 120
           delegationIssued (plainCap "delegate" "bob")).
  - intros q l [= <-] [Hl|Hl]; simpl in Hl; done.
  - by vm_compute.
Defined.

(** ** Revocation *)

(** X3: a revocation made by [createCapabilityRevocationEvent], signed
    by the group key and verified, is accepted by the store exactly when
    the revoked id is not empty. It then marks the id as revoked and
    removes the capability stored under it, whichever group issued that
    capability; it leaves every other stored capability alone, and no
    event with the revoked id can be added afterwards. *)
Theorem X3_revocation_round_trip `{Tools} (st : CapabilityStore)
    (eventIdToRevoke groupPubkey : string) (reason : option string) (now : Z)
    (rev : Event) :
  finalized (createCapabilityRevocationEvent eventIdToRevoke groupPubkey reason now)
            rev ->
  pubkey rev = groupPubkey ->
  verifyEvent rev = true ->
  let r := addRevocation st rev groupPubkey in
  r.1 = bool_decide (eventIdToRevoke ≠ "")
  ∧ (eventIdToRevoke = "" -> r.2 = st)
  ∧ (eventIdToRevoke ≠ "" ->
       isRevoked r.2 eventIdToRevoke = true
       ∧ capabilities r.2 !! eventIdToRevoke = None
       ∧ (∀ i, i ≠ eventIdToRevoke ->
               capabilities r.2 !! i = capabilities st !! i
               ∧ isRevoked r.2 i = isRevoked st i)
       ∧ ∀ ev g t, id ev = eventIdToRevoke ->
           valid (addCapability r.2 ev g t).1 = false
           ∧ (addCapability r.2 ev g t).2 = r.2).
Proof.
  intros (Hkind & Hat & Htags & _) Hpk Hverify. simpl in *.
  unfold addRevocation, parseRevocationEvent.
  rewrite Hpk, String.eqb_refl, Hverify, Hkind, Htags. simpl.
  destruct (decide (eventIdToRevoke = "")) as [->|Hne]; [done|].
  rewrite bool_decide_eq_true_2 by done.
  rewrite (proj2 (String.eqb_neq eventIdToRevoke "")) by done. simpl.
  assert (∀ s : CapabilityStore,
            revokedIds s = {[eventIdToRevoke]} ∪ revokedIds st ->
            ∀ ev g t, id ev = eventIdToRevoke ->
              valid (addCapability s ev g t).1 = false
              ∧ (addCapability s ev g t).2 = s) as Hre.
  { intros s Hs ev g t Hid. apply CapProofs.addCapability_revoked.
    rewrite Hs, Hid. set_solver. }
  destruct (capabilities st !! eventIdToRevoke) as [ce|] eqn:E; simpl.
  - split; [done|]. split; [done|]. intros _.
    split; [unfold isRevoked; simpl; apply bool_decide_eq_true_2; set_solver|].
    split; [by rewrite lookup_delete_eq|].
    split; [|by apply Hre].
    intros i Hi. split; [by rewrite lookup_delete_ne|].
    unfold isRevoked. simpl. apply bool_decide_ext. set_solver.
  - split; [done|]. split; [done|]. intros _.
    split; [unfold isRevoked; simpl; apply bool_decide_eq_true_2; set_solver|].
    split; [done|].
    split; [|by apply Hre].
    intros i Hi. split; [done|].
    unfold isRevoked. simpl. apply bool_decide_ext. set_solver.
Qed.

Lemma X3_witness :
  let r := addRevocation (H := trusting) storeWithAlice revokeE1 "group" in
  r.1 = bool_decide ("e1" ≠ "")
  ∧ ("e1" = "" -> r.2 = storeWithAlice)
  ∧ ("e1" ≠ "" ->
       isRevoked r.2 "e1" = true
       ∧ capabilities r.2 !! "e1" = None
       ∧ (∀ i, i ≠ "e1" ->
               capabilities r.2 !! i = capabilities storeWithAlice !! i
               ∧ isRevoked r.2 i = isRevoked storeWithAlice i)
       ∧ ∀ ev g t, id ev = "e1" ->
           valid (addCapability (H := trusting) r.2 ev g t).1 = false
           ∧ (addCapability (H := trusting) r.2 ev g t).2 = r.2).
Proof.
  apply (X3_revocation_round_trip (H := trusting) storeWithAlice "e1" "group"
           None 50 revokeE1).
  - by vm_compute.
  - reflexivity.
  - reflexivity.
Defined.

(** ** Delegation *)

(** X4: a delegation that validates carries a chain of exactly one
    link, from the signer of the delegation to its holder and bound to
    the delegation's id; the original is a grant of the expected group,
    neither event is revoked and the delegated capability is not expired.
    A delegation cannot itself be the original of a further delegation:
    whatever is validated against it is refused. *)
Theorem X4_delegation_single_link `{Tools} (d o : Event) (g : string)
    (ctx : ValidationContext) :
  valid (validateDelegatedCapability d o g ctx) = true ->
  kind o = GRANT ∧ kind d = DELEGATE ∧ pubkey o = g
  ∧ (id o ∉ revokedEventIds ctx) ∧ (id d ∉ revokedEventIds ctx)
  ∧ (∃ dc,
       vcapability (validateDelegatedCapability d o g ctx) = Some dc
       ∧ delegationChain dc
         = Some [ {| delegator := pubkey d; delegatee := holder dc;
                     eventId := id d |} ]
       ∧ issuedAt dc = created_at d
       ∧ isCapabilityExpired dc (currentTime ctx) = false)
  ∧ ∀ d' g' ctx', valid (validateDelegatedCapability d' d g' ctx') = false.
Proof.
  intros Hvalid.
  assert (∀ e e' g' ctx', kind e = DELEGATE ->
            valid (validateDelegatedCapability e' e g' ctx') = false) as Hno.
  { intros e e' g' ctx' Hk. unfold validateDelegatedCapability.
    assert (valid (validateCapabilityEvent e g' ctx') = false) as Hv.
    { unfold validateCapabilityEvent. rewrite Hk.
      by destruct (signatureOk ctx' e). }
    by rewrite Hv. }
  unfold validateDelegatedCapability in Hvalid |- *.
  destruct (valid (validateCapabilityEvent o g ctx)) eqn:Ho; [|done].
  destruct (CapProofs.validateCapabilityEvent_valid _ _ _ Ho)
    as (ce & Hparse & Hcap & Hrev).
  rewrite Hcap in Hvalid |- *.
  assert (kind o = GRANT ∧ pubkey o = g) as [Hko Hpo].
  { unfold validateCapabilityEvent in Ho.
    destruct (signatureOk ctx o); [|done]. simpl in Ho.
    destruct (Z.eqb_spec (kind o) GRANT); [|done]. simpl in Ho.
    destruct (String.eqb_spec (pubkey o) g); [|done]. done. }
  destruct (negb (String.eqb (type (capability ce)) "delegate")); [done|].
  destruct (negb (signatureOk ctx d)); [done|].
  destruct (negb (String.eqb (pubkey d) (holder (capability ce)))); [done|].
  case_bool_decide as Hrd; [done|].
  destruct (parseDelegationEvent d (capability ce)) as [dce|] eqn:Hd; [|done].
  destruct (isCapabilityExpired (capability dce) (currentTime ctx)) eqn:Hexp;
    [done|].
  destruct (valid (validateQualifiersSubset (capability ce) (capability dce)))
    eqn:Hsub; simpl in Hvalid |- *; [|by rewrite Hsub in Hvalid].
  assert (delegationChain (capability ce) = None) as Hchain.
  { unfold parseCapabilityGrantEvent in Hparse.
    repeat match type of Hparse with
           | (if ?b then _ else _) = _ => destruct b; [done|]
           end.
    by injection Hparse as <-. }
  unfold parseDelegationEvent in Hd.
  destruct (Z.eqb_spec (kind d) DELEGATE) as [Hkd|]; [|done]. simpl in Hd.
  match type of Hd with
  | (if ?b then _ else _) = _ => destruct b; [done|]
  end.
  injection Hd as <-. simpl in *.
  split; [done|]. split; [done|]. split; [done|]. split; [done|].
  split; [done|]. split.
  - eexists. split; [done|]. simpl. by rewrite Hchain.
  - intros d' g' ctx'. by apply Hno.
Qed.

Lemma X4_witness :
  kind grantBounded = GRANT ∧ kind delegationBounded = DELEGATE
  ∧ pubkey grantBounded = "group"
  ∧ (id grantBounded ∉ revokedEventIds (ctxAt 100))
  ∧ (id delegationBounded ∉ revokedEventIds (ctxAt 100))
  ∧ (∃ dc,
       vcapability (validateDelegatedCapability (H := trusting)
                      delegationBounded grantBounded "group" (ctxAt 100))
       = Some dc
       ∧ delegationChain dc
         = Some [ {| delegator := pubkey delegationBounded;
                     delegatee := holder dc;
                     eventId := id delegationBounded |} ]
       ∧ issuedAt dc = created_at delegationBounded
       ∧ isCapabilityExpired dc (currentTime (ctxAt 100)) = false)
  ∧ ∀ d' g' ctx',
      valid (validateDelegatedCapability (H := trusting)
               d' delegationBounded g' ctx') = false.
Proof.
  apply (X4_delegation_single_link (H := trusting)
           delegationBounded grantBounded "group" (ctxAt 100)).
  reflexivity.
Defined.

Lemma parseQualifiers_ext `{Tools} t1 t2 :
  (∀ n, n ≠ REFERENCE -> findTag t1 n = findTag t2 n) ->
  parseQualifiers t1 = parseQualifiers t2.
Proof.
  intros Hsame. unfold parseQualifiers, getTagValues, getTagValue.
  by rewrite !(Hsame KINDS), !(Hsame REQUIRED_TAGS), !(Hsame EXCLUDED_TAGS),
    !(Hsame RATE_LIMIT) by done.
Qed.

Lemma parseDelegationEvent_ext `{Tools} d1 d2 oc :
  sameButReference d1 d2 ->
  capability <$> parseDelegationEvent d1 oc
  = capability <$> parseDelegationEvent d2 oc.
Proof.
  intros (Hid & Hpk & Hkind & Hat & Hsame & Href).
  assert (∀ n, n ≠ REFERENCE ->
               getTagValue (tags d1) n = getTagValue (tags d2) n) as Hval.
  { intros n Hn. unfold getTagValue. by rewrite (Hsame n Hn). }
  unfold parseDelegationEvent, parseExpiration.
  rewrite Hkind, Href, Hid, Hpk, Hat, (parseQualifiers_ext _ _ Hsame).
  rewrite !(Hval HOLDER), !(Hval TYPE), !(Hval EXPIRATION) by done.
  destruct (negb (kind d2 =? DELEGATE)); [done|].
  by destruct (negb (truthy_str (getTagValue (tags d2) HOLDER))
               || negb (truthy_str (getTagValue (tags d2) TYPE))
               || negb (truthy_str (getTagValue (tags d2) REFERENCE))).
Qed.

(** X5: the verdict on a delegation does not depend on the event its
    [e] tag refers to: two delegations that differ only in the value of
    that tag get the same result against every original, so the
    reference is never compared with the id of the original grant. *)
Theorem X5_delegation_reference_unchecked `{Tools} (d1 d2 o : Event)
    (g : string) (ctx : ValidationContext) :
  sameButReference d1 d2 ->
  signatureOk ctx d1 = signatureOk ctx d2 ->
  validateDelegatedCapability d1 o g ctx = validateDelegatedCapability d2 o g ctx.
Proof.
  intros Hsame Hsig. pose proof Hsame as (Hid & Hpk & _).
  unfold validateDelegatedCapability.
  destruct (valid (validateCapabilityEvent o g ctx)); [|done].
  destruct (vcapability (validateCapabilityEvent o g ctx)) as [oc|]; [|done].
  rewrite Hsig, Hid, Hpk.
  pose proof (parseDelegationEvent_ext d1 d2 oc Hsame) as Hparse.
  destruct (parseDelegationEvent d1 oc) as [c1|],
           (parseDelegationEvent d2 oc) as [c2|]; simpl in Hparse; try done.
  injection Hparse as ->. done.
Qed.

Lemma X5_witness :
  validateDelegatedCapability (H := trusting)
    delegationBounded grantBounded "group" (ctxAt 100)
  = validateDelegatedCapability (H := trusting)
      delegationElsewhere grantBounded "group" (ctxAt 100).
Proof.
  apply (X5_delegation_reference_unchecked (H := trusting)
           delegationBounded delegationElsewhere grantBounded "group" (ctxAt 100)).
  - split; [reflexivity|]. split; [reflexivity|]. split; [reflexivity|].
    split; [reflexivity|]. split; [|reflexivity].
    intros n Hn. unfold findTag. simpl.
    rewrite (bool_decide_eq_false_2 (Some "e" = Some n));
      [reflexivity|intros [= <-]; by apply Hn].
  - reflexivity.
Defined.

(** ** The store *)

Lemma parseCapabilityGrantEvent_Some `{Tools} ev ce :
  parseCapabilityGrantEvent ev = Some ce ->
  event ce = ev ∧ kind ev = GRANT ∧ issuer (capability ce) = pubkey ev
  ∧ issuedAt (capability ce) = created_at ev
  ∧ delegationChain (capability ce) = None.
Proof.
  unfold parseCapabilityGrantEvent. intros Hparse.
  destruct (Z.eqb_spec (kind ev) GRANT); [|done]. simpl in Hparse.
  repeat match type of Hparse with
         | (if ?b then _ else _) = _ => destruct b; [done|]
         end.
  by injection Hparse as <-.
Qed.

(** What an accepted [addCapability] leaves behind. *)
Lemma addCapability_accepted `{Tools} st ev g now :
  valid (addCapability st ev g now).1 = true ->
  ∃ ce, parseCapabilityGrantEvent ev = Some ce
        ∧ event ce = ev
        ∧ vcapability (addCapability st ev g now).1 = Some (capability ce)
        ∧ verifyEvent ev = true ∧ kind ev = GRANT ∧ pubkey ev = g
        ∧ (id ev ∉ revokedIds st)
        ∧ isCapabilityExpired (capability ce) now = false
        ∧ (addCapability st ev g now).2
          = {| capabilities := <[id ev := ce]> (capabilities st);
               revokedIds := revokedIds st;
               byHolder := indexAdd (holder (capability ce)) (id ev) (byHolder st);
               byIssuer := indexAdd (issuer (capability ce)) (id ev) (byIssuer st) |}.
Proof.
  unfold addCapability.
  set (ctx := {| currentTime := now; revokedEventIds := revokedIds st;
                 verifySignature := None |}).
  intros Hvalid.
  assert (valid (validateCapabilityEvent ev g ctx) = true) as Hv.
  { destruct (valid (validateCapabilityEvent ev g ctx)) eqn:E; [done|].
    simpl in Hvalid. congruence. }
  rewrite Hv in *.
  destruct (CapProofs.validateCapabilityEvent_valid _ _ _ Hv)
    as (ce & Hparse & Hcap & Hrev).
  rewrite Hcap. simpl.
  destruct (parseCapabilityGrantEvent_Some _ _ Hparse) as (Hev & Hk & _).
  exists ce. split; [done|]. split; [done|]. split; [done|].
  unfold validateCapabilityEvent, signatureOk in Hv.
  rewrite Hparse in Hv. simpl in Hv.
  destruct (verifyEvent ev) eqn:Hsig; [|done]. simpl in Hv.
  destruct (kind ev =? GRANT); [|done]. simpl in Hv.
  destruct (String.eqb_spec (pubkey ev) g); [|done]. simpl in Hv.
  case_bool_decide; [done|].
  destruct (isCapabilityExpired (capability ce) now) eqn:Hexp; [done|].
  split; [done|]. split; [done|]. split; [done|]. split; [done|].
  split; [done|]. destruct ce as [cev c]. simpl in *. by subst.
Qed.

Lemma elem_of_listing (st : CapabilityStore) (ids : list string) t c :
  c ∈ omap (λ eventId,
              match capabilities st !! eventId with
              | Some capEvent =>
                  if negb (isCapabilityExpired (capability capEvent) t)
                  then Some (capability capEvent) else None
              | None => None
              end) ids
  <-> ∃ i ce, i ∈ ids ∧ capabilities st !! i = Some ce ∧ capability ce = c
              ∧ isCapabilityExpired c t = false.
Proof.
  rewrite list_elem_of_omap. split.
  - intros (i & Hi & Hc). destruct (capabilities st !! i) as [ce|] eqn:E; [|done].
    destruct (isCapabilityExpired (capability ce) t) eqn:Hexp; [done|].
    simpl in Hc. injection Hc as <-. by exists i, ce.
  - intros (i & ce & Hi & E & <- & Hexp). exists i. split; [done|].
    by rewrite E, Hexp.
Qed.

Lemma elem_of_getCapabilitiesForHolder st h t c :
  c ∈ getCapabilitiesForHolder st h t
  <-> ∃ i ce, i ∈ default [] (byHolder st !! h)
              ∧ capabilities st !! i = Some ce ∧ capability ce = c
              ∧ isCapabilityExpired c t = false.
Proof.
  unfold getCapabilitiesForHolder.
  destruct (byHolder st !! h) as [ids|]; simpl.
  - apply elem_of_listing.
  - split; [by intros ?%elem_of_nil|]. by intros (i & ce & ?%elem_of_nil & _).
Qed.

Lemma elem_of_getCapabilitiesForIssuer st h t c :
  c ∈ getCapabilitiesForIssuer st h t
  <-> ∃ i ce, i ∈ default [] (byIssuer st !! h)
              ∧ capabilities st !! i = Some ce ∧ capability ce = c
              ∧ isCapabilityExpired c t = false.
Proof.
  unfold getCapabilitiesForIssuer.
  destruct (byIssuer st !! h) as [ids|]; simpl.
  - apply elem_of_listing.
  - split; [by intros ?%elem_of_nil|]. by intros (i & ce & ?%elem_of_nil & _).
Qed.

(** X6: a grant that [addCapability] accepts is stored under its id,
    and from then on the store lists its capability for its holder and
    for its issuer, the expected group key, at every time at which it is
    not expired; a listing never contains an expired capability. *)
Theorem X6_added_capability_listed `{Tools} (st : CapabilityStore) (ev : Event)
    (g : string) (now : Z) :
  valid (addCapability st ev g now).1 = true ->
  let st' := (addCapability st ev g now).2 in
  ∃ c,
    vcapability (addCapability st ev g now).1 = Some c
    ∧ capabilities st' !! id ev = Some {| event := ev; capability := c |}
    ∧ issuer c = g
    ∧ (∀ t, isCapabilityExpired c t = false ->
            c ∈ getCapabilitiesForHolder st' (holder c) t
            ∧ c ∈ getCapabilitiesForIssuer st' g t)
    ∧ (∀ h t c', c' ∈ getCapabilitiesForHolder st' h t
                 ∨ c' ∈ getCapabilitiesForIssuer st' h t ->
                 isCapabilityExpired c' t = false).
Proof.
  intros Hvalid st'.
  destruct (addCapability_accepted _ _ _ _ Hvalid)
    as (ce & Hparse & Hev & Hcap & _ & _ & Hpk & _ & _ & Hst).
  destruct (parseCapabilityGrantEvent_Some _ _ Hparse) as (_ & _ & Hiss & _).
  exists (capability ce). subst st'. rewrite Hst. simpl.
  split; [done|]. split.
  { rewrite lookup_insert_eq. destruct ce; simpl in *. by subst. }
  split; [congruence|]. split.
  - intros t Hexp. split.
    + apply elem_of_getCapabilitiesForHolder. exists (id ev), ce. simpl.
      rewrite lookup_insert_eq. split; [|done].
      rewrite CapProofs.lookup_indexAdd, decide_True by done.
      apply QueryProofs.elem_of_set_add. by left.
    + apply elem_of_getCapabilitiesForIssuer. exists (id ev), ce. simpl.
      rewrite lookup_insert_eq. split; [|done].
      rewrite <- Hpk, <- Hiss.
      rewrite CapProofs.lookup_indexAdd, decide_True by done.
      apply QueryProofs.elem_of_set_add. by left.
  - intros h t c' [Hc|Hc].
    + apply elem_of_getCapabilitiesForHolder in Hc as (? & ? & _ & _ & _ & ?).
      done.
    + apply elem_of_getCapabilitiesForIssuer in Hc as (? & ? & _ & _ & _ & ?).
      done.
Qed.

Lemma X6_witness :
  let st' := (addCapability (H := trusting) emptyStore grantUntil500 "group" 10).2 in
  ∃ c,
    vcapability (addCapability (H := trusting) emptyStore grantUntil500 "group" 10).1
    = Some c
    ∧ capabilities st' !! id grantUntil500
      = Some {| event := grantUntil500; capability := c |}
    ∧ issuer c = "group"
    ∧ (∀ t, isCapabilityExpired c t = false ->
            c ∈ getCapabilitiesForHolder st' (holder c) t
            ∧ c ∈ getCapabilitiesForIssuer st' "group" t)
    ∧ (∀ h t c', c' ∈ getCapabilitiesForHolder st' h t
                 ∨ c' ∈ getCapabilitiesForIssuer st' h t ->
                 isCapabilityExpired c' t = false).
Proof.
  apply (X6_added_capability_listed (H := trusting)
           emptyStore grantUntil500 "group" 10).
  reflexivity.
Defined.

Lemma storeOk_addCapability `{Tools} st ev g now :
  storeOk st -> storeOk (addCapability st ev g now).2.
Proof.
  intros Hok.
  destruct (valid (addCapability st ev g now).1) eqn:Hvalid.
  2:{ unfold addCapability in *.
      destruct (valid (validateCapabilityEvent ev g _)) eqn:E; [|done].
      destruct (vcapability (validateCapabilityEvent ev g _)); [|done].
      simpl in Hvalid. congruence. }
  destruct (addCapability_accepted _ _ _ _ Hvalid)
    as (ce & Hparse & Hev & Hcap & Hsig & Hk & Hpk & Hrev & _ & ->).
  intros i ce'. simpl. rewrite lookup_insert_Some.
  intros [[<- <-]|[Hne Hi]].
  - rewrite Hev. split; [done|]. split; [done|]. split; [done|].
    split; [done|]. split; [done|].
    rewrite !CapProofs.lookup_indexAdd, !decide_True by done.
    split; apply QueryProofs.elem_of_set_add; by left.
  - destruct (Hok i ce' Hi) as (? & ? & ? & ? & ? & Hh & Hi').
    split; [done|]. split; [done|]. split; [done|].
    split; [done|]. split; [done|].
    rewrite !CapProofs.lookup_indexAdd.
    split; case_decide; subst; try done;
      apply QueryProofs.elem_of_set_add; by right.
Qed.

Lemma storeOk_addRevocation `{Tools} st ev g :
  storeOk st -> storeOk (addRevocation st ev g).2.
Proof.
  intros Hok. unfold addRevocation.
  destruct (negb (String.eqb (pubkey ev) g)); [done|].
  destruct (negb (verifyEvent ev)); [done|].
  destruct (parseRevocationEvent ev) as [rv|]; [|done].
  set (rid := revokedEventId rv).
  destruct (capabilities st !! rid) as [rce|] eqn:E; simpl.
  - intros i ce. simpl. rewrite lookup_delete_Some. intros [Hne Hi].
    destruct (Hok i ce Hi) as (? & ? & ? & ? & ? & Hh & Hi').
    split; [done|]. split; [done|]. split; [done|]. split; [done|].
    split; [set_solver|].
    rewrite !CapProofs.lookup_indexDelete.
    split; case_decide; try done; apply QueryProofs.elem_of_set_delete; done.
  - intros i ce. simpl. intros Hi.
    destruct (Hok i ce Hi) as (? & ? & ? & ? & ? & Hh & Hi').
    split; [done|]. split; [done|]. split; [done|]. split; [done|].
    split; [|done].
    assert (i ≠ rid) by congruence. set_solver.
Qed.

Lemma storeOk_run `{Tools} ops st : storeOk st -> storeOk (runStore st ops).
Proof.
  revert st. induction ops as [|op ops IH]; intros st Hok; [done|].
  apply IH. destruct op; simpl.
  - by apply storeOk_addCapability.
  - by apply storeOk_addRevocation.
  - done.
Qed.

(** X7: whatever calls were made on a new store, it holds only
    validated grants: each stored entry is a verified event of kind
    29000 under its own id with the capability parsed from it, indexed
    under its holder and issuer and not revoked. So every capability the
    store lists, for a holder or for an issuer, comes from such an event
    and is not expired at the time of the listing. *)
Theorem X7_store_holds_validated_grants `{Tools} (ops : list StoreOp) :
  let st := runStore emptyStore ops in
  storeOk st
  ∧ ∀ h t c,
      c ∈ getCapabilitiesForHolder st h t ∨ c ∈ getCapabilitiesForIssuer st h t ->
      ∃ ev, verifyEvent ev = true ∧ kind ev = GRANT
            ∧ (id ev ∉ revokedIds st)
            ∧ capability <$> parseCapabilityGrantEvent ev = Some c
            ∧ isCapabilityExpired c t = false.
Proof.
  intros st.
  assert (storeOk st) as Hok by (apply storeOk_run; by intros i ce ?).
  split; [done|].
  assert (∀ i ce t, capabilities st !! i = Some ce ->
            isCapabilityExpired (capability ce) t = false ->
            ∃ ev, verifyEvent ev = true ∧ kind ev = GRANT
                  ∧ (id ev ∉ revokedIds st)
                  ∧ capability <$> parseCapabilityGrantEvent ev
                    = Some (capability ce)
                  ∧ isCapabilityExpired (capability ce) t = false) as Hone.
  { intros i ce t Hi Hexp.
    destruct (Hok i ce Hi) as (Hid & Hk & Hsig & Hparse & Hrev & _).
    exists (event ce). rewrite Hid, Hparse. done. }
  intros h t c [Hc|Hc].
  - apply elem_of_getCapabilitiesForHolder in Hc as (i & ce & _ & Hi & <- & Hexp).
    by eapply Hone.
  - apply elem_of_getCapabilitiesForIssuer in Hc as (i & ce & _ & Hi & <- & Hexp).
    by eapply Hone.
Qed.

(** ** The authorization loop *)

Lemma authLoop_app C1 C2 h a ctx t :
  authLoop (C1 ++ C2) h a ctx t
  = if authorized (authLoop C1 h a ctx t) then authLoop C1 h a ctx t
    else authLoop C2 h a ctx t.
Proof.
  induction C1 as [|c C1 IH]; simpl; [done|].
  by destruct (loopBody c h a ctx t).
Qed.

Lemma authorized_authLoop C h a ctx t :
  authorized (authLoop C h a ctx t) = existsb (λ c, loopBody c h a ctx t) C.
Proof.
  induction C as [|c C IH]; simpl; [done|].
  by destruct (loopBody c h a ctx t).
Qed.

(** X8: [checkAuthorization] on two lists of capabilities one after the
    other is the decision on the first list when that authorizes, and the
    decision on the second list otherwise; and whether a list authorizes,
    though not the capability named as the reason, is independent of the
    order of the list. *)
Theorem X8_authorization_order (C1 C2 C C' : list Capability)
    (h a : string) (ctx : AuthContext) (now : Z) :
  checkAuthorization (C1 ++ C2) h a ctx now
  = (if authorized (checkAuthorization C1 h a ctx now)
     then checkAuthorization C1 h a ctx now
     else checkAuthorization C2 h a ctx now)
  ∧ (C ≡ₚ C' ->
     authorized (checkAuthorization C h a ctx now)
     = authorized (checkAuthorization C' h a ctx now)).
Proof.
  unfold checkAuthorization. split; [apply authLoop_app|].
  intros Hperm. rewrite !authorized_authLoop.
  induction Hperm as [|x l l' _ IH|x y l|l l' l'' _ IH1 _ IH2]; simpl.
  - done.
  - by rewrite IH.
  - by destruct (loopBody x _ _ _ _), (loopBody y _ _ _ _).
  - congruence.
Qed.

Lemma X8_witness :
  checkAuthorization ([epochCap] ++ [taggedCap]) "alice" "write" anyContext 100
  = (if authorized (checkAuthorization [epochCap] "alice" "write" anyContext 100)
     then checkAuthorization [epochCap] "alice" "write" anyContext 100
     else checkAuthorization [taggedCap] "alice" "write" anyContext 100)
  ∧ authorized (checkAuthorization [epochCap; taggedCap] "alice" "write"
                  anyContext 100)
    = authorized (checkAuthorization [taggedCap; epochCap] "alice" "write"
                    anyContext 100).
Proof.
  destruct (X8_authorization_order [epochCap] [taggedCap]
              [epochCap; taggedCap] [taggedCap; epochCap]
              "alice" "write" anyContext 100) as [Happ Hperm].
  split; [exact Happ|]. apply Hperm. apply perm_swap.
Defined.

(** ** Expiry *)

Lemma isCapabilityExpired_mono c t t' :
  t <= t' -> isCapabilityExpired c t = true -> isCapabilityExpired c t' = true.
Proof.
  unfold isCapabilityExpired. intros Hle.
  destruct (expiresAt c) as [[e|]|]; simpl; try done.
  destruct (e =? 0); simpl; [done|].
  rewrite !Z.leb_le. lia.
Qed.

Lemma listing_sublist (st : CapabilityStore) (ids : list string) t t' :
  t <= t' ->
  sublist
    (omap (λ eventId,
             match capabilities st !! eventId with
             | Some capEvent =>
                 if negb (isCapabilityExpired (capability capEvent) t')
                 then Some (capability capEvent) else None
             | None => None
             end) ids)
    (omap (λ eventId,
             match capabilities st !! eventId with
             | Some capEvent =>
                 if negb (isCapabilityExpired (capability capEvent) t)
                 then Some (capability capEvent) else None
             | None => None
             end) ids).
Proof.
  intros Hle. induction ids as [|i ids IH]; simpl; [constructor|].
  destruct (capabilities st !! i) as [ce|]; [|done].
  destruct (isCapabilityExpired (capability ce) t) eqn:E; simpl.
  - by rewrite (isCapabilityExpired_mono _ _ _ Hle E).
  - destruct (isCapabilityExpired (capability ce) t'); simpl.
    + by apply sublist_cons.
    + by apply sublist_skip.
Qed.

(** X9: capabilities only expire. One that is expired at some time is
    expired at every later time, so what the store lists for a holder or
    an issuer at a later time is a sublist of what it lists earlier; a
    capability without expiry, or whose expiry is zero or not a number,
    never expires. *)
Theorem X9_expiry_monotone (st : CapabilityStore) (h : string) (t t' : Z)
    (c : Capability) :
  t <= t' ->
  (isCapabilityExpired c t = true -> isCapabilityExpired c t' = true)
  ∧ sublist (getCapabilitiesForHolder st h t') (getCapabilitiesForHolder st h t)
  ∧ sublist (getCapabilitiesForIssuer st h t') (getCapabilitiesForIssuer st h t)
  ∧ (expiresAt c = None ∨ expiresAt c = Some (Num 0) ∨ expiresAt c = Some NaN ->
     isCapabilityExpired c t = false)
  ∧ (∀ e, expiresAt c = Some (Num e) -> e ≠ 0 ->
          isCapabilityExpired c t = bool_decide (e <= t)).
Proof.
  intros Hle. split; [by apply isCapabilityExpired_mono|].
  split.
  { unfold getCapabilitiesForHolder.
    destruct (byHolder st !! h); [by apply listing_sublist|constructor]. }
  split.
  { unfold getCapabilitiesForIssuer.
    destruct (byIssuer st !! h); [by apply listing_sublist|constructor]. }
  unfold isCapabilityExpired. split.
  - by intros [->|[->| ->]].
  - intros e -> He. simpl.
    rewrite (proj2 (Z.eqb_neq e 0)) by done. simpl.
    apply eq_true_iff_eq. rewrite Z.leb_le, bool_decide_eq_true. done.
Qed.

Lemma X9_witness :
  (isCapabilityExpired epochCap 10 = true -> isCapabilityExpired epochCap 20 = true)
  ∧ sublist (getCapabilitiesForHolder storeWithAlice "alice" 20)
            (getCapabilitiesForHolder storeWithAlice "alice" 10)
  ∧ sublist (getCapabilitiesForIssuer storeWithAlice "alice" 20)
            (getCapabilitiesForIssuer storeWithAlice "alice" 10)
  ∧ (expiresAt epochCap = None ∨ expiresAt epochCap = Some (Num 0)
     ∨ expiresAt epochCap = Some NaN ->
     isCapabilityExpired epochCap 10 = false)
  ∧ (∀ e, expiresAt epochCap = Some (Num e) -> e ≠ 0 ->
          isCapabilityExpired epochCap 10 = bool_decide (e <= 10)).
Proof.
  apply (X9_expiry_monotone storeWithAlice "alice" 10 20 epochCap). lia.
Defined.

End IssueProofs.
(** * Properties of the metadata events of nip29.js *)

Module Nip29Proofs.
Import JS Nostr Relay CapIssue CapIssueSpec Nip29 Nip29Spec.

(** X29: a metadata event made by [createGroupMetadataEvent] parses
    back to the metadata, up to what the event cannot carry: an empty
    picture or description is dropped, a visibility other than public
    comes back as private and an access other than open as closed, and
    the pubkey that comes back is the signer's, not the group's. Metadata
    with an empty id or name does not parse. *)
Theorem X29_metadata_round_trip `{Signing} (metadata : Metadata)
    (relaySecretKey : string) (now : Z) :
  keepsTemplate ->
  let ev := createGroupMetadataEvent metadata relaySecretKey now in
  parseGroupMetadataEvent ev
  = if bool_decide (md_id metadata ≠ "" ∧ md_name metadata ≠ "")
    then Some (publishedMetadata metadata (pubkey ev))
    else None.
Proof.
  intros Hkeeps ev. subst ev.
  destruct metadata as [i n picture about visibility access pk].
  unfold createGroupMetadataEvent. cbn [md_id md_name md_picture md_about
    md_visibility md_access md_pubkey].
  match goal with
  | |- context [finalizeEvent ?u ?k] =>
      destruct (Hkeeps u k) as (Hkind & _ & Htags & _);
      generalize dependent (finalizeEvent u k)
  end.
  intros ev Hkind Htags. cbn [ukind utags] in Hkind, Htags.
  unfold parseGroupMetadataEvent, publishedMetadata, tagValue1, hasTag.
  cbn [md_id md_name md_picture md_about md_visibility md_access md_pubkey].
  rewrite Hkind, Htags. clear Hkind Htags.
  change (negb (GROUP_METADATA =? GROUP_METADATA)) with false. cbv iota.
  assert (Hfind : ∀ rest name, name ≠ "d" -> name ≠ "name" ->
            findTag ((["d"; i] :: ["name"; n] :: rest)%list) name
            = findTag rest name).
  { intros rest name H1 H2. unfold findTag. simpl.
    rewrite !bool_decide_eq_false_2 by congruence. done. }
  assert (Hsome : ∀ rest name, name ≠ "d" -> name ≠ "name" ->
            existsb (λ t : list string, bool_decide (t !! 0%nat = Some name))
              ((["d"; i] :: ["name"; n] :: rest)%list)
            = existsb (λ t : list string, bool_decide (t !! 0%nat = Some name))
                rest).
  { intros rest name H1 H2. simpl.
    rewrite !bool_decide_eq_false_2 by congruence. done. }
  cbn [app].
  rewrite (Hfind _ "picture"), (Hfind _ "about"), (Hsome _ "public"),
    (Hsome _ "open") by done.
  assert (Hd : ∀ rest, findTag ((["d"; i] :: ["name"; n] :: rest)%list) "d"
                      = Some ["d"; i]) by done.
  assert (Hname : ∀ rest, findTag ((["d"; i] :: ["name"; n] :: rest)%list) "name"
                      = Some ["name"; n]) by done.
  rewrite Hd, Hname.
  cbn [lookup list_lookup default].
  unfold truthy_str at 1 2.
  destruct (decide (i ≠ "" ∧ n ≠ "")) as [[Hi Hn]|Hno].
  2:{ rewrite (bool_decide_eq_false_2 _ Hno).
      destruct (String.eqb_spec i "") as [|Hi]; [done|].
      destruct (String.eqb_spec n "") as [|Hn]; [done|].
      by destruct Hno. }
  rewrite (bool_decide_eq_true_2 (i ≠ "" ∧ n ≠ "")) by done.
  rewrite (proj2 (String.eqb_neq i "")), (proj2 (String.eqb_neq n "")) by done.
  cbn [negb orb].
  destruct (truthy_str picture) eqn:Hp, (truthy_str about) eqn:Ha,
    (String.eqb visibility "public"), (String.eqb access "open");
    vm_compute findTag; vm_compute existsb; cbn [lookup list_lookup];
    try (destruct picture as [picture|]; [|done]);
    try (destruct about as [about|]; [|done]);
    cbn [default]; rewrite ?Hp, ?Ha; reflexivity.
Qed.

Lemma X29_witness :
  let ev := createGroupMetadataEvent (H := fixedSigning) metadataG1 "sk" 100 in
  parseGroupMetadataEvent ev
  = if bool_decide (md_id metadataG1 ≠ "" ∧ md_name metadataG1 ≠ "")
    then Some (publishedMetadata metadataG1 (pubkey ev))
    else None.
Proof.
  apply (X29_metadata_round_trip (H := fixedSigning) metadataG1 "sk" 100).
  intros u secretKey. by vm_compute.
Defined.

Lemma omap_adminOfTag (admins : list GroupAdmin) :
  omap adminOfTag
    (map (λ admin, "p" :: admin_pubkey admin :: label admin :: permissions admin)
         admins)
  = map publishedAdmin (filter (λ a, admin_pubkey a ≠ "") admins).
Proof.
  induction admins as [|a admins IH]; [done|].
  rewrite map_cons. simpl. unfold adminOfTag at 1. simpl.
  destruct (String.eqb_spec (admin_pubkey a) "") as [He|Hne]; simpl.
  - rewrite filter_cons_False by (by intros ?). done.
  - rewrite filter_cons_True by done. rewrite map_cons.
    unfold publishedAdmin at 1. f_equal. exact IH.
Qed.

Lemma filter_member_tags (members : list GroupMember) :
  map (λ t : list string, default "" (t !! 1%nat))
      (filter (λ t : list string,
                 t !! 0%nat = Some "p" ∧ truthy_str (t !! 1%nat) = true)
              (map (λ member, ["p"; member_pubkey member]) members))
  = filter (λ p, p ≠ "") (map member_pubkey members).
Proof.
  induction members as [|m members IH]; [done|].
  simpl. destruct (String.eqb_spec (member_pubkey m) "") as [He|Hne].
  - rewrite filter_cons_False by (simpl; rewrite He; by intros [_ ?]).
    rewrite filter_cons_False by (by intros ?). done.
  - rewrite filter_cons_True.
    2:{ simpl. split; [done|]. by apply negb_true_iff, String.eqb_neq. }
    rewrite filter_cons_True by done. simpl. by rewrite IH.
Qed.

(** X30: the admins and members events round-trip. What
    [parseGroupAdminsEvent] reads from an event made by
    [createGroupAdminsEvent] is the list of admins in order, without
    those whose pubkey is empty and with each admin's permissions cut to
    the ones the parser knows; what [parseGroupMembersEvent] reads from
    an event made by [createGroupMembersEvent] is the list of member
    pubkeys in order, without the empty ones. The group id of the [d]
    tag is never taken for an admin or a member. *)
Theorem X30_admins_members_round_trip `{Signing} (groupId : string)
    (admins : list GroupAdmin) (members : list GroupMember)
    (relaySecretKey : string) (now : Z) :
  keepsTemplate ->
  parseGroupAdminsEvent (createGroupAdminsEvent groupId admins relaySecretKey now)
  = Some (map publishedAdmin (filter (λ a, admin_pubkey a ≠ "") admins))
  ∧ parseGroupMembersEvent
      (createGroupMembersEvent groupId members relaySecretKey now)
    = Some (filter (λ p, p ≠ "") (map member_pubkey members)).
Proof.
  intros Hkeeps. split.
  - unfold createGroupAdminsEvent.
    match goal with
    | |- context [finalizeEvent ?u ?k] =>
        destruct (Hkeeps u k) as (Hkind & _ & Htags & _)
    end.
    simpl in Hkind, Htags. unfold parseGroupAdminsEvent.
    rewrite Hkind, Htags. simpl. f_equal.
    unfold adminOfTag at 1. simpl. apply omap_adminOfTag.
  - unfold createGroupMembersEvent.
    match goal with
    | |- context [finalizeEvent ?u ?k] =>
        destruct (Hkeeps u k) as (Hkind & _ & Htags & _)
    end.
    simpl in Hkind, Htags. unfold parseGroupMembersEvent.
    rewrite Hkind, Htags. simpl. f_equal.
    rewrite filter_cons_False by (by intros [? _]).
    apply filter_member_tags.
Qed.

Lemma X30_witness :
  parseGroupAdminsEvent
    (createGroupAdminsEvent (H := fixedSigning) "g1" adminsG1 "sk" 100)
  = Some (map publishedAdmin (filter (λ a, admin_pubkey a ≠ "") adminsG1))
  ∧ parseGroupMembersEvent
      (createGroupMembersEvent (H := fixedSigning) "g1" membersG1 "sk" 100)
    = Some (filter (λ p, p ≠ "") (map member_pubkey membersG1)).
Proof.
  apply (X30_admins_members_round_trip (H := fixedSigning) "g1" adminsG1
           membersG1 "sk" 100).
  intros u secretKey. by vm_compute.
Defined.

End Nip29Proofs.
(** * Properties of the relay beyond the claims *)

Module RelayApiProofs.
Import JS Nostr Relay RelaySpec RelayApi RelayApiSpec Examples RelayExamples.

(** ** Validation as the relay configures it *)

Lemma validateNip29Event_relay `{Tools} st ev now :
  valid (validateNip29Event ev (validationOptions st ev) now) = true
  <-> verifyEvent ev = true
      ∧ truthy_str (getGroupId ev) = true
      ∧ (∀ w, cfgLatePublicationWindow (config st) = Some w ->
              now - created_at ev <= w).
Proof.
  unfold validateNip29Event, validationOptions. simpl.
  destruct (verifyEvent ev); simpl; [|naive_solver].
  destruct (truthy_str (getGroupId ev)); simpl; [|naive_solver].
  replace (Z.of_nat (length (getPreviousRefs ev)) <? 0) with false
    by (symmetry; apply Z.ltb_ge; lia).
  rewrite andb_false_r.
  destruct (cfgLatePublicationWindow (config st)) as [w|]; simpl.
  - destruct (Z.ltb_spec w (now - created_at ev)); simpl.
    + split; [done|]. intros (_ & _ & Hw). specialize (Hw w eq_refl). lia.
    + split; [|done]. intros _. split; [done|]. split; [done|].
      intros ? [= <-]. done.
  - naive_solver.
Qed.

(** ** The replies of [handleEvent] *)

(** One step of a case analysis on the conditions of a handler. *)
Ltac branch :=
  match goal with
  | |- context [if ?b then _ else _] => destruct b eqn:?
  | |- context [match ?x with Some _ => _ | None => _ end] => destruct x eqn:?
  end.

Lemma elem_of_send client m o :
  o ∈ send client m -> wsOpen client = true ∧ o = (clientId client, m).
Proof.
  unfold send. destruct (wsOpen client); [|by intros ?%elem_of_nil].
  by intros ->%list_elem_of_singleton.
Qed.

Lemma broadcastToSubscription_frames es c sub filters ev o :
  o ∈ broadcastToSubscription es c sub filters ev ->
  wsOpen c = true ∧ o = (clientId c, EVENT sub ev).
Proof.
  induction filters as [|f filters IH]; simpl; [by intros ?%elem_of_nil|].
  destruct (existsb _ _); [apply elem_of_send|done].
Qed.

Lemma broadcastEvent_frames st ev o :
  o ∈ broadcastEvent st ev ->
  ∃ c sub, c ∈ clients st ∧ wsOpen c = true ∧ o = (clientId c, EVENT sub ev).
Proof.
  unfold broadcastEvent. rewrite !list_elem_of_In, in_flat_map.
  intros (c & Hc & Ho). apply in_flat_map in Ho as ([sub fs] & _ & Ho).
  apply list_elem_of_In, broadcastToSubscription_frames in Ho as [? ?].
  exists c, sub. by rewrite list_elem_of_In.
Qed.

Lemma answered_refused st client ev msg :
  answered st client ev (st, send client (OK (id ev) false msg)).
Proof.
  exists false, msg, []. rewrite app_nil_r. split; [done|]. split; [done|].
  by intros o ?%elem_of_nil.
Qed.

Lemma answered_stored st st' client ev :
  clients st' = clients st ->
  answered st client ev
    (st', (send client (OK (id ev) true "") ++ broadcastEvent st' ev)%list).
Proof.
  intros Hc. exists true, "", (broadcastEvent st' ev).
  split; [done|]. split; [done|].
  intros o Ho. apply broadcastEvent_frames in Ho. by rewrite Hc in Ho.
Qed.

Lemma answered_quiet st st' client ev :
  answered st client ev (st', send client (OK (id ev) true "")).
Proof.
  exists true, "", []. rewrite app_nil_r. split; [done|]. split; [done|].
  by intros o ?%elem_of_nil.
Qed.

Lemma checkEventAuthorization_false st client ev g now :
  (checkEventAuthorization st client ev g now).1 = false ->
  (checkEventAuthorization st client ev g now).2
  = send client (OK (id ev) false "restricted: not authorized").
Proof.
  unfold checkEventAuthorization. repeat branch; simpl; done.
Qed.

Lemma answered_handleNip29Event `{Tools} st client ev now :
  answered st client ev (handleNip29Event st client ev now).
Proof.
  unfold handleNip29Event.
  destruct (negb (truthy_str (getGroupId ev))); [apply answered_refused|].
  destruct (negb (bool_decide (is_Some _)) && negb (isGroupCreationEvent ev));
    [apply answered_refused|].
  destruct (negb (valid _)); [apply answered_refused|].
  destruct (negb (checkEventAuthorization st client ev _ now).1) eqn:Hauth.
  { apply negb_true_iff, checkEventAuthorization_false in Hauth.
    rewrite Hauth. apply answered_refused. }
  destruct (isModerationEvent (kind ev)).
  { unfold handleModerationEvent.
    destruct (negb (canPerformModerationAction _ _ _)); [apply answered_refused|].
    apply answered_stored. simpl.
    apply ServerProofs.clients_applyModeration. }
  destruct (kind ev =? JOIN_REQUEST).
  { unfold handleJoinRequest.
    destruct (groups st !! _); [|apply answered_refused].
    apply answered_quiet. }
  destruct (kind ev =? LEAVE_REQUEST); [apply answered_quiet|].
  by apply answered_stored.
Qed.

Lemma answered_handleCapabilityEvent `{Tools} st client ev now :
  answered st client ev (handleCapabilityEvent st client ev now).
Proof.
  unfold handleCapabilityEvent.
  destruct (negb (truthy_str (getGroupId ev))); [apply answered_refused|].
  destruct (groups st !! _); [|apply answered_refused].
  destruct (negb (String.eqb _ _)); [apply answered_refused|].
  destruct (kind ev =? 29000).
  { destruct (negb (Cap.valid _)); [apply answered_refused|].
    by apply answered_stored. }
  destruct (kind ev =? 29001); by apply answered_stored.
Qed.

(** What no event changes: the configuration, the connections, the
    groups and their admins. *)
Lemma handleEvent_frame `{Tools} st client ev now :
  config (handleEvent st client ev now).1 = config st
  ∧ clients (handleEvent st client ev now).1 = clients st
  ∧ groups (handleEvent st client ev now).1 = groups st
  ∧ admins (handleEvent st client ev now).1 = admins st.
Proof.
  unfold handleEvent, handleNip29Event, handleCapabilityEvent,
    handleModerationEvent, handleJoinRequest, handleLeaveRequest,
    applyModeration.
  repeat branch; simpl; done.
Qed.

(** X10: [handleEvent] answers an event for which it has no capability
    to go through (its kind asks for none, or the store lists none for
    its author) with exactly one OK frame for that event, addressed to
    the submitter, and every other frame it writes carries the event to
    an open client of the relay; after a negative OK nothing else is
    written and the relay is unchanged. No event at all changes the
    configuration, the connections, the groups or their admins. *)
Theorem X10_handleEvent_replies `{Tools} (st : RelayState) (client : Client)
    (ev : Event) (now : Z) :
  (consultsNoCapability st ev now ->
   answered st client ev (handleEvent st client ev now))
  ∧ config (handleEvent st client ev now).1 = config st
  ∧ clients (handleEvent st client ev now).1 = clients st
  ∧ groups (handleEvent st client ev now).1 = groups st
  ∧ admins (handleEvent st client ev now).1 = admins st.
Proof.
  split; [|apply handleEvent_frame].
  intros _. unfold handleEvent.
  destruct (requireAuth (config st) && negb (truthy_str (authedPubkey client)));
    [apply answered_refused|].
  destruct (negb (verifyEvent ev)); [apply answered_refused|].
  destruct (maxEventSize (config st) <? JSON_stringify_length ev);
    [apply answered_refused|].
  destruct (isNip29Event (kind ev)); [apply answered_handleNip29Event|].
  destruct ((29000 <=? kind ev) && (kind ev <=? 29002));
    [apply answered_handleCapabilityEvent|apply answered_refused].
Qed.

Lemma X10_witness :
  consultsNoCapability relayWithChat chatEvent 100
  ∧ (consultsNoCapability relayWithChat chatEvent 100 ->
     answered relayWithChat submitter chatEvent
       (handleEvent (H := trusting) relayWithChat submitter chatEvent 100))
  ∧ config (handleEvent (H := trusting) relayWithChat submitter chatEvent 100).1
    = config relayWithChat
  ∧ clients (handleEvent (H := trusting) relayWithChat submitter chatEvent 100).1
    = clients relayWithChat
  ∧ groups (handleEvent (H := trusting) relayWithChat submitter chatEvent 100).1
    = groups relayWithChat
  ∧ admins (handleEvent (H := trusting) relayWithChat submitter chatEvent 100).1
    = admins relayWithChat.
Proof.
  split; [by right|].
  apply (X10_handleEvent_replies (H := trusting) relayWithChat submitter
           chatEvent 100).
Defined.

(** ** How [handleEvent] dispatches *)

Lemma refused_intro st client ev msg :
  refused st client ev (st, send client (OK (id ev) false msg)).
Proof. split; [done|]. by exists msg. Qed.

Lemma permissionMap_create kind :
  kind = MOD_CREATE_GROUP -> permissionMap kind = None.
Proof. by intros ->. Qed.

Lemma canPerformModerationAction_mapped admins pubkey kind :
  canPerformModerationAction admins pubkey kind = true ->
  ∃ admin permission,
    admin ∈ admins ∧ admin_pubkey admin = pubkey
    ∧ permissionMap kind = Some permission
    ∧ permission ∈ permissions admin.
Proof.
  unfold canPerformModerationAction.
  destruct (List.find _ admins) as [admin|] eqn:E; [|done].
  apply find_some in E as [Hin Hpk].
  destruct (permissionMap kind) as [permission|]; [|done].
  intros Hp%bool_decide_eq_true.
  exists admin, permission. rewrite list_elem_of_In.
  by apply String.eqb_eq in Hpk.
Qed.

(** The ways [handleNip29Event] can end: a refusal, or one of the four
    handlers, reached with the group found, the event valid and its
    author authorized. *)
Lemma handleNip29Event_cases `{Tools} st client ev now :
  let r := handleNip29Event st client ev now in
  refused st client ev r
  ∨ ∃ g, groupOf ev = Some g ∧ is_Some (groups st !! g)
      ∧ valid (validateNip29Event ev (validationOptions st ev) now) = true
      ∧ (checkEventAuthorization st client ev g now).1 = true
      ∧ ((isModerationEvent (kind ev) = true
          ∧ canPerformModerationAction (default [] (admins st !! g))
              (pubkey ev) (kind ev) = true
          ∧ r = handleModerationEvent st client ev g)
         ∨ (isModerationEvent (kind ev) = false ∧ kind ev = JOIN_REQUEST
            ∧ r = handleJoinRequest st client ev g)
         ∨ (isModerationEvent (kind ev) = false ∧ kind ev = LEAVE_REQUEST
            ∧ r = handleLeaveRequest st client ev g)
         ∨ (isModerationEvent (kind ev) = false ∧ kind ev ≠ JOIN_REQUEST
            ∧ kind ev ≠ LEAVE_REQUEST
            ∧ r = (withEventStore st (add (eventStore st) ev),
                   (send client (OK (id ev) true "")
                    ++ broadcastEvent (withEventStore st (add (eventStore st) ev))
                         ev)%list))).
Proof.
  intros r. subst r. unfold handleNip29Event.
  destruct (truthy_str (getGroupId ev)) eqn:Hg; simpl;
    [|left; apply refused_intro].
  set (g := default "" (getGroupId ev)).
  assert (groupOf ev = Some g) as Hgroup
    by (by apply QueryProofs.groupOf_truthy).
  destruct (negb (bool_decide (is_Some (groups st !! g)))
            && negb (isGroupCreationEvent ev)) eqn:Hfound;
    [left; apply refused_intro|].
  destruct (valid (validateNip29Event ev (validationOptions st ev) now))
    eqn:Hvalid; simpl; [|left; apply refused_intro].
  destruct (checkEventAuthorization st client ev g now).1 eqn:Hauth; simpl.
  2:{ left. rewrite (checkEventAuthorization_false _ _ _ _ _ Hauth).
      apply refused_intro. }
  assert (kind ev ≠ MOD_CREATE_GROUP -> is_Some (groups st !! g)) as Hsome.
  { intros Hk. apply andb_false_iff in Hfound as [Hf|Hf].
    - apply negb_false_iff in Hf. by apply bool_decide_eq_true in Hf.
    - apply negb_false_iff in Hf. unfold isGroupCreationEvent in Hf.
      by apply Z.eqb_eq in Hf. }
  destruct (isModerationEvent (kind ev)) eqn:Hmod.
  { destruct (canPerformModerationAction (default [] (admins st !! g))
                (pubkey ev) (kind ev)) eqn:Hcan.
    - right. exists g. split; [done|]. split.
      { apply Hsome. intros Hk.
        apply canPerformModerationAction_mapped in Hcan
          as (? & ? & _ & _ & Hmap & _).
        by rewrite permissionMap_create in Hmap. }
      split; [done|]. split; [done|]. left. done.
    - left. unfold handleModerationEvent. rewrite Hcan. apply refused_intro. }
  assert (kind ev ≠ MOD_CREATE_GROUP) as Hk.
  { intros Hk. rewrite Hk in Hmod. done. }
  right. exists g. split; [done|]. split; [by apply Hsome|].
  split; [done|]. split; [done|]. right.
  destruct (Z.eqb_spec (kind ev) JOIN_REQUEST); [by left|].
  destruct (Z.eqb_spec (kind ev) LEAVE_REQUEST); [by right; left|].
  by right; right.
Qed.

(** The same for [handleCapabilityEvent]. *)
Lemma handleCapabilityEvent_cases `{Tools} st client ev now :
  let r := handleCapabilityEvent st client ev now in
  let stored st1 :=
    (withEventStore st1 (add (eventStore st1) ev),
     (send client (OK (id ev) true "")
      ++ broadcastEvent (withEventStore st1 (add (eventStore st1) ev)) ev)%list) in
  refused st client ev r
  ∨ ∃ g group, groupOf ev = Some g ∧ groups st !! g = Some group
      ∧ pubkey ev = group_pubkey group
      ∧ ((kind ev = 29000
          ∧ Cap.valid (Cap.addCapability (capabilityStore st) ev
                         (group_pubkey group) now).1 = true
          ∧ r = stored (withCapabilityStore st
                          (Cap.addCapability (capabilityStore st) ev
                             (group_pubkey group) now).2))
         ∨ (kind ev = 29001
            ∧ r = stored (withCapabilityStore st
                            (Cap.addRevocation (capabilityStore st) ev
                               (group_pubkey group)).2))
         ∨ (kind ev ≠ 29000 ∧ kind ev ≠ 29001 ∧ r = stored st)).
Proof.
  intros r stored. subst r stored. unfold handleCapabilityEvent.
  destruct (truthy_str (getGroupId ev)) eqn:Hg; simpl;
    [|left; apply refused_intro].
  set (g := default "" (getGroupId ev)).
  assert (groupOf ev = Some g) as Hgroup
    by (by apply QueryProofs.groupOf_truthy).
  destruct (groups st !! g) as [group|] eqn:Hfound;
    [|left; apply refused_intro].
  destruct (String.eqb_spec (pubkey ev) (group_pubkey group)) as [Hpk|]; simpl;
    [|left; apply refused_intro].
  destruct (Z.eqb_spec (kind ev) 29000) as [Hk|Hk].
  { destruct (Cap.valid (Cap.addCapability (capabilityStore st) ev
                           (group_pubkey group) now).1) eqn:Hvalid; simpl.
    - right. exists g, group. split; [done|]. split; [done|]. split; [done|].
      left. done.
    - left. apply refused_intro. }
  right. exists g, group. split; [done|]. split; [done|]. split; [done|]. right.
  destruct (Z.eqb_spec (kind ev) 29001); [by left|by right].
Qed.

(** The checks of [handleEvent] before the dispatch. *)
Lemma handleEvent_cases `{Tools} st client ev now :
  let r := handleEvent st client ev now in
  refused st client ev r
  ∨ ((requireAuth (config st) = true -> truthy_str (authedPubkey client) = true)
     ∧ verifyEvent ev = true
     ∧ JSON_stringify_length ev <= maxEventSize (config st)
     ∧ ((isNip29Event (kind ev) = true ∧ r = handleNip29Event st client ev now)
        ∨ (isNip29Event (kind ev) = false ∧ 29000 <= kind ev <= 29002
           ∧ r = handleCapabilityEvent st client ev now))).
Proof.
  intros r. subst r. unfold handleEvent.
  destruct (requireAuth (config st) && negb (truthy_str (authedPubkey client)))
    eqn:Hauth; [left; apply refused_intro|].
  destruct (verifyEvent ev) eqn:Hsig; simpl; [|left; apply refused_intro].
  destruct (Z.ltb_spec (maxEventSize (config st)) (JSON_stringify_length ev));
    [left; apply refused_intro|].
  assert (requireAuth (config st) = true ->
          truthy_str (authedPubkey client) = true) as Ha.
  { intros Hr. rewrite Hr in Hauth. simpl in Hauth.
    by apply negb_false_iff in Hauth. }
  destruct (isNip29Event (kind ev)) eqn:Hnip.
  { right. split; [done|]. split; [done|]. split; [done|]. by left. }
  destruct ((29000 <=? kind ev) && (kind ev <=? 29002)) eqn:Hcap.
  - right. split; [done|]. split; [done|]. split; [done|]. right.
    split; [done|]. split; [lia|done].
  - left. apply refused_intro.
Qed.

(** ** The event store under [add] and [delete] *)

Lemma get_add es ev i :
  get (add es ev) i = if decide (id ev = i) then Some ev else get es i.
Proof. unfold get, add. simpl. apply QueryProofs.map_get_set. Qed.

Lemma get_delete es j i :
  get (delete es j).2 i = if decide (j = i) then None else get es i.
Proof.
  unfold get, delete.
  destruct (map_get j (events es)) as [x|] eqn:E; simpl.
  - apply QueryProofs.map_get_delete.
  - case_decide; [by subst|done].
Qed.

Lemma delete_found es j :
  (delete es j).1 = bool_decide (is_Some (get es j)).
Proof.
  unfold get, delete. by destruct (map_get j (events es)).
Qed.

Lemma get_foldl_delete es (ids : list (option string)) i :
  get (foldl (λ es eventId,
                match eventId with
                | Some j => (delete es j).2
                | None => es
                end) es ids) i
  = if bool_decide (Some i ∈ ids) then None else get es i.
Proof.
  revert es. induction ids as [|[j|] ids IH]; intros es; simpl.
  - done.
  - rewrite IH, get_delete.
    destruct (decide (Some i ∈ ids)) as [Hin|Hin].
    + rewrite !bool_decide_eq_true_2; [done|by right|done].
    + rewrite (bool_decide_eq_false_2 _ Hin).
      destruct (decide (j = i)) as [->|Hne].
      * rewrite bool_decide_eq_true_2; [done|by left].
      * rewrite bool_decide_eq_false_2; [done|].
        intros [[= ->]|?]%elem_of_cons; done.
  - rewrite IH. apply (f_equal (λ b : bool, if b then None else get es i)).
    apply bool_decide_ext. rewrite elem_of_cons. naive_solver.
Qed.

Lemma elem_of_foldl_set_delete `{EqDecision A} (x : A) acc l :
  x ∈ foldl (λ s y, set_delete y s) acc l <-> x ∈ acc ∧ x ∉ l.
Proof.
  revert acc. induction l as [|y l IH]; intros acc; simpl.
  - split; [intros ?; split; [done|by intros ?%elem_of_nil]|by intros [? _]].
  - rewrite IH, QueryProofs.elem_of_set_delete, not_elem_of_cons. naive_solver.
Qed.

(** ** Moderation, joining and leaving *)

Lemma isMember_insert st m g g' (s : list (option string)) p :
  isMember (withMembers st (<[g := s]> m)) g' p
  = if decide (g = g') then bool_decide (Some p ∈ s)
    else match m !! g' with
         | Some s' => bool_decide (Some p ∈ s')
         | None => false
         end.
Proof.
  unfold isMember. simpl. case_decide.
  - subst. by rewrite lookup_insert_eq.
  - by rewrite lookup_insert_ne.
Qed.

Lemma isMember_default st g p :
  isMember st g p = bool_decide (Some p ∈ default [] (members st !! g)).
Proof.
  unfold isMember. by destruct (members st !! g).
Qed.

Lemma applyModeration_effects st ev g :
  let st1 := applyModeration st ev g in
  groups st1 = groups st ∧ admins st1 = admins st
  ∧ (∀ g' p, g' ≠ g -> isMember st1 g' p = isMember st g' p)
  ∧ (∀ p, isMember st1 g p = true
          <-> if decide (kind ev = MOD_ADD_USER)
              then Some p ∈ tagValues ev "p" ∨ isMember st g p = true
              else if decide (kind ev = MOD_REMOVE_USER)
              then isMember st g p = true ∧ Some p ∉ tagValues ev "p"
              else isMember st g p = true)
  ∧ (∀ i, get (eventStore st1) i
          = if decide (kind ev = MOD_DELETE_EVENT)
            then if bool_decide (Some i ∈ tagValues ev "e") then None
                 else get (eventStore st) i
            else get (eventStore st) i).
Proof.
  intros st1. subst st1. unfold applyModeration.
  destruct (Z.eqb_spec (kind ev) MOD_ADD_USER) as [Hk|Hk1].
  { split; [done|]. split; [done|]. split; [|split].
    - intros g' p Hg. rewrite isMember_insert, decide_False by done. done.
    - intros p. rewrite isMember_insert, !decide_True by done.
      rewrite bool_decide_eq_true, QueryProofs.elem_of_foldl_set_add.
      rewrite isMember_default, bool_decide_eq_true. naive_solver.
    - intros i. simpl. rewrite decide_False; [done|]. rewrite Hk. done. }
  destruct (Z.eqb_spec (kind ev) MOD_REMOVE_USER) as [Hk|Hk2].
  { destruct (members st !! g) as [memberSet|] eqn:Hm.
    - split; [done|]. split; [done|]. split; [|split].
      + intros g' p Hg. rewrite isMember_insert, decide_False by done. done.
      + intros p. rewrite isMember_insert, decide_True by done.
        rewrite decide_False by done. rewrite decide_True by done.
        rewrite bool_decide_eq_true, elem_of_foldl_set_delete.
        rewrite isMember_default, bool_decide_eq_true, Hm. done.
      + intros i. simpl. rewrite decide_False; [done|]. rewrite Hk. done.
    - split; [done|]. split; [done|]. split; [done|]. split.
      + intros p. rewrite decide_False by done. rewrite decide_True by done.
        rewrite isMember_default, Hm. simpl.
        split; [done|by intros [? _]].
      + intros i. rewrite decide_False; [done|]. rewrite Hk. done. }
  destruct (Z.eqb_spec (kind ev) MOD_DELETE_EVENT) as [Hk|Hk3].
  { split; [done|]. split; [done|]. split; [done|]. split.
    - intros p. by rewrite !decide_False by done.
    - intros i. rewrite decide_True by done. apply get_foldl_delete. }
  split; [done|]. split; [done|]. split; [done|]. split.
  - intros p. by rewrite !decide_False by done.
  - intros i. by rewrite decide_False by done.
Qed.

(** X11: an accepted moderation event does what its kind says and
    nothing more. Kind 9000 makes every pubkey of its [p] tags a member
    of the group, kind 9001 removes them, kind 9005 deletes the events
    its [e] tags name, whatever group they belong to; the other kinds
    change neither members nor stored events. No moderation event
    changes the groups or their admins, nor the members of another
    group; the event itself is stored and acknowledged. *)
Theorem X11_moderation_effects (st : RelayState) (client : Client)
    (ev : Event) (g : string) :
  canPerformModerationAction (default [] (admins st !! g)) (pubkey ev) (kind ev)
  = true ->
  let r := handleModerationEvent st client ev g in
  acceptedAndStored client ev r
  ∧ groups r.1 = groups st ∧ admins r.1 = admins st
  ∧ (∀ g' p, g' ≠ g -> isMember r.1 g' p = isMember st g' p)
  ∧ (∀ p, isMember r.1 g p = true
          <-> if decide (kind ev = MOD_ADD_USER)
              then Some p ∈ tagValues ev "p" ∨ isMember st g p = true
              else if decide (kind ev = MOD_REMOVE_USER)
              then isMember st g p = true ∧ Some p ∉ tagValues ev "p"
              else isMember st g p = true)
  ∧ (∀ i, i ≠ id ev ->
          get (eventStore r.1) i
          = if decide (kind ev = MOD_DELETE_EVENT)
            then if bool_decide (Some i ∈ tagValues ev "e") then None
                 else get (eventStore st) i
            else get (eventStore st) i).
Proof.
  intros Hcan r. subst r. unfold handleModerationEvent. rewrite Hcan.
  cbn [negb fst snd].
  destruct (applyModeration_effects st ev g) as (Hg & Ha & Ho & Hm & He).
  set (st1 := applyModeration st ev g) in *.
  split.
  { split; [by eexists|]. cbn [fst eventStore withEventStore].
    rewrite get_add. by rewrite decide_True. }
  split; [done|]. split; [done|]. split; [exact Ho|]. split; [exact Hm|].
  intros i Hi. cbn [fst eventStore withEventStore].
  rewrite get_add, decide_False by done. apply He.
Qed.

Lemma X11_witness :
  let r := handleModerationEvent relayWithAdmin submitter addBob "g1" in
  acceptedAndStored submitter addBob r
  ∧ groups r.1 = groups relayWithAdmin ∧ admins r.1 = admins relayWithAdmin
  ∧ (∀ g' p, g' ≠ "g1" -> isMember r.1 g' p = isMember relayWithAdmin g' p)
  ∧ (∀ p, isMember r.1 "g1" p = true
          <-> if decide (kind addBob = MOD_ADD_USER)
              then Some p ∈ tagValues addBob "p"
                   ∨ isMember relayWithAdmin "g1" p = true
              else if decide (kind addBob = MOD_REMOVE_USER)
              then isMember relayWithAdmin "g1" p = true
                   ∧ Some p ∉ tagValues addBob "p"
              else isMember relayWithAdmin "g1" p = true)
  ∧ (∀ i, i ≠ id addBob ->
          get (eventStore r.1) i
          = if decide (kind addBob = MOD_DELETE_EVENT)
            then if bool_decide (Some i ∈ tagValues addBob "e") then None
                 else get (eventStore relayWithAdmin) i
            else get (eventStore relayWithAdmin) i).
Proof.
  apply (X11_moderation_effects relayWithAdmin submitter addBob "g1").
  reflexivity.
Defined.

(** ** Events that pass the first checks *)

Lemma handleEvent_admissible `{Tools} st client ev now g :
  admissible st client ev now g ->
  isNip29Event (kind ev) = true ->
  handleEvent st client ev now
  = (let auth := checkEventAuthorization st client ev g now in
     if negb auth.1 then (st, auth.2) else
     if isModerationEvent (kind ev)
     then handleModerationEvent st client ev g else
     if kind ev =? JOIN_REQUEST then handleJoinRequest st client ev g else
     if kind ev =? LEAVE_REQUEST then handleLeaveRequest st client ev g else
     let st' := withEventStore st (add (eventStore st) ev) in
     (st', send client (OK (id ev) true "") ++ broadcastEvent st' ev)%list).
Proof.
  intros (Hauth & Hsig & Hsize & Hg & Hgroup & Hwin) Hnip.
  unfold handleEvent.
  replace (requireAuth (config st) && negb (truthy_str (authedPubkey client)))
    with false.
  2:{ destruct (requireAuth (config st)); [|done]. by rewrite Hauth. }
  rewrite Hsig. simpl.
  replace (maxEventSize (config st) <? JSON_stringify_length ev) with false
    by (symmetry; apply Z.ltb_ge; lia).
  rewrite Hnip. unfold handleNip29Event.
  apply QueryProofs.groupOf_truthy in Hg as [Htruthy Hdef].
  rewrite Htruthy, Hdef. simpl.
  rewrite (bool_decide_eq_true_2 _ Hgroup). simpl.
  rewrite (proj2 (validateNip29Event_relay st ev now)) by done.
  done.
Qed.

Lemma admissible_frame `{Tools} st st' client ev now g :
  config st' = config st -> groups st' = groups st ->
  admissible st client ev now g -> admissible st' client ev now g.
Proof. unfold admissible. by intros -> ->. Qed.

Lemma contentKind_facts ev :
  contentKind (kind ev) ->
  isNip29Event (kind ev) = true ∧ isModerationEvent (kind ev) = false
  ∧ (kind ev =? JOIN_REQUEST) = false ∧ (kind ev =? LEAVE_REQUEST) = false
  ∧ requiredCapability ev = Some "write".
Proof.
  unfold contentKind, requiredCapability.
  by intros [->|[->|[->| ->]]].
Qed.

Lemma checkEventAuthorization_member st client ev g now :
  isMember st g (pubkey ev) = true ->
  checkEventAuthorization st client ev g now = (true, []).
Proof.
  intros Hm. unfold checkEventAuthorization. rewrite Hm.
  destruct (kind ev =? JOIN_REQUEST); [done|].
  destruct (requiredCapability ev); [|done].
  by rewrite andb_false_r.
Qed.

Lemma checkEventAuthorization_capability st client ev g now required c :
  requiredCapability ev = Some required ->
  c ∈ Cap.getCapabilitiesForHolder (capabilityStore st) (pubkey ev) now ->
  Cap.loopBody c (pubkey ev) required
    {| Cap.eventKind := Some (kind ev); Cap.eventTags := Some (tags ev);
       Cap.ctxTime := None |} now = true ->
  checkEventAuthorization st client ev g now = (true, []).
Proof.
  intros Hreq Hc Hbody. unfold checkEventAuthorization. rewrite Hreq.
  destruct (kind ev =? JOIN_REQUEST); [done|].
  unfold Cap.checkAuthorization. simpl.
  rewrite IssueProofs.authorized_authLoop.
  replace (existsb _ _) with true; [done|].
  symmetry. apply existsb_exists. exists c. by rewrite <- list_elem_of_In.
Qed.

Lemma checkEventAuthorization_outsider st client ev g now required :
  kind ev ≠ JOIN_REQUEST ->
  requiredCapability ev = Some required ->
  isMember st g (pubkey ev) = false ->
  Cap.getCapabilitiesForHolder (capabilityStore st) (pubkey ev) now = [] ->
  checkEventAuthorization st client ev g now
  = (false, send client (OK (id ev) false "restricted: not authorized")).
Proof.
  intros Hk Hreq Hm Hcaps. unfold checkEventAuthorization.
  rewrite (proj2 (Z.eqb_neq _ _) Hk), Hreq, Hm, Hcaps. done.
Qed.

Lemma requiredCapability_not_join ev required :
  requiredCapability ev = Some required -> kind ev ≠ JOIN_REQUEST.
Proof.
  unfold requiredCapability, isModerationEvent. intros Hreq Hk.
  rewrite Hk in Hreq. done.
Qed.

Lemma refused_notAccepted st client ev r :
  refused st client ev r -> notAccepted st client ev r.
Proof.
  intros [Hst [msg Hout]]. split; [done|].
  intros o Ho. rewrite Hout in Ho. apply elem_of_send in Ho as [_ ->].
  by exists msg.
Qed.

(** X12: a moderation kind for which the relay knows no permission
    (among them kind 9007, the creation of a group) is never accepted,
    whoever submits such an event, admin or not: the relay is unchanged
    and [handleEvent] writes nothing but a negative OK for the event.
    When the store lists no capability for the author, so that none is
    gone through, the submitter gets that negative OK. *)
Theorem X12_unmapped_moderation_refused `{Tools} (st : RelayState)
    (client : Client) (ev : Event) (now : Z) :
  isModerationEvent (kind ev) = true ->
  permissionMap (kind ev) = None ->
  notAccepted st client ev (handleEvent st client ev now)
  ∧ (Cap.getCapabilitiesForHolder (capabilityStore st) (pubkey ev) now = [] ->
     refused st client ev (handleEvent st client ev now)).
Proof.
  intros Hmod Hmap.
  assert (refused st client ev (handleEvent st client ev now)) as Href.
  { destruct (handleEvent_cases st client ev now)
      as [Href|(_ & _ & _ & [[Hnip ->]|[Hnip _]])]; [done| |].
    - destruct (handleNip29Event_cases st client ev now)
        as [Href|(g & _ & _ & _ & _ & Hcase)]; [done|].
      destruct Hcase as [(_ & Hcan & _)|[(Hm & _)|[(Hm & _)|(Hm & _)]]];
        try congruence.
      apply canPerformModerationAction_mapped in Hcan
        as (? & ? & _ & _ & Hsome & _).
      congruence.
    - unfold isNip29Event, isModerationEvent in *. lia. }
  split; [by apply refused_notAccepted|done].
Qed.

Lemma X12_witness :
  notAccepted relayWithAdmin submitter createRequest
    (handleEvent (H := trusting) relayWithAdmin submitter createRequest 100)
  ∧ (Cap.getCapabilitiesForHolder (capabilityStore relayWithAdmin)
       (pubkey createRequest) 100 = [] ->
     refused relayWithAdmin submitter createRequest
       (handleEvent (H := trusting) relayWithAdmin submitter createRequest 100)).
Proof.
  apply (X12_unmapped_moderation_refused (H := trusting)
           relayWithAdmin submitter createRequest 100); reflexivity.
Defined.

(** X13: an author who is not a member of the group the event names
    and for whom the capability store lists nothing cannot publish
    content and cannot moderate, even when listed as an admin of the
    group: every such event gets a negative OK and changes nothing. *)
Theorem X13_outsider_refused `{Tools} (st : RelayState) (client : Client)
    (ev : Event) (now : Z) (required : string) :
  requiredCapability ev = Some required ->
  (∀ g, groupOf ev = Some g -> isMember st g (pubkey ev) = false) ->
  Cap.getCapabilitiesForHolder (capabilityStore st) (pubkey ev) now = [] ->
  refused st client ev (handleEvent st client ev now).
Proof.
  intros Hreq Hout Hcaps.
  destruct (handleEvent_cases st client ev now)
    as [Href|(_ & _ & _ & [[Hnip ->]|[Hnip [Hk _]]])]; [done| |].
  - destruct (handleNip29Event_cases st client ev now)
      as [Href|(g & Hg & _ & _ & Hauth & _)]; [done|].
    rewrite (checkEventAuthorization_outsider _ _ _ _ _ required) in Hauth;
      [done| |done| |done].
    + by eapply requiredCapability_not_join.
    + by apply Hout.
  - unfold requiredCapability, isModerationEvent in Hreq.
    repeat match type of Hreq with
           | (if ?b then _ else _) = _ => destruct b eqn:?
           end; try done;
      unfold CHAT_MESSAGE, CHAT_REPLY, TEXT_NOTE, TEXT_REPLY in *; lia.
Qed.

Lemma X13_witness :
  refused relayWithAdmin submitter chatCarol
    (handleEvent (H := trusting) relayWithAdmin submitter chatCarol 101).
Proof.
  apply (X13_outsider_refused (H := trusting)
           relayWithAdmin submitter chatCarol 101 "write").
  - reflexivity.
  - intros g [= <-]. reflexivity.
  - reflexivity.
Defined.



Lemma handleEvent_join `{Tools} st client ev now g group :
  admissible st client ev now g ->
  kind ev = JOIN_REQUEST ->
  groups st !! g = Some group ->
  handleEvent st client ev now
  = (let st1 :=
       if String.eqb (access group) "open"
       then withMembers st
              (<[g := set_add (Some (pubkey ev)) (default [] (members st !! g))]>
                 (members st))
       else st in
     (withEventStore st1 (add (eventStore st1) ev),
      send client (OK (id ev) true ""))).
Proof.
  intros Hadm Hk Hgroup.
  rewrite (handleEvent_admissible _ _ _ _ _ Hadm) by (by rewrite Hk).
  unfold checkEventAuthorization, handleJoinRequest.
  rewrite Hk, Hgroup. done.
Qed.

Lemma handleEvent_content_member `{Tools} st client ev now g :
  admissible st client ev now g ->
  contentKind (kind ev) ->
  (checkEventAuthorization st client ev g now).1 = true ->
  handleEvent st client ev now
  = (let st' := withEventStore st (add (eventStore st) ev) in
     (st', send client (OK (id ev) true "") ++ broadcastEvent st' ev)%list).
Proof.
  intros Hadm Hkind Hauth.
  destruct (contentKind_facts _ Hkind) as (Hnip & Hmod & Hj & Hl & _).
  rewrite (handleEvent_admissible _ _ _ _ _ Hadm) by done.
  cbv zeta. by rewrite Hauth, Hmod, Hj, Hl.
Qed.

(** X15: a join request that passes the first checks is stored and
    acknowledged to its sender only, whatever the access of the group.
    In an open group it makes its author a member, and the relay then
    accepts that author's content although the store lists no capability
    for the author: membership is enough. In a group that is not open it
    changes neither the members nor the capabilities, so the content of
    an author who was no member and holds no capability is still
    refused. *)
Theorem X15_join_then_write `{Tools} (st : RelayState) (c1 c2 : Client)
    (join msg : Event) (t1 t2 : Z) (g : string) (group : GroupMetadata) :
  admissible st c1 join t1 g ->
  kind join = JOIN_REQUEST ->
  groups st !! g = Some group ->
  admissible st c2 msg t2 g ->
  contentKind (kind msg) ->
  pubkey msg = pubkey join ->
  let r1 := handleEvent st c1 join t1 in
  let r2 := handleEvent r1.1 c2 msg t2 in
  acceptedAndStored c1 join r1
  ∧ r1.2 = send c1 (OK (id join) true "")
  ∧ (access group = "open" ->
       isMember r1.1 g (pubkey join) = true
       ∧ capabilityStore r1.1 = capabilityStore st
       ∧ (Cap.getCapabilitiesForHolder (capabilityStore st) (pubkey join) t2 = [] ->
          acceptedAndStored c2 msg r2))
  ∧ (access group ≠ "open" ->
       members r1.1 = members st
       ∧ capabilityStore r1.1 = capabilityStore st
       ∧ (isMember st g (pubkey join) = false ->
          Cap.getCapabilitiesForHolder (capabilityStore st) (pubkey join) t2 = [] ->
          refused r1.1 c2 msg r2)).
Proof.
  intros Hadm1 Hk Hgroup Hadm2 Hkind Hpk r1 r2. subst r2 r1.
  rewrite (handleEvent_join _ _ _ _ _ _ Hadm1 Hk Hgroup). cbv zeta.
  cbn [fst snd].
  split.
  { split; [exists []; by rewrite app_nil_r|]. cbn [fst eventStore withEventStore].
    rewrite get_add. by rewrite decide_True. }
  split; [done|].
  destruct (String.eqb_spec (access group) "open") as [Hopen|Hclosed].
  - split; [|done]. intros _.
    set (st1 := withMembers st _).
    set (st2 := withEventStore st1 (add (eventStore st1) join)).
    assert (isMember st2 g (pubkey join) = true) as Hm.
    { unfold isMember. simpl. rewrite lookup_insert_eq.
      apply bool_decide_eq_true_2, QueryProofs.elem_of_set_add. by left. }
    split; [done|]. split; [done|]. intros _.
    assert (admissible st2 c2 msg t2 g) as Hadm by done.
    rewrite (handleEvent_content_member _ _ _ _ _ Hadm Hkind).
    2:{ rewrite checkEventAuthorization_member; [done|]. by rewrite Hpk. }
    cbv zeta. split; [by eexists|].
    cbn [fst eventStore withEventStore]. rewrite get_add. by rewrite decide_True.
  - split; [done|]. intros _. split; [done|]. split; [done|].
    intros Hm Hcaps.
    set (st2 := withEventStore st (add (eventStore st) join)).
    assert (admissible st2 c2 msg t2 g) as Hadm by done.
    destruct (contentKind_facts _ Hkind) as (Hnip & Hmod & Hj & Hl & Hreq).
    rewrite (handleEvent_admissible _ _ _ _ _ Hadm) by done.
    rewrite (checkEventAuthorization_outsider _ _ _ _ _ "write");
      [apply refused_intro| |done| |].
    + by eapply requiredCapability_not_join.
    + by rewrite Hpk.
    + by rewrite Hpk.
Qed.

Lemma X15_witness :
  let r1 := handleEvent (H := trusting) relayWithAdmin submitter joinBob 100 in
  let r2 := handleEvent (H := trusting) r1.1 submitter chatBob 101 in
  acceptedAndStored submitter joinBob r1
  ∧ r1.2 = send submitter (OK (id joinBob) true "")
  ∧ ("open" = "open" ->
       isMember r1.1 "g1" (pubkey joinBob) = true
       ∧ capabilityStore r1.1 = capabilityStore relayWithAdmin
       ∧ (Cap.getCapabilitiesForHolder (capabilityStore relayWithAdmin)
            (pubkey joinBob) 101 = [] ->
          acceptedAndStored submitter chatBob r2))
  ∧ ("open" ≠ "open" ->
       members r1.1 = members relayWithAdmin
       ∧ capabilityStore r1.1 = capabilityStore relayWithAdmin
       ∧ (isMember relayWithAdmin "g1" (pubkey joinBob) = false ->
          Cap.getCapabilitiesForHolder (capabilityStore relayWithAdmin)
            (pubkey joinBob) 101 = [] ->
          refused r1.1 submitter chatBob r2)).
Proof.
  apply (X15_join_then_write (H := trusting) relayWithAdmin submitter submitter
           joinBob chatBob 100 101 "g1"
           {| group_id := "g1"; group_name := "group one";
              visibility := "public"; access := "open";
              group_pubkey := "group" |}).
  - split; [done|]. split; [reflexivity|]. split; [by vm_compute|].
    split; [reflexivity|]. split; [by eexists|].
    intros w [= <-]. by vm_compute.
  - reflexivity.
  - reflexivity.
  - split; [done|]. split; [reflexivity|]. split; [by vm_compute|].
    split; [reflexivity|]. split; [by eexists|].
    intros w [= <-]. by vm_compute.
  - by left.
  - reflexivity.
Defined.

Lemma handleEvent_grant `{Tools} st client ev now g group :
  admissible st client ev now g ->
  kind ev = 29000 ->
  groups st !! g = Some group ->
  pubkey ev = group_pubkey group ->
  Cap.valid (Cap.addCapability (capabilityStore st) ev (group_pubkey group) now).1
  = true ->
  handleEvent st client ev now
  = (let st1 :=
       withCapabilityStore st
         (Cap.addCapability (capabilityStore st) ev (group_pubkey group) now).2 in
     let st2 := withEventStore st1 (add (eventStore st1) ev) in
     (st2, send client (OK (id ev) true "") ++ broadcastEvent st2 ev)%list).
Proof.
  intros (Hauth & Hsig & Hsize & Hg & _ & _) Hk Hgroup Hpk Hvalid.
  unfold handleEvent.
  replace (requireAuth (config st) && negb (truthy_str (authedPubkey client)))
    with false.
  2:{ destruct (requireAuth (config st)); [|done]. by rewrite Hauth. }
  rewrite Hsig. simpl.
  replace (maxEventSize (config st) <? JSON_stringify_length ev) with false
    by (symmetry; apply Z.ltb_ge; lia).
  rewrite Hk. simpl. unfold handleCapabilityEvent.
  apply QueryProofs.groupOf_truthy in Hg as [Htruthy Hdef].
  rewrite Htruthy, Hdef, Hgroup, Hpk, String.eqb_refl, Hk. simpl.
  by rewrite Hvalid.
Qed.

(** X16: a capability authorizes in every group of the relay. Once the
    relay has accepted a grant signed by the key of one group, the holder
    may publish content in any other group, member or not, as long as the
    capability passes the checks of [checkAuthorization] for the event:
    neither the issuer of the capability nor the group of the grant is
    compared with the group of the event. The grant is one without
    qualifiers on tags, and the only capability the store lists for the
    holder. *)
Theorem X16_capability_crosses_groups `{Tools} (st : RelayState)
    (c1 c2 : Client) (grant msg : Event) (t1 t2 : Z) (g1 g2 : string)
    (group : GroupMetadata) (ce : Cap.CapabilityEvent) :
  admissible st c1 grant t1 g1 ->
  kind grant = 29000 ->
  groups st !! g1 = Some group ->
  pubkey grant = group_pubkey group ->
  Cap.valid (Cap.addCapability (capabilityStore st) grant
               (group_pubkey group) t1).1 = true ->
  Cap.parseCapabilityGrantEvent grant = Some ce ->
  noTagQualifiers grant ->
  Cap.getCapabilitiesForHolder (capabilityStore st) (pubkey msg) t2 = [] ->
  admissible st c2 msg t2 g2 ->
  contentKind (kind msg) ->
  Cap.loopBody (Cap.capability ce) (pubkey msg) "write"
    {| Cap.eventKind := Some (kind msg); Cap.eventTags := Some (tags msg);
       Cap.ctxTime := None |} t2 = true ->
  let r1 := handleEvent st c1 grant t1 in
  acceptedAndStored c1 grant r1
  ∧ acceptedAndStored c2 msg (handleEvent r1.1 c2 msg t2).
Proof.
  intros Hadm1 Hk Hgroup Hpk Hvalid Hparse _ _ Hadm2 Hkind Hbody r1. subst r1.
  rewrite (handleEvent_grant _ _ _ _ _ _ Hadm1 Hk Hgroup Hpk Hvalid). cbv zeta.
  cbn [fst snd].
  set (cs := (Cap.addCapability (capabilityStore st) grant
                (group_pubkey group) t1).2).
  set (st1 := withCapabilityStore st cs).
  set (st2 := withEventStore st1 (add (eventStore st1) grant)).
  split.
  { split; [by eexists|]. subst st2. cbn [fst eventStore withEventStore].
    rewrite get_add. by rewrite decide_True. }
  assert (admissible st2 c2 msg t2 g2) as Hadm by done.
  destruct (contentKind_facts _ Hkind) as (_ & _ & _ & _ & Hreq).
  rewrite (handleEvent_content_member _ _ _ _ _ Hadm Hkind).
  { cbv zeta. split; [by eexists|]. cbn [fst eventStore withEventStore].
    rewrite get_add. by rewrite decide_True. }
  rewrite (checkEventAuthorization_capability _ _ _ _ _ "write"
             (Cap.capability ce)); [done|done| |done].
  destruct (IssueProofs.addCapability_accepted _ _ _ _ Hvalid)
    as (ce' & Hparse' & _ & _ & _ & _ & _ & _ & _ & Hcs).
  assert (ce' = ce) as -> by congruence.
  apply CapProofs.loopBody_true in Hbody as (Hholder & Hexp & _).
  change (capabilityStore st2) with cs.
  apply IssueProofs.elem_of_getCapabilitiesForHolder.
  exists (id grant), ce. subst cs. rewrite Hcs. simpl.
  rewrite lookup_insert_eq. split; [|done].
  rewrite CapProofs.lookup_indexAdd, decide_True by done.
  apply QueryProofs.elem_of_set_add. by left.
Qed.

Lemma X16_witness :
  let r1 := handleEvent (H := trusting) relayWithAdmin submitter grantDave 100 in
  acceptedAndStored submitter grantDave r1
  ∧ acceptedAndStored submitter chatDave
      (handleEvent (H := trusting) r1.1 submitter chatDave 101).
Proof.
  apply (X16_capability_crosses_groups (H := trusting) relayWithAdmin
           submitter submitter grantDave chatDave 100 101 "g1" "g2"
           {| group_id := "g1"; group_name := "group one";
              visibility := "public"; access := "open";
              group_pubkey := "group" |}
           {| Cap.event := grantDave;
              Cap.capability :=
                {| Cap.type := "write"; Cap.holder := "dave";
                   Cap.issuer := "group"; Cap.qualifiers := None;
                   Cap.issuedAt := 100; Cap.expiresAt := None;
                   Cap.delegationChain := None |} |}).
  - split; [done|]. split; [reflexivity|]. split; [by vm_compute|].
    split; [reflexivity|]. split; [by eexists|].
    intros w [= <-]. by vm_compute.
  - reflexivity.
  - reflexivity.
  - reflexivity.
  - reflexivity.
  - reflexivity.
  - split; reflexivity.
  - reflexivity.
  - split; [done|]. split; [reflexivity|]. split; [by vm_compute|].
    split; [reflexivity|]. split; [by eexists|].
    intros w [= <-]. by vm_compute.
  - by left.
  - reflexivity.
Defined.

(** ** What the relay stores *)

Lemma handleEvent_store `{Tools} st client ev now :
  let r := handleEvent st client ev now in
  eventStore r.1 = eventStore st
  ∨ (storable st ev
     ∧ ∃ es1, eventStore r.1 = add es1 ev
              ∧ ∀ i x, get es1 i = Some x -> get (eventStore st) i = Some x).
Proof.
  intros r. subst r.
  destruct (handleEvent_cases st client ev now)
    as [[-> _]|(_ & Hsig & Hsize & [[Hnip ->]|(Hnip & Hk & ->)])];
    [by left| |].
  - destruct (handleNip29Event_cases st client ev now)
      as [[-> _]|(g & Hg & Hgroup & _ & _ & Hcase)]; [by left|].
    right. split.
    { split; [done|]. split; [done|]. split; [by left|]. by exists g. }
    destruct Hcase as [(_ & Hcan & ->)|[(_ & _ & ->)|[(_ & _ & ->)|(_ & _ & _ & ->)]]].
    + unfold handleModerationEvent. rewrite Hcan. simpl.
      eexists. split; [done|]. intros i x.
      destruct (applyModeration_effects st ev g) as (_ & _ & _ & _ & He).
      rewrite He. repeat case_decide; try done; by case_bool_decide.
    + unfold handleJoinRequest. destruct Hgroup as [group ->]. simpl.
      eexists. split; [done|]. by destruct (String.eqb (access group) "open").
    + unfold handleLeaveRequest. simpl.
      eexists. split; [done|]. by destruct (members st !! g).
    + simpl. by eexists.
  - destruct (handleCapabilityEvent_cases st client ev now)
      as [[-> _]|(g & group & Hg & Hgroup & _ & Hcase)]; [by left|].
    right. split.
    { split; [done|]. split; [done|]. split; [by right|]. exists g.
      split; [done|]. by eexists. }
    destruct Hcase as [(_ & _ & ->)|[(_ & ->)|(_ & _ & ->)]];
      simpl; by eexists.
Qed.

(** X17: the relay stores only what it has checked. Starting from a
    relay whose stored events are verified, within the size limit, of a
    NIP-29 or capability kind and tagged with an existing group, and
    stored under their own ids, the same holds after any sequence of
    submissions, on any connections and at any times. *)
Theorem X17_relay_stores_checked_events `{Tools} (st0 : RelayState)
    (subs : list Submission) :
  (∀ i x, get (eventStore st0) i = Some x -> id x = i ∧ storable st0 x) ->
  let st := foldl submit st0 subs in
  config st = config st0 ∧ groups st = groups st0
  ∧ ∀ i x, get (eventStore st) i = Some x -> id x = i ∧ storable st0 x.
Proof.
  intros Hinit st. subst st.
  assert (∀ st, config st = config st0 ∧ groups st = groups st0
                ∧ (∀ i x, get (eventStore st) i = Some x ->
                          id x = i ∧ storable st0 x) ->
          config (foldl submit st subs) = config st0
          ∧ groups (foldl submit st subs) = groups st0
          ∧ ∀ i x, get (eventStore (foldl submit st subs)) i = Some x ->
                   id x = i ∧ storable st0 x) as Hrun; [|by apply Hrun].
  induction subs as [|[[client ev] now] subs IH]; intros st; [done|].
  intros (Hconfig & Hgroups & Hinv). simpl. apply IH. unfold submit. simpl.
  destruct (handleEvent_frame st client ev now) as (Hc & _ & Hg & _).
  split; [congruence|]. split; [congruence|].
  destruct (handleEvent_store st client ev now) as [->|[Hok (es1 & -> & Hsub)]];
    [done|].
  intros i x. rewrite get_add. case_decide as Hid.
  - intros [= <-]. split; [done|].
    unfold storable in *. by rewrite <- Hconfig, <- Hgroups.
  - intros Hget. by apply Hinv, Hsub.
Qed.

Lemma X17_witness :
  let st := foldl (submit (H := trusting)) relayWithAdmin
              [(submitter, joinBob, 100); (submitter, chatBob, 101)] in
  config st = config relayWithAdmin ∧ groups st = groups relayWithAdmin
  ∧ ∀ i x, get (eventStore st) i = Some x ->
           id x = i ∧ storable (H := trusting) relayWithAdmin x.
Proof.
  apply (X17_relay_stores_checked_events (H := trusting) relayWithAdmin
           [(submitter, joinBob, 100); (submitter, chatBob, 101)]).
  intros i x Hget.
  change (eventStore relayWithAdmin) with (add emptyEventStore chatEvent) in Hget.
  rewrite get_add in Hget. case_decide as E; [|done]. injection Hget as <-.
  split; [exact E|]. split; [reflexivity|]. split; [by vm_compute|].
  split; [by left|]. exists "g1". split; [reflexivity|]. by eexists.
Defined.

(** ** Subscriptions *)

Lemma query_subseteq st f : query st f ⊆ sortDesc (matching st f).
Proof.
  unfold query. destruct (limit f) as [n|]; [|done].
  destruct (Z.ltb_spec 0 n); [|done].
  rewrite QueryProofs.slice0_pos by done. apply subseteq_take.
Qed.

(** What a query returns is stored and passes the filter. *)
Lemma query_sound univ st f ev :
  consistentIds univ -> storeInv univ st ->
  ev ∈ query st f -> get st (id ev) = Some ev ∧ satisfiesByGroup ev f.
Proof.
  intros Hcons Hinv Hq. apply query_subseteq in Hq.
  rewrite QueryProofs.sortDesc_perm, QueryProofs.elem_of_matching in Hq.
  destruct Hq as (i & Hcand & Hget & Hm).
  assert (id ev = i) as <-. { destruct Hinv as [Hg _]. by apply (Hg i ev). }
  split; [done|].
  destruct (QueryProofs.collect_stored _ _ _ Hcons Hinv Hget) as (Ha & Hk & Hg).
  apply QueryProofs.candidates_spec in Hcand as (Hids & Hh & Hau & Hki & _).
  apply QueryProofs.matchesFilter_true in Hm as (Hs & Hu & He & Hp).
  unfold satisfiesByGroup. split; [|split; [|split; [|split; [|split; [|split]]]]].
  - intros l Hl. by apply Hids.
  - intros l Hl. by apply Ha, Hau.
  - intros l Hl. by apply Hk, Hki.
  - done.
  - done.
  - intros l Hl. by apply Hg, Hh.
  - done.
Qed.

(** A filter without limit returns every stored event that passes
    it. *)
Lemma query_complete univ st f ev :
  consistentIds univ -> storeInv univ st ->
  limit f = None ->
  get st (id ev) = Some ev -> satisfiesByGroup ev f -> ev ∈ query st f.
Proof.
  intros Hcons Hinv Hlim Hget (Hids & Hau & Hki & He & Hp & Hh & Hs & Hu).
  unfold query. rewrite Hlim.
  rewrite QueryProofs.sortDesc_perm, QueryProofs.elem_of_matching.
  destruct (QueryProofs.collect_stored _ _ _ Hcons Hinv Hget) as (Ha & Hk & Hg).
  exists (id ev). split; [|split; [done|]].
  - apply QueryProofs.candidates_spec. split; [|split; [|split; [|split]]].
    + intros l Hl. split; [by apply Hids|by eapply QueryProofs.map_has_get].
    + intros l Hl. by apply Hg, Hh.
    + intros l Hl. by apply Ha, Hau.
    + intros l Hl. by apply Hk, Hki.
    + intros _ _ _ _. by eapply QueryProofs.map_get_keys.
  - apply QueryProofs.matchesFilter_true. done.
Qed.

Lemma elem_of_req_frames (client : Client) subId es filters o :
  o ∈ flat_map (λ f, flat_map (λ ev, send client (EVENT subId ev)) (query es f))
               filters
  <-> wsOpen client = true
      ∧ ∃ f ev, f ∈ filters ∧ ev ∈ query es f
                ∧ o = (clientId client, EVENT subId ev).
Proof.
  rewrite list_elem_of_In, in_flat_map. split.
  - intros (f & Hf & Ho). apply in_flat_map in Ho as (ev & Hev & Ho).
    apply list_elem_of_In, elem_of_send in Ho as [Hopen ->].
    split; [done|]. exists f, ev. by rewrite !list_elem_of_In.
  - intros (Hopen & f & ev & Hf & Hev & ->). exists f.
    split; [by apply list_elem_of_In|]. apply in_flat_map. exists ev.
    split; [by apply list_elem_of_In|]. unfold send. rewrite Hopen. by left.
Qed.


(** X18: a REQ from a connection below its subscription limit
    replays the store. Every EVENT frame of the reply carries, under the
    subscription id, a stored event that passes one of the filters;
    every stored event that passes a filter without limit is sent; the
    reply ends with EOSE; the event store is untouched. An event passes
    the [#h] clause of a filter by its group, the non-empty value of its
    first [h] tag. At the limit the REQ is refused with CLOSED and
    changes nothing, even when it names a subscription the connection
    already has. *)
Theorem X18_req_replays_store (st : RelayState) (client : Client)
    (subId : string) (filters : list NostrFilter) (ops : list EventStoreOp) :
  eventStore st = runEventStore ops ->
  consistentIds (addedEvents ops) ->
  let r := handleReq st client subId filters in
  (maxSubscriptions (config st) <= Z.of_nat (length (subscriptions client)) ->
   r = (st, send client (CLOSED subId "error: too many subscriptions")))
  ∧ (Z.of_nat (length (subscriptions client)) < maxSubscriptions (config st) ->
     eventStore r.1 = eventStore st
     ∧ (∀ ev, (clientId client, EVENT subId ev) ∈ r.2 ->
          ∃ f, f ∈ filters ∧ get (eventStore st) (id ev) = Some ev
               ∧ satisfiesByGroup ev f)
     ∧ (wsOpen client = true ->
        (∀ f ev, f ∈ filters -> limit f = None ->
           get (eventStore st) (id ev) = Some ev -> satisfiesByGroup ev f ->
           (clientId client, EVENT subId ev) ∈ r.2)
        ∧ last r.2 = Some (clientId client, EOSE subId))).
Proof.
  intros Hstore Hcons r. subst r. unfold handleReq.
  pose proof (QueryProofs.storeInv_reachable ops) as Hinv.
  rewrite <- Hstore in Hinv.
  split.
  { intros Hlim. by rewrite (proj2 (Z.leb_le _ _) Hlim). }
  intros Hlim. rewrite (proj2 (Z.leb_gt _ _) Hlim). cbn [fst snd].
  split; [done|]. split.
  - intros ev Hev. apply elem_of_app in Hev as [Hev|Hev].
    + apply elem_of_req_frames in Hev as (_ & f & ev' & Hf & Hq & [= <-]).
      exists f. split; [done|]. by eapply query_sound.
    + apply elem_of_send in Hev as [_ [=]].
  - intros Hopen. split.
    + intros f ev Hf Hl Hget Hsat. apply elem_of_app. left.
      apply elem_of_req_frames. split; [done|]. exists f, ev.
      split; [done|]. split; [|done]. by eapply query_complete.
    + unfold send at 2. simpl. rewrite Hopen. by rewrite last_snoc.
Qed.

Lemma X18_witness :
  let r := handleReq relayWithChat submitter "s1" [anyFilter None] in
  (maxSubscriptions (config relayWithChat)
   <= Z.of_nat (length (subscriptions submitter)) ->
   r = (relayWithChat,
        send submitter (CLOSED "s1" "error: too many subscriptions")))
  ∧ (Z.of_nat (length (subscriptions submitter))
     < maxSubscriptions (config relayWithChat) ->
     eventStore r.1 = eventStore relayWithChat
     ∧ (∀ ev, (clientId submitter, EVENT "s1" ev) ∈ r.2 ->
          ∃ f, f ∈ [anyFilter None]
               ∧ get (eventStore relayWithChat) (id ev) = Some ev
               ∧ satisfiesByGroup ev f)
     ∧ (wsOpen submitter = true ->
        (∀ f ev, f ∈ [anyFilter None] -> limit f = None ->
           get (eventStore relayWithChat) (id ev) = Some ev -> satisfiesByGroup ev f ->
           (clientId submitter, EVENT "s1" ev) ∈ r.2)
        ∧ last r.2 = Some (clientId submitter, EOSE "s1"))).
Proof.
  apply (X18_req_replays_store relayWithChat submitter "s1" [anyFilter None]
           [OpAdd chatEvent]).
  - reflexivity.
  - intros x y Hx Hy _. simpl in Hx, Hy.
    apply list_elem_of_singleton in Hx as ->.
    by apply list_elem_of_singleton in Hy as ->.
Defined.



(** ** Authentication *)

Lemma send_ext (c c' : Client) m :
  clientId c' = clientId c -> wsOpen c' = wsOpen c -> send c' m = send c m.
Proof. unfold send. by intros -> ->. Qed.

(** X20: the AUTH gate. A relay that requires authentication refuses
    every event from a connection without an authenticated pubkey. An
    AUTH event is accepted exactly when it verifies, has kind 22242 and
    the value of its first challenge tag is the challenge of the
    connection, a missing value matching a challenge that was never
    issued; the connection then carries the author of the AUTH event.
    What [handleEvent] does depends on the connection only through its
    identity, its socket and whether it is authenticated: the
    authenticated pubkey is never compared with the author of an
    event. *)
Theorem X20_auth_gate `{Tools} (st : RelayState) (client client' : Client)
    (auth ev : Event) (now : Z) :
  (requireAuth (config st) = true ->
   truthy_str (authedPubkey client) = false ->
   refused st client ev (handleEvent st client ev now))
  ∧ (clientId client' = clientId client -> wsOpen client' = wsOpen client ->
     truthy_str (authedPubkey client') = truthy_str (authedPubkey client) ->
     handleEvent st client' ev now = handleEvent st client ev now)
  ∧ (let r := handleAuth st client auth in
     if bool_decide (verifyEvent auth = true ∧ kind auth = 22242
                     ∧ (λ tag, tag !! 1%nat) <$> findTag (tags auth) "challenge"
                       = Some (authChallenge client))
     then r.2 = send client (OK (id auth) true "")
          ∧ eventStore r.1 = eventStore st
          ∧ ∀ c, c ∈ clients r.1 -> clientId c = clientId client ->
                 authedPubkey c = Some (pubkey auth)
     else refused st client auth r).
Proof.
  split; [|split].
  - intros Hreq Hno. unfold handleEvent. rewrite Hreq, Hno. apply refused_intro.
  - intros Hid Hopen Hauth.
    unfold handleEvent, handleNip29Event, handleCapabilityEvent,
      checkEventAuthorization, handleModerationEvent, handleJoinRequest,
      handleLeaveRequest.
    unfold send. by rewrite Hauth, Hid, Hopen.
  - cbv zeta. unfold handleAuth.
    destruct (verifyEvent auth) eqn:Hsig; cbn [negb].
    2:{ rewrite bool_decide_eq_false_2 by (by intros [? _]).
        apply refused_intro. }
    destruct (Z.eqb_spec (kind auth) 22242) as [Hk|Hk]; cbn [negb].
    2:{ rewrite bool_decide_eq_false_2 by (by intros (_ & ? & _)).
        apply refused_intro. }
    destruct (findTag (tags auth) "challenge") as [tag|] eqn:Htag.
    2:{ rewrite bool_decide_eq_false_2 by (by intros (_ & _ & ?)).
        apply refused_intro. }
    destruct (decide (tag !! 1%nat = authChallenge client)) as [Hc|Hc].
    + rewrite (bool_decide_eq_true_2 _ Hc). cbn [negb].
      rewrite bool_decide_eq_true_2
        by (split; [done|]; split; [done|]; simpl; by rewrite Hc).
      split; [done|]. split; [done|].
      intros c Hin Hid. apply list_elem_of_fmap in Hin as (c0 & -> & _).
      simpl in *. destruct (Nat.eqb_spec (clientId c0) (clientId client)); done.
    + rewrite (bool_decide_eq_false_2 _ Hc). cbn [negb].
      rewrite bool_decide_eq_false_2; [apply refused_intro|].
      intros (_ & _ & [= ?]). done.
Qed.

Lemma X20_witness :
  refused relayAuth submitter chatBob
    (handleEvent (H := trusting) relayAuth submitter chatBob 101)
  ∧ handleEvent (H := trusting) relayAuth
      (withSubscriptions submitter [("s9", [anyFilter None])]) chatBob 101
    = handleEvent (H := trusting) relayAuth submitter chatBob 101
  ∧ (let r := handleAuth (H := trusting) relayAuth submitter authBob in
     r.2 = send submitter (OK (id authBob) true "")
     ∧ eventStore r.1 = eventStore relayAuth
     ∧ ∀ c, c ∈ clients r.1 -> clientId c = clientId submitter ->
            authedPubkey c = Some (pubkey authBob)).
Proof.
  destruct (X20_auth_gate (H := trusting) relayAuth submitter
              (withSubscriptions submitter [("s9", [anyFilter None])])
              authBob chatBob 101) as (Hgate & Hsame & Hauth).
  split; [apply Hgate; reflexivity|].
  split; [apply Hsame; reflexivity|].
  exact Hauth.
Defined.

(** ** The event store *)

(** X21: [add], [get] and [delete] of the event store. After [add] the
    event is found under its id and every other id is as before; after
    [delete] the id is not found, every other id is as before, and the
    window of recent prefixes is untouched; [delete] reports whether the
    id was stored, and leaves the store as it is when it was not. In a
    store built by [add] and [delete], no query returns an event under a
    deleted id. *)
Theorem X21_event_store_round_trips (es : EventStore) (ev : Event)
    (i j : string) (ops : list EventStoreOp) (f : NostrFilter) (x : Event) :
  get (add es ev) i = (if decide (id ev = i) then Some ev else get es i)
  ∧ get (delete es j).2 i = (if decide (j = i) then None else get es i)
  ∧ (delete es j).1 = bool_decide (is_Some (get es j))
  ∧ (get es j = None -> (delete es j).2 = es)
  ∧ recentEventPrefixes (delete es j).2 = recentEventPrefixes es
  ∧ (x ∈ query (delete (runEventStore ops) j).2 f -> id x ≠ j).
Proof.
  split; [apply get_add|]. split; [apply get_delete|].
  split; [apply delete_found|]. split.
  { unfold get, delete. by intros ->. }
  split; [apply ServerProofs.recentEventPrefixes_delete|].
  intros Hx%query_subseteq.
  rewrite QueryProofs.sortDesc_perm, QueryProofs.elem_of_matching in Hx.
  destruct Hx as (k & _ & Hget & _).
  pose proof (QueryProofs.storeInv_reachable (ops ++ [OpDelete j])) as [Hinv _].
  unfold runEventStore in Hinv. rewrite foldl_app in Hinv. simpl in Hinv.
  destruct (Hinv k x Hget) as [<- _].
  intros <-. change (map_get (id x) _) with
    (get (delete (runEventStore ops) (id x)).2 (id x)) in Hget.
  rewrite get_delete in Hget. by rewrite decide_True in Hget.
Qed.

(** ** The window of recent prefixes *)

Lemma length_recentEventPrefixes ops :
  (length (recentEventPrefixes (runEventStore ops)) <= 1000)%nat.
Proof.
  unfold runEventStore.
  induction ops as [|op ops IH] using rev_ind; [simpl; lia|].
  rewrite foldl_app. simpl. destruct op as [ev|j]; simpl.
  - by apply RelayProofs.length_addPrefix.
  - by rewrite ServerProofs.recentEventPrefixes_delete.
Qed.

Lemma addPrefix_new p r :
  p ∉ r ->
  addPrefix p r
  = if (1000 <? length (r ++ [p])%list)%nat
    then drop (length (r ++ [p])%list - 500) (r ++ [p])%list else (r ++ [p])%list.
Proof.
  intros Hp. unfold addPrefix, set_add, slice_last.
  by rewrite bool_decide_eq_false_2 by done.
Qed.

Lemma elem_of_addPrefix p r :
  (length r <= 1000)%nat -> p ∈ addPrefix p r.
Proof.
  intros Hlen. destruct (decide (p ∈ r)) as [Hin|Hin].
  - unfold addPrefix, set_add. rewrite bool_decide_eq_true_2 by done.
    destruct (Nat.ltb_spec 1000 (length r)); [lia|done].
  - rewrite addPrefix_new by done.
    destruct (Nat.ltb_spec 1000 (length (r ++ [p])%list)); [|set_solver].
    rewrite length_app in *. simpl in *.
    rewrite drop_app_le by lia. set_solver.
Qed.

Lemma window_distinct (evs : list Event) :
  NoDup (map (λ e, idPrefix (id e)) evs) ->
  ∃ k, recentEventPrefixes (afterAdds evs)
       = drop k (map (λ e, idPrefix (id e)) evs)
       ∧ (k <= length evs - 500)%nat
       ∧ (length evs - k <= 1000)%nat.
Proof.
  unfold afterAdds.
  induction evs as [|e evs IH] using rev_ind; intros Hnd.
  { exists 0%nat. simpl. split; [done|]. lia. }
  rewrite map_app in Hnd. simpl in Hnd.
  apply NoDup_app in Hnd as (Hnd & Hnew & _).
  destruct (IH Hnd) as (k & Hw & Hk & Hlen).
  rewrite foldl_app. simpl. rewrite Hw, map_app, length_app. simpl.
  set (P := map (λ e, idPrefix (id e)) evs) in *.
  set (p := idPrefix (id e)) in *.
  assert (length P = length evs) as HP by (subst P; by rewrite length_map).
  assert (p ∉ drop k P) as Hp.
  { intros Hin. apply (Hnew p); [|by left].
    eapply subseteq_drop, Hin. }
  rewrite addPrefix_new by done.
  rewrite <- drop_app_le by lia.
  destruct (Nat.ltb_spec 1000 (length (drop k (P ++ [p])%list))) as [Hbig|Hsmall].
  - rewrite drop_drop. eexists. split; [done|].
    rewrite length_drop, length_app in *. simpl in *. lia.
  - exists k. split; [done|].
    rewrite length_drop, length_app in *. simpl in *. lia.
Qed.

(** X22: what the window of recent prefixes remembers. In a store
    built by [add] and [delete] the prefix of an event that has just been
    added is in the window. After a sequence of [add]s of events with
    pairwise distinct prefixes, the window is the end of the sequence of
    their prefixes, at most 1000 long, and holds the prefix of each of
    the last 500 events. *)
Theorem X22_recent_prefix_window (ops : list EventStoreOp) (ev : Event)
    (evs : list Event) :
  hasRecentEventPrefix (add (runEventStore ops) ev) (idPrefix (id ev)) = true
  ∧ (NoDup (map (λ e, idPrefix (id e)) evs) ->
     (∃ k, recentEventPrefixes (afterAdds evs)
           = drop k (map (λ e, idPrefix (id e)) evs))
     ∧ (length (recentEventPrefixes (afterAdds evs)) <= 1000)%nat
     ∧ ∀ e, e ∈ drop (length evs - 500) evs ->
            hasRecentEventPrefix (afterAdds evs) (idPrefix (id e)) = true).
Proof.
  split.
  { unfold hasRecentEventPrefix. simpl. apply bool_decide_eq_true_2.
    apply elem_of_addPrefix, length_recentEventPrefixes. }
  intros Hnd. destruct (window_distinct evs Hnd) as (k & Hw & Hk & Hlen).
  split; [by exists k|]. split.
  { rewrite Hw, length_drop, length_map. lia. }
  intros e He. unfold hasRecentEventPrefix. apply bool_decide_eq_true_2.
  rewrite Hw.
  replace (length evs - 500)%nat with (k + (length evs - 500 - k))%nat in He
    by lia.
  rewrite <- drop_drop in He. apply subseteq_drop in He.
  rewrite <- (fmap_drop (λ e, idPrefix (id e))).
  apply list_elem_of_fmap. by exists e.
Qed.

Lemma X22_witness :
  hasRecentEventPrefix (add (runEventStore [OpAdd (eventNo 0)]) (eventNo 1))
    (idPrefix (id (eventNo 1))) = true
  ∧ (∃ k, recentEventPrefixes (afterAdds [eventNo 0; eventNo 1])
          = drop k (map (λ e, idPrefix (id e)) [eventNo 0; eventNo 1]))
  ∧ (length (recentEventPrefixes (afterAdds [eventNo 0; eventNo 1])) <= 1000)%nat
  ∧ ∀ e, e ∈ drop (length [eventNo 0; eventNo 1] - 500) [eventNo 0; eventNo 1] ->
         hasRecentEventPrefix (afterAdds [eventNo 0; eventNo 1])
           (idPrefix (id e)) = true.
Proof.
  destruct (X22_recent_prefix_window [OpAdd (eventNo 0)] (eventNo 1)
              [eventNo 0; eventNo 1]) as [Hlatest Hwindow].
  split; [exact Hlatest|]. apply Hwindow.
  apply (bool_decide_unpack _). by vm_compute.
Defined.

End RelayApiProofs.
(** * Properties of the signer beyond the claims *)

Module RoundsProofs.
Import JS Signer SignerSpec SignerRounds SignerRoundsSpec Examples RoundsExamples.

(** ** The polynomial *)

Lemma CURVE_ORDER_pos : 0 < CURVE_ORDER.
Proof. done. Qed.

Lemma CURVE_ORDER_lt : CURVE_ORDER < 2 ^ 256.
Proof. done. Qed.

Lemma evaluate_loop (x : Z) (cs : list Z) (r p : Z) :
  0 <= x -> Forall (λ c, 0 <= c) cs -> 0 <= r < CURVE_ORDER -> 0 <= p ->
  let out := (foldl (λ acc coeff,
                       (Z.rem (acc.1 + coeff * acc.2) CURVE_ORDER,
                        Z.rem (acc.2 * x) CURVE_ORDER))
                    (r, p) cs).1 in
  0 <= out < CURVE_ORDER
  ∧ out = (r + p * polyValue cs x) mod CURVE_ORDER.
Proof.
  intros Hx Hcs. revert r p.
  induction Hcs as [|c cs Hc Hcs IH]; intros r p Hr Hp; simpl.
  - split; [done|]. rewrite Z.mul_0_r, Z.add_0_r.
    symmetry. by apply Z.mod_small.
  - pose proof CURVE_ORDER_pos as Hn.
    rewrite !Z.rem_mod_nonneg by nia.
    destruct (IH ((r + c * p) mod CURVE_ORDER) ((p * x) mod CURVE_ORDER))
      as [Hrange Hval].
    { apply Z.mod_pos_bound. lia. }
    { apply Z.mod_pos_bound. lia. }
    split; [done|]. rewrite Hval.
    rewrite Z.add_mod_idemp_l by lia.
    rewrite <- Z.add_mod_idemp_r by lia.
    rewrite Z.mul_mod_idemp_l by lia.
    rewrite Z.add_mod_idemp_r by lia.
    f_equal. ring.
Qed.

(** X23: [evaluatePolynomial] computes the value of the polynomial
    modulo the order of the curve. For coefficients and a point that are
    not negative, the result is the residue in [0, n) of the polynomial
    with these coefficients, constant term first; at zero it is the
    residue of the constant term, the secret the polynomial shares. *)
Theorem X23_evaluatePolynomial_value (coefficients : list Z) (x : Z) :
  0 <= x -> Forall (λ c, 0 <= c) coefficients ->
  evaluatePolynomial coefficients x = polyValue coefficients x mod CURVE_ORDER
  ∧ 0 <= evaluatePolynomial coefficients x < CURVE_ORDER
  ∧ evaluatePolynomial coefficients 0 = default 0 (head coefficients) mod CURVE_ORDER.
Proof.
  intros Hx Hcs. pose proof CURVE_ORDER_pos as Hn.
  destruct (evaluate_loop x coefficients 0 1 Hx Hcs) as [Hrange Hval];
    [lia|lia|].
  destruct (evaluate_loop 0 coefficients 0 1 (Z.le_refl 0) Hcs)
    as [_ Hzero]; [lia|lia|].
  unfold evaluatePolynomial. split; [|split; [done|]].
  - rewrite Hval. f_equal. lia.
  - rewrite Hzero. f_equal. destruct coefficients; simpl; lia.
Qed.

Lemma X23_witness :
  evaluatePolynomial [5; 3; 2] 2 = polyValue [5; 3; 2] 2 mod CURVE_ORDER
  ∧ 0 <= evaluatePolynomial [5; 3; 2] 2 < CURVE_ORDER
  ∧ evaluatePolynomial [5; 3; 2] 0 = default 0 (head [5; 3; 2]) mod CURVE_ORDER.
Proof.
  apply (X23_evaluatePolynomial_value [5; 3; 2] 2); [lia|].
  repeat constructor; lia.
Defined.

(** ** Hexadecimal notation *)

Lemma hexDigits_hexGo (fuel : nat) (n : N) (acc : string) :
  (n < 2 ^ N.of_nat fuel)%N ->
  hexDigits (hexGo fuel n acc) 0 = hexDigits acc (Z.of_N n).
Proof.
  revert n acc. induction fuel as [|fuel IH]; intros n acc Hn.
  - simpl in *. by replace n with 0%N by lia.
  - simpl. destruct (N.eqb_spec n 0) as [->|Hpos]; [done|].
    rewrite IH.
    2:{ rewrite Nat2N.inj_succ, N.pow_succ_r' in Hn.
        apply N.Div0.div_lt_upper_bound. lia. }
    simpl. rewrite SignerProofs.hexValue_hexDigit by (apply N.mod_lt; lia).
    f_equal. pose proof (N.div_mod n 16 ltac:(lia)). lia.
Qed.

Lemma length_hexGo (fuel : nat) (n : N) (acc : string) (m : nat) :
  (n < 16 ^ N.of_nat m)%N ->
  (String.length (hexGo fuel n acc) <= String.length acc + m)%nat.
Proof.
  revert n acc m. induction fuel as [|fuel IH]; intros n acc m Hn; simpl; [lia|].
  destruct (N.eqb_spec n 0) as [->|Hpos]; [lia|].
  destruct m as [|m]; [simpl in Hn; lia|].
  etrans; [apply (IH _ _ m)|simpl; lia].
  rewrite Nat2N.inj_succ, N.pow_succ_r' in Hn.
  apply N.Div0.div_lt_upper_bound. lia.
Qed.

Lemma hexDigits_zeros (k : nat) (s : string) :
  hexDigits (zeros k s) 0 = hexDigits s 0.
Proof. induction k as [|k IH]; simpl; done. Qed.

Lemma length_zeros (k : nat) (s : string) :
  String.length (zeros k s) = (k + String.length s)%nat.
Proof. induction k as [|k IH]; simpl; [done|]. by rewrite IH. Qed.

Lemma substring_all (s : string) : substring 0 (String.length s) s = s.
Proof. induction s as [|c s IH]; simpl; [done|]. by rewrite IH. Qed.

Lemma hexDigits_toString16 (n : Z) :
  0 <= n -> hexDigits (toString16 n) 0 = Some n.
Proof.
  intros Hn. destruct n as [|p|p]; [done| |lia].
  unfold toString16. rewrite hexDigits_hexGo; [done|].
  rewrite Nat2N.inj_succ, N2Nat.id.
  apply N.log2_spec. lia.
Qed.

Lemma length_toString16 (n : Z) :
  0 <= n < 2 ^ 256 -> (String.length (toString16 n) <= 64)%nat.
Proof.
  intros Hn. destruct n as [|p|p]; [simpl; lia| |lia].
  unfold toString16. apply (length_hexGo _ _ "" 64).
  change (16 ^ N.of_nat 64)%N with (Z.to_N (2 ^ 256)). lia.
Qed.

(** X24: [bigintToHex] writes a number below 2^256 as exactly 64
    hexadecimal digits, and [BigInt] of these digits after [0x] is the
    number again. *)
Theorem X24_bigintToHex_round_trip (n : Z) :
  0 <= n < 2 ^ 256 ->
  String.length (bigintToHex n) = 64%nat
  ∧ BigInt0x (bigintToHex n) = Some n.
Proof.
  intros Hn. pose proof (length_toString16 n Hn) as Hlen.
  assert (String.length (padStart0 64 (toString16 n)) = 64%nat) as Hpad.
  { unfold padStart0. rewrite length_zeros. lia. }
  assert (bigintToHex n = padStart0 64 (toString16 n)) as ->.
  { unfold bigintToHex, sliceLast. rewrite Hpad. simpl.
    rewrite <- Hpad at 1. apply substring_all. }
  split; [done|]. unfold BigInt0x.
  destruct (padStart0 64 (toString16 n)) eqn:E; [done|]. rewrite <- E.
  unfold padStart0. rewrite hexDigits_zeros. apply hexDigits_toString16. lia.
Qed.

Lemma X24_witness :
  String.length (bigintToHex 48879) = 64%nat
  ∧ BigInt0x (bigintToHex 48879) = Some 48879.
Proof. apply (X24_bigintToHex_round_trip 48879). lia. Defined.

(** ** The first round of the key generation *)

Lemma size_bounded {V} (m : gmap Z V) (n : Z) :
  (∀ i, is_Some (m !! i) -> 1 <= i <= n) ->
  Z.of_nat (size m) <= Z.max n 0
  ∧ (Z.of_nat (size m) = n -> ∀ i, 1 <= i <= n -> is_Some (m !! i)).
Proof.
  intros Hdom.
  assert (dom m ⊆ (list_to_set (seqZ 1 n) : gset Z)) as Hsub.
  { intros i Hi%elem_of_dom. apply elem_of_list_to_set, elem_of_seqZ.
    specialize (Hdom i Hi). lia. }
  assert (size (list_to_set (seqZ 1 n) : gset Z) = Z.to_nat n) as Hsize.
  { rewrite size_list_to_set by apply NoDup_seqZ. apply length_seqZ. }
  pose proof (subseteq_size _ _ Hsub) as Hle.
  rewrite size_dom, Hsize in Hle. split; [lia|].
  intros Hfull i Hi. apply elem_of_dom.
  rewrite (set_subseteq_size_eq _ _ Hsub).
  - apply elem_of_list_to_set, elem_of_seqZ. lia.
  - rewrite size_dom, Hsize. lia.
Qed.

Lemma sampleCoefficients_length random_bytes i count cs :
  sampleCoefficients random_bytes i count = Ok cs -> length cs = count.
Proof.
  revert i cs. induction count as [|count IH]; intros i cs; simpl.
  - by intros [= <-].
  - destruct (BigInt0x _); [|done].
    destruct (sampleCoefficients random_bytes (S i) count) as [rest|] eqn:E;
      simpl; [|done].
    intros [= <-]. simpl. f_equal. by eapply IH.
Qed.

Lemma createDKGSession_Ok cfg s0 :
  createDKGSession cfg = Ok s0 ->
  2 <= threshold cfg <= maxSigners cfg
  ∧ Z.of_nat (length (participants cfg)) = maxSigners cfg
  ∧ 1 <= myIndex cfg <= maxSigners cfg
  ∧ s0 = {| config := cfg; state := initialized;
            round1Packages := ∅; round2Packages := ∅;
            myRound1Secret := None; keyPackage := None |}.
Proof.
  unfold createDKGSession.
  destruct (Z.ltb_spec (threshold cfg) 2); [done|].
  destruct (Z.ltb_spec (maxSigners cfg) (threshold cfg)); [done|].
  destruct (Z.eqb_spec (Z.of_nat (length (participants cfg))) (maxSigners cfg));
    [|done].
  destruct (Z.ltb_spec (myIndex cfg) 1); [done|].
  destruct (Z.ltb_spec (maxSigners cfg) (myIndex cfg)); [done|].
  simpl. intros [= <-]. done.
Qed.

Lemma round1Inv_step `{Frost} cfg s op :
  2 <= threshold cfg -> 1 <= myIndex cfg <= maxSigners cfg ->
  round1Inv cfg s -> round1Inv cfg (stepRound1 s op).
Proof.
  intros Ht Hme (Hcfg & Hstate & Hpk & Hown & Hfull).
  destruct op as [random_bytes|pkg]; simpl.
  - unfold generateRound1Package.
    destruct (decide (state s = initialized)) as [Hinit|Hn].
    2:{ rewrite (bool_decide_eq_false_2 _ Hn). simpl. done. }
    rewrite (bool_decide_eq_true_2 _ Hinit). simpl.
    destruct (sampleCoefficients random_bytes 0
                (Z.to_nat (threshold (config s)))) as [cs|] eqn:Hcs;
      simpl; [|done].
    destruct (get_share_commits cs) as [commits|]; simpl; [|done].
    apply sampleCoefficients_length in Hcs. rewrite Hcfg in *.
    split; [done|]. split; [by left|]. split; [|split].
    + intros i pkg. simpl. rewrite lookup_insert_Some.
      intros [[<- <-]|[Hne Hi]]; [done|]. by apply Hpk.
    + intros _. exists cs. split; [done|]. lia.
    + simpl. congruence.
  - unfold processRound1Package.
    destruct (negb (bool_decide (state s = initialized))
              && negb (bool_decide (state s = round1_complete)));
      [done|].
    rewrite Hcfg.
    destruct (Z.eqb_spec (idx pkg) (myIndex cfg)) as [|Hother]; [done|].
    destruct (Z.ltb_spec (idx pkg) 1); [done|].
    destruct (Z.ltb_spec (maxSigners cfg) (idx pkg)); [done|].
    destruct (Z.eqb_spec (Z.of_nat (length (vssCommitments pkg))) (threshold cfg))
      as [Hlen|]; [|done].
    simpl.
    assert (∀ i p, <[idx pkg := pkg]> (round1Packages s) !! i = Some p ->
              idx p = i ∧ 1 <= i <= maxSigners cfg
              ∧ (i ≠ myIndex cfg ->
                 Z.of_nat (length (vssCommitments p)) = threshold cfg)) as Hpk'.
    { intros i p. rewrite lookup_insert_Some.
      intros [[<- <-]|[Hne Hi]]; [done|]. by apply Hpk. }
    split; [done|]. split; [|split; [done|split]].
    + destruct (_ =? _); [by right|done].
    + simpl. rewrite lookup_insert_ne by done. done.
    + simpl. destruct (Z.eqb_spec
                         (Z.of_nat (size (<[idx pkg := pkg]> (round1Packages s))))
                         (maxSigners cfg)) as [Heq|Hneq]; [done|].
      intros Hcomplete. specialize (Hfull Hcomplete).
      destruct (size_bounded (round1Packages s) (maxSigners cfg)) as [_ Hall].
      { intros i [p Hi]. by destruct (Hpk i p Hi) as (_ & ? & _). }
      destruct (Hall Hfull (idx pkg) ltac:(lia)) as [old Hold].
      rewrite map_size_insert_Some in Hneq by done. done.
Qed.

(** X25: what a session keeps through the first round. Whatever
    sequence of [generateRound1Package] and [processRound1Package] calls
    is made on a new session, the session keeps its configuration and is
    in state initialized or round1_complete; every package it holds is
    filed under its sender's index, between 1 and the number of signers,
    and a package of another participant has one commitment for each
    coefficient; a package under the participant's own index comes with
    the coefficients behind it, as many as the threshold; and in state
    round1_complete the session holds at least as many packages as there
    are signers. *)
Theorem X25_round1_session_invariant `{Frost} (cfg : DKGConfig)
    (s0 : DKGSession) (ops : list Round1Op) :
  createDKGSession cfg = Ok s0 ->
  let s := foldl stepRound1 s0 ops in
  config s = cfg
  ∧ (state s = initialized ∨ state s = round1_complete)
  ∧ (∀ i pkg, round1Packages s !! i = Some pkg ->
       idx pkg = i ∧ 1 <= i <= maxSigners cfg
       ∧ (i ≠ myIndex cfg ->
          Z.of_nat (length (vssCommitments pkg)) = threshold cfg))
  ∧ (is_Some (round1Packages s !! myIndex cfg) ->
     ∃ cs, myRound1Secret s = Some cs
           ∧ Z.of_nat (length cs) = threshold cfg)
  ∧ (state s = round1_complete ->
     maxSigners cfg <= Z.of_nat (size (round1Packages s))).
Proof.
  intros Hcreate s.
  destruct (createDKGSession_Ok _ _ Hcreate) as (Ht & _ & Hme & ->).
  assert (∀ l s1, round1Inv cfg s1 -> round1Inv cfg (foldl stepRound1 s1 l))
    as Hrun.
  { induction l as [|op l IH]; intros s1 Hinv; [done|].
    simpl. apply IH. apply round1Inv_step; [lia|done|done]. }
  assert (round1Inv cfg s) as (Hcfg & Hstate & Hpk & Hown & Hfull).
  { subst s. apply Hrun.
    split; [done|]. split; [by left|]. split; [|split]; simpl.
    - intros i pkg. by rewrite lookup_empty.
    - rewrite lookup_empty. by intros [? ?].
    - done. }
  split; [done|]. split; [done|]. split; [done|]. split; [done|].
  intros Hcomplete. specialize (Hfull Hcomplete). lia.
Qed.

Lemma X25_witness :
  let s := foldl (stepRound1 (H := checkingFrost)) session23
             [OpProcess (packageOf 2 ["a1"; "a2"]); OpGenerate countingBytes;
              OpProcess (packageOf 3 ["c1"; "c2"])] in
  state s = round1_complete
  ∧ myRound1Secret s = Some [1; 2]
  ∧ config s = config23
  ∧ (state s = initialized ∨ state s = round1_complete)
  ∧ (∀ i pkg, round1Packages s !! i = Some pkg ->
       idx pkg = i ∧ 1 <= i <= maxSigners config23
       ∧ (i ≠ myIndex config23 ->
          Z.of_nat (length (vssCommitments pkg)) = threshold config23))
  ∧ (is_Some (round1Packages s !! myIndex config23) ->
     ∃ cs, myRound1Secret s = Some cs
           ∧ Z.of_nat (length cs) = threshold config23)
  ∧ (state s = round1_complete ->
     maxSigners config23 <= Z.of_nat (size (round1Packages s))).
Proof.
  split; [by vm_compute|]. split; [by vm_compute|].
  apply (X25_round1_session_invariant (H := checkingFrost) config23 session23
           [OpProcess (packageOf 2 ["a1"; "a2"]); OpGenerate countingBytes;
            OpProcess (packageOf 3 ["c1"; "c2"])]).
  reflexivity.
Defined.

(** ** The second round *)

Lemma round2PackageFor_Ok `{Nip44} nonce session cs toIdx' pkg :
  round2PackageFor nonce session cs toIdx' = Ok pkg ->
  toIdx pkg = toIdx' ∧ sealedFor session cs pkg.
Proof.
  unfold round2PackageFor, sealedFor.
  destruct (participantAt _ toIdx') as [recipient|] eqn:Hr; simpl; [|done].
  destruct (String.eqb_spec recipient "") as [|Hne]; simpl; [done|].
  destruct (hexToBytes _) as [secret|] eqn:Hs; simpl; [|done].
  destruct (getConversationKey secret recipient) as [key|] eqn:Hk; simpl; [|done].
  destruct (encrypt nonce _ key) as [text|] eqn:He; simpl; [|done].
  intros [= <-]. simpl. split; [done|]. split; [done|].
  exists recipient, secret, key, nonce. by rewrite Hr.
Qed.

Lemma round2Loop_Ok `{Nip44} nonces i session cs recipients pkgs :
  round2Loop nonces i session cs recipients = Ok pkgs ->
  map toIdx pkgs = filter (λ j, j ≠ myIndex (config session)) recipients
  ∧ Forall (sealedFor session cs) pkgs.
Proof.
  revert i pkgs. induction recipients as [|j recipients IH]; intros i pkgs; simpl.
  - by intros [= <-].
  - destruct (Z.eqb_spec j (myIndex (config session))) as [->|Hne].
    + rewrite filter_cons_False by (by intros ?). apply IH.
    + rewrite filter_cons_True by done.
      destruct (round2PackageFor (nonces i) session cs j) as [pkg|] eqn:Hp;
        simpl; [|done].
      destruct (round2Loop nonces (S i) session cs recipients) as [rest|] eqn:Hl;
        simpl; [|done].
      intros [= <-]. apply round2PackageFor_Ok in Hp as [<- Hsealed].
      destruct (IH _ _ Hl) as [Heq Hrest]. simpl. rewrite Heq.
      split; [done|]. by constructor.
Qed.

Lemma round2Loop_total `{Nip44} nonces i session cs recipients :
  (∀ j, j ∈ recipients -> j ≠ myIndex (config session) ->
        truthy_str (participantAt (participants (config session)) j) = true) ->
  (∀ text, ∃ bytes, hexToBytes text = Ok bytes) ->
  (∀ bytes pk, ∃ key, getConversationKey bytes pk = Ok key) ->
  (∀ nonce text key, ∃ sealed, encrypt nonce text key = Ok sealed) ->
  ∃ pkgs, round2Loop nonces i session cs recipients = Ok pkgs.
Proof.
  intros Hpk Hhex Hkey Henc. revert i.
  induction recipients as [|j recipients IH]; intros i; simpl; [by eexists|].
  destruct (Z.eqb_spec j (myIndex (config session))) as [->|Hne].
  { apply IH. intros j' Hj'. apply Hpk. by right. }
  unfold round2PackageFor. rewrite Hpk by (done || by left). simpl.
  destruct (Hhex (mySecretKey (config session))) as [bytes ->]. simpl.
  destruct (Hkey bytes (default "" (participantAt (participants (config session)) j)))
    as [key ->]. simpl.
  destruct (Henc (nonces i)
              (bigintToHex (evaluatePolynomial cs j)) key) as [sealed ->]. simpl.
  destruct (IH (λ j' Hj', Hpk j' (list_elem_of_further _ _ _ Hj')) (S i))
    as [rest ->].
  simpl. by eexists.
Qed.

(** X26: the second round deals one share to every other participant.
    [generateRound2Packages] throws unless the session is in state
    round1_complete with its coefficients. When it returns, the packages
    are addressed, in ascending order, to every index from 1 to the
    number of signers except the participant's own; each comes from the
    participant and carries the value of its polynomial at the
    recipient's index, as 64 hex digits encrypted for the recipient's
    pubkey. The participant's own share is filed under its index
    unencrypted, and the state is left as it was. It does return when
    every other participant has a pubkey and the library calls do. *)
Theorem X26_round2_packages `{Nip44} (nonces : nat -> Nonce)
    (session : DKGSession) :
  (state session ≠ round1_complete ∨ myRound1Secret session = None ->
   throws (generateRound2Packages nonces session))
  ∧ (∀ pkgs session',
       generateRound2Packages nonces session = Ok (pkgs, session') ->
       ∃ cs, myRound1Secret session = Some cs
         ∧ map toIdx pkgs
           = filter (λ j, j ≠ myIndex (config session))
                    (seqZ 1 (maxSigners (config session)))
         ∧ Forall (sealedFor session cs) pkgs
         ∧ state session' = state session
         ∧ round1Packages session' = round1Packages session
         ∧ round2Packages session'
           = <[myIndex (config session) :=
                 {| fromIdx := myIndex (config session);
                    toIdx := myIndex (config session);
                    encryptedShare :=
                      bigintToHex (evaluatePolynomial cs (myIndex (config session)))
                 |}]> (round2Packages session))
  ∧ (state session = round1_complete ->
     is_Some (myRound1Secret session) ->
     (∀ j, 1 <= j <= maxSigners (config session) ->
           j ≠ myIndex (config session) ->
           truthy_str (participantAt (participants (config session)) j) = true) ->
     (∀ text, ∃ bytes, hexToBytes text = Ok bytes) ->
     (∀ bytes pk, ∃ key, getConversationKey bytes pk = Ok key) ->
     (∀ nonce text key, ∃ sealed, encrypt nonce text key = Ok sealed) ->
     ∃ pkgs session', generateRound2Packages nonces session = Ok (pkgs, session')).
Proof.
  unfold generateRound2Packages. split; [|split].
  - intros [Hstate|Hsecret].
    + rewrite (bool_decide_eq_false_2 _ Hstate). simpl. by eexists.
    + rewrite Hsecret. destruct (negb _); by eexists.
  - intros pkgs session'.
    destruct (negb (bool_decide (state session = round1_complete))); [done|].
    destruct (myRound1Secret session) as [cs|]; [|done].
    destruct (round2Loop nonces 0 session cs _) as [l|] eqn:Hl; simpl; [|done].
    intros [= <- <-]. exists cs. simpl.
    destruct (round2Loop_Ok _ _ _ _ _ _ Hl) as [Hto Hsealed]. done.
  - intros Hstate [cs Hcs] Hpk Hhex Hkey Henc.
    rewrite (bool_decide_eq_true_2 _ Hstate), Hcs. simpl.
    destruct (round2Loop_total nonces 0 session cs
                (seqZ 1 (maxSigners (config session)))) as [pkgs ->];
      [|done|done|done|simpl; by do 2 eexists].
    intros j Hj. apply Hpk. apply elem_of_seqZ in Hj. lia.
Qed.

Lemma X26_witness :
  ∃ pkgs session',
    generateRound2Packages (H := plainNip44) (λ _, ()) session23complete
    = Ok (pkgs, session').
Proof.
  apply (X26_round2_packages (H := plainNip44) (λ _, ()) session23complete).
  - reflexivity.
  - by eexists.
  - intros j Hj Hne. simpl in *.
    assert (j = 2 ∨ j = 3) as [-> | ->] by lia; reflexivity.
  - intros text. by eexists.
  - intros bytes pk. by eexists.
  - intros nonce text key. by eexists.
Defined.

(** ** One-shot signing *)

Lemma slice0_take {A} (l : list A) (t : Z) :
  0 < t -> slice0 (take (Z.to_nat t) l) t = slice0 l t.
Proof.
  intros Ht. unfold slice0.
  destruct (Z.ltb_spec t 0); [lia|]. by rewrite take_take, Nat.min_id.
Qed.

(** X27: what [signWithShares] returns has been verified, and only the
    first [threshold] shares count. A signature it returns is one that
    [verifySignature] accepts for the message under the group key of the
    first share; and for a positive threshold that the shares reach, the
    call does exactly what it does on the first [threshold] shares
    alone. *)
Theorem X27_signWithShares_verified `{Frost} (seeds : nat -> Seed)
    (shares : list ShareWithPubkey) (message : string) (threshold : Z)
    (signature : string) :
  (signWithShares seeds shares message threshold = Ok signature ->
   ∃ first, head shares = Some first
            ∧ verifySignature (groupPubkey first) message signature = true)
  ∧ (0 < threshold <= Z.of_nat (length shares) ->
     signWithShares seeds shares message threshold
     = signWithShares seeds (take (Z.to_nat threshold) shares) message threshold).
Proof.
  split.
  - unfold signWithShares, verifySignature.
    destruct (Z.of_nat (length shares) <? threshold); [done|].
    destruct (slice0 shares threshold !! 0%nat) as [first|] eqn:Hfirst; [|done].
    assert (head shares = Some first) as Hhead.
    { rewrite head_lookup. unfold slice0 in Hfirst.
      destruct (threshold <? 0);
        by apply lookup_take_Some in Hfirst as [? _]. }
    destruct (createCommits seeds 0 _) as [commits|]; simpl; [|done].
    destruct (get_group_signing_ctx _ _ _) as [ctx|]; simpl; [|done].
    destruct (mapR _ _) as [psigs|]; simpl; [|done].
    destruct (combine_partial_sigs ctx psigs) as [sig|]; simpl; [|done].
    destruct (get_group_key_context (groupPubkey first)) as [keyCtx|] eqn:Hk;
      simpl; [|done].
    destruct (verify_final_sig keyCtx message sig) as [[|]|] eqn:Hv;
      simpl; [|done|done].
    intros [= <-]. exists first. split; [done|]. rewrite Hk. simpl.
    by rewrite Hv.
  - intros [Hpos Hle]. unfold signWithShares.
    rewrite length_take, slice0_take by done.
    destruct (Z.ltb_spec (Z.of_nat (length shares)) threshold); [lia|].
    destruct (Z.ltb_spec (Z.of_nat (Z.to_nat threshold `min` length shares))
                threshold); [lia|done].
Qed.

Lemma X27_witness :
  (∃ first, head threeShares = Some first
            ∧ verifySignature (H := fixedFrost) (groupPubkey first) "deadbeef"
                "signature" = true)
  ∧ signWithShares (H := fixedFrost) (λ _, ()) threeShares "deadbeef" 2
    = signWithShares (H := fixedFrost) (λ _, ())
        (take (Z.to_nat 2) threeShares) "deadbeef" 2.
Proof.
  destruct (X27_signWithShares_verified (H := fixedFrost) (λ _, ())
              threeShares "deadbeef" 2 "signature") as [Hverified Hprefix].
  split; [apply Hverified; reflexivity|]. apply Hprefix. simpl. lia.
Defined.

(** ** The signing session *)

Lemma stepSigning_frame `{FrostPartial} (s : SigningSession) (op : SigningOp) :
  sconfig (stepSigning s op) = sconfig s
  ∧ skeyPackage (stepSigning s op) = skeyPackage s
  ∧ (∀ c, myCommitment s = Some c -> myCommitment (stepSigning s op) = Some c)
  ∧ dom (publicNonces s) ⊆ dom (publicNonces (stepSigning s op))
  ∧ dom (partialSignatures s) ⊆ dom (partialSignatures (stepSigning s op)).
Proof.
  destruct op as [seed|nonce| |partialSig|]; simpl.
  - unfold generateNonceCommitment.
    destruct (myCommitment s) as [c|] eqn:Hc; [by rewrite Hc|].
    destruct (create_commit_pkg seed _) as [commitment|]; simpl;
      [|by rewrite Hc].
    split; [done|]. split; [done|]. split; [done|].
    split; [|done]. rewrite dom_insert. set_solver.
  - unfold processPublicNonce.
    destruct (negb _); [done|]. destruct (_ && _); [done|]. simpl.
    split; [done|]. split; [done|]. split; [done|].
    split; [|done]. rewrite dom_insert. set_solver.
  - unfold generatePartialSignature.
    destruct (myCommitment s) as [c|] eqn:Hc; [|by rewrite Hc].
    destruct (negb (hasAllNonces s)); [by rewrite Hc|].
    destruct (get_group_signing_ctx _ _ _) as [ctx|]; simpl; [|by rewrite Hc].
    destruct (get_commit_pkg _ _) as [commit|]; simpl; [|by rewrite Hc].
    destruct (sign_msg ctx _ commit) as [sig|]; simpl; [|by rewrite Hc].
    destruct (verify_partial_sig ctx _ _ _) as [[|]|]; simpl;
      [|by rewrite Hc|by rewrite Hc].
    split; [done|]. split; [done|]. split; [done|].
    split; [done|]. rewrite dom_insert. set_solver.
  - unfold processPartialSignature.
    destruct (negb (hasAllNonces s)); [done|].
    destruct (negb (bool_decide _)); [done|].
    destruct (get_group_signing_ctx _ _ _) as [ctx|]; simpl; [|done].
    destruct (publicNonces s !! ps_idx partialSig) as [pnonce|]; [|done].
    destruct (verify_partial_sig ctx pnonce _ _) as [[|]|]; simpl;
      [|done|done].
    split; [done|]. split; [done|]. split; [done|].
    split; [done|]. rewrite dom_insert. set_solver.
  - unfold aggregateSignatures.
    destruct (negb (hasAllPartialSignatures s)); [done|].
    destruct (get_group_signing_ctx _ _ _) as [ctx|]; simpl; [|done].
    destruct (combine_partial_sigs ctx _) as [sig|]; simpl; [|done].
    destruct (get_group_key_context _) as [keyCtx|]; simpl; [|done].
    destruct (verify_final_sig keyCtx _ sig) as [[|]|]; simpl; done.
Qed.

(** X28: a signing session commits to its nonces once. Whatever
    calls are made on a session, its configuration and key package stay
    the same and the nonces and partial signatures it holds are never
    dropped; once a commitment has been generated it stays the same for
    the rest of the session, and every further
    [generateNonceCommitment] throws. A session is only created for a
    signer list that reaches the threshold and names the participant. *)
Theorem X28_signing_session_commits_once `{FrostPartial}
    (config : SigningConfig) (keyPackage : KeyPackage) (s : SigningSession)
    (ops : list SigningOp) (seed : Seed) :
  (∀ s0, createSigningSession config keyPackage = Ok s0 ->
         kp_threshold keyPackage <= Z.of_nat (length (signerIndices config))
         ∧ share_idx (kp_share keyPackage) ∈ signerIndices config
         ∧ myCommitment s0 = None ∧ publicNonces s0 = ∅
         ∧ partialSignatures s0 = ∅)
  ∧ (let s' := foldl stepSigning s ops in
     sconfig s' = sconfig s ∧ skeyPackage s' = skeyPackage s
     ∧ dom (publicNonces s) ⊆ dom (publicNonces s')
     ∧ dom (partialSignatures s) ⊆ dom (partialSignatures s')
     ∧ ∀ c, myCommitment s = Some c ->
            myCommitment s' = Some c
            ∧ generateNonceCommitment seed s'
              = Throw "Nonce commitment already generated for this session").
Proof.
  split.
  - intros s0. unfold createSigningSession.
    destruct (Z.ltb_spec (Z.of_nat (length (signerIndices config)))
                (kp_threshold keyPackage)); [done|].
    case_bool_decide; [|done]. simpl. by intros [= <-].
  - cbv zeta. revert s. induction ops as [|op ops IH]; intros s; simpl.
    + split; [done|]. split; [done|]. split; [done|]. split; [done|].
      intros c Hc. split; [done|]. unfold generateNonceCommitment. by rewrite Hc.
    + destruct (stepSigning_frame s op) as (Hcfg & Hkp & Hc & Hn & Hp).
      destruct (IH (stepSigning s op)) as (Hcfg' & Hkp' & Hn' & Hp' & Hc').
      split; [congruence|]. split; [congruence|].
      split; [set_solver|]. split; [set_solver|].
      intros c Hs. apply Hc'. by apply Hc.
Qed.

Lemma X28_witness :
  let s' := foldl (stepSigning (H := fixedFrost) (H0 := fixedPartial))
              session12committed
              [OpNonce (H := fixedFrost)
                 {| pn_idx := 2; hidden_pn := "H2"; binder_pn := "B2" |};
               OpCommit (H := fixedFrost) (); OpSign (H := fixedFrost)] in
  myCommitment s' = myCommitment session12committed
  ∧ generateNonceCommitment (H := fixedFrost) () s'
    = Throw "Nonce commitment already generated for this session".
Proof.
  destruct (X28_signing_session_commits_once (H := fixedFrost)
              (H0 := fixedPartial)
              signingConfig12 keyPackage1 session12committed
              [OpNonce (H := fixedFrost)
                 {| pn_idx := 2; hidden_pn := "H2"; binder_pn := "B2" |};
               OpCommit (H := fixedFrost) (); OpSign (H := fixedFrost)] ())
    as (_ & _ & _ & _ & _ & Honce).
  apply (Honce {| cp_idx := 1; hidden_sn := "h"; binder_sn := "b";
                  cp_hidden_pn := "H"; cp_binder_pn := "B" |}).
  reflexivity.
Defined.

End RoundsProofs.
